(** * DynamicArray: a shallow embedding of [src/cpp/src/DynamicArray.h]

    The class keeps three raw pointers ([head], [tail], [tailCap]) into one
    buffer obtained from [std::allocator].  The embedding keeps that shape:

    - a pointer is [Null] or a block identifier with an offset counted in
      elements, so that [tail - head] is the difference of two offsets;
    - the heap is the list of blocks handed out by the allocator, each slot
      being raw storage or a constructed element;
    - container objects live in a store and member functions receive the
      address [this], so that [a = a] and [a = std::move(a)] can be written;
    - member functions are computations in a monad of state, C++ exceptions
      and undefined behaviour;
    - [size_type] values are integers modulo [2^64].

    The element type [T] is a value type whose copy constructor does not
    throw.  Where the order of construction and cursor update matters,
    [PushBack_with] takes the construction of the pushed element as a
    parameter, so that a constructor that throws can be put in its place.

    Three places of the header do not name what they use, and are read as
    follows: [reserve] and [resize] call [Reallocate], which is [Realloc];
    the shrinking branch of [resize] assigns [head + low], and [low] is a
    parameter of the model; [Init] builds its allocator from
    [get_allocator], which is the default-constructed [Alloc] that
    [get_allocator()] returns. *)

From stdpp Require Import base list numbers.

Open Scope Z_scope.

(** ** Machine integers *)

Definition SIZE_MAX : Z := 18446744073709551615.
Definition PTRDIFF_MAX : Z := 9223372036854775807.

(** Conversion to [size_type] (and every [size_type] operation) is modulo
    [SIZE_MAX + 1]. *)
Definition wrap (z : Z) : Z := z mod (SIZE_MAX + 1).

Definition size_add (a b : Z) : Z := wrap (a + b).

Definition is_size_t (z : Z) : Prop := 0 <= z <= SIZE_MAX.

(** The largest request [std::allocator<T>::allocate] can grant: no array
    is larger than [PTRDIFF_MAX] bytes and [sizeof(T) >= 1].  Requests
    within the limit succeed in this model. *)
Definition alloc_max : Z := PTRDIFF_MAX.

(** ** Pointers *)

Inductive ptr : Set :=
| Null
| Ptr (b : nat) (o : Z).

Definition ptr_eqb (p q : ptr) : bool :=
  match p, q with
  | Null, Null => true
  | Ptr b o, Ptr b' o' => Nat.eqb b b' && Z.eqb o o'
  | _, _ => false
  end.

(** [p + k].  Arithmetic inside a block is plain offset arithmetic (bounds
    are checked where the pointer is used); the null pointer only admits
    [+ 0]. *)
Definition ptr_add (p : ptr) (k : Z) : option ptr :=
  match p with
  | Null => if Z.eqb k 0 then Some Null else None
  | Ptr b o => Some (Ptr b (o + k))
  end.

(** [p - q], defined for two pointers into the same block and for
    [nullptr - nullptr]. *)
Definition ptr_diff (p q : ptr) : option Z :=
  match p, q with
  | Null, Null => Some 0
  | Ptr b o, Ptr b' o' => if Nat.eqb b b' then Some (o - o') else None
  | _, _ => None
  end.

Inductive exn : Set :=
| out_of_range
| bad_alloc.

(** ** The object and the world around it *)

(** [class DynamicArray]: its three data members, lines 378-380. *)
Record DynamicArray : Type := mkDynamicArray {
  head : ptr;
  tail : ptr;
  tailCap : ptr
}.

Section DynamicArray.

Context {T : Type}.

(** Calls received by the allocator. *)
Inductive event : Type :=
| EvAllocate (n : Z) (p : ptr)
| EvDeallocate (p : ptr) (n : Z)
| EvConstruct (p : ptr) (v : T)
| EvDestroy (p : ptr).

Record world : Type := mkWorld {
  objs : list DynamicArray;        (* container objects, by address *)
  heap : list (option (list (option T)));
                                   (* blocks, [None] once deallocated; a slot
                                      is raw ([None]) or holds an element *)
  log : list event                 (* allocator calls, newest first *)
}.

Definition empty_world : world := mkWorld [] [] [].

(** ** The monad *)

Inductive outcome (A : Type) : Type :=
| Ret (a : A) (w : world)
| Throw (e : exn) (w : world)
| Undefined.

Global Arguments Ret {A} a w.
Global Arguments Throw {A} e w.
Global Arguments Undefined {A}.

Definition M (A : Type) : Type := world -> outcome A.

Definition ret {A} (a : A) : M A := fun w => Ret a w.

Definition bind {A B} (m : M A) (f : A -> M B) : M B :=
  fun w =>
    match m w with
    | Ret a w' => f a w'
    | Throw e w' => Throw e w'
    | Undefined => Undefined
    end.

Definition throw {A} (e : exn) : M A := fun w => Throw e w.

Definition undefined {A} : M A := fun _ => Undefined.

Definition lift {A} (o : option A) : M A :=
  match o with
  | Some a => ret a
  | None => undefined
  end.

End DynamicArray.

Global Arguments event : clear implicits.
Global Arguments world : clear implicits.
Global Arguments outcome : clear implicits.
Global Arguments M : clear implicits.

Declare Scope cpp_scope.
Delimit Scope cpp_scope with cpp.
Notation "x <- c1 ;; c2" := (bind c1 (fun x => c2))
  (at level 100, c1 at next level, right associativity) : cpp_scope.
Notation "c1 ;; c2" := (bind c1 (fun _ => c2))
  (at level 100, right associativity) : cpp_scope.
Open Scope cpp_scope.

(** ** The allocator ([std::allocator<T>]) *)

Section Allocator.

Context {T : Type}.

Local Abbreviation M := (M T).
Local Abbreviation world := (world T).

(** The world after an allocator call [e] that leaves the heap [h]. *)
Definition set_heap (w : world) (h : list (option (list (option T)))) (e : event T) : world :=
  mkWorld (objs w) h (e :: log w).

(** The slot a pointer designates, when it designates one. *)
Definition slot_at (w : world) (p : ptr) : option (option T) :=
  match p with
  | Null => None
  | Ptr b o =>
      if Z.ltb o 0 then None
      else match heap w !! b with
           | Some (Some blk) => blk !! Z.to_nat o
           | _ => None
           end
  end.

(** The heap with the slot at [p] overwritten. *)
Definition write_slot (w : world) (p : ptr) (s : option T) : list (option (list (option T))) :=
  match p with
  | Null => heap w
  | Ptr b o =>
      match heap w !! b with
      | Some (Some blk) => <[b := Some (<[Z.to_nat o := s]> blk)]> (heap w)
      | _ => heap w
      end
  end.

(** [alloc.allocate(n)]: a fresh block of [n] raw slots, or [bad_alloc].
    Block identifiers are never reused, and a request for no slot still
    returns a fresh non-null pointer, as [operator new(0)] does. *)
Definition allocate (n : Z) : M ptr :=
  fun w =>
    if Z.ltb alloc_max n then Throw bad_alloc w
    else
      let p := Ptr (length (heap w)) 0 in
      Ret p (set_heap w (heap w ++ [Some (replicate (Z.to_nat n) None)]) (EvAllocate n p)).

(** [alloc.deallocate(p, n)]: [p] must be the start of a block of [n]
    slots still allocated; [operator delete] accepts the null pointer. *)
Definition deallocate (p : ptr) (n : Z) : M unit :=
  fun w =>
    match p with
    | Null => Ret tt (set_heap w (heap w) (EvDeallocate p n))
    | Ptr b o =>
        match heap w !! b with
        | Some (Some blk) =>
            if Z.eqb o 0 && Z.eqb (Z.of_nat (length blk)) n
            then Ret tt (set_heap w (<[b := None]> (heap w)) (EvDeallocate p n))
            else Undefined
        | _ => Undefined
        end
    end.

(** [alloc.construct(p, v)]: placement-new of a copy of [v] at [p], which
    must designate a slot of a block still allocated. *)
Definition construct (p : ptr) (v : T) : M unit :=
  fun w =>
    match slot_at w p with
    | Some _ => Ret tt (set_heap w (write_slot w p (Some v)) (EvConstruct p v))
    | None => Undefined
    end.

(** [alloc.destroy(p)]: ends the life of the element at [p]. *)
Definition destroy (p : ptr) : M unit :=
  fun w =>
    match slot_at w p with
    | Some (Some _) => Ret tt (set_heap w (write_slot w p None) (EvDestroy p))
    | _ => Undefined
    end.

(** Reading through a [T &]: the slot must hold a live element. *)
Definition load (p : ptr) : M T :=
  fun w =>
    match slot_at w p with
    | Some (Some v) => Ret v w
    | _ => Undefined
    end.

(** ** Loops *)

(** [for (size_t i = lo; i < lo + count; ++i) body(i)] *)
Fixpoint for_up (i : Z) (count : nat) (body : Z -> M unit) : M unit :=
  match count with
  | O => ret tt
  | S k => body i ;; for_up (i + 1) k body
  end.

(** [for (size_t i = hi; i-- > hi - count; ) body(i)] *)
Fixpoint for_down (i : Z) (count : nat) (body : Z -> M unit) : M unit :=
  match count with
  | O => ret tt
  | S k => body (i - 1) ;; for_down (i - 1) k body
  end.

End Allocator.

(** ** Member functions *)

Section Members.

Context {T : Type}.

Local Abbreviation M := (M T).
Local Abbreviation world := (world T).

(** Access to the data members of the object at [this]. *)
Definition this_obj (this : nat) : M (DynamicArray) :=
  fun w => match objs w !! this with
           | Some d => Ret d w
           | None => Undefined
           end.

Definition store (this : nat) (f : DynamicArray -> DynamicArray) : M unit :=
  fun w => match objs w !! this with
           | Some d => Ret tt (mkWorld (<[this := f d]> (objs w)) (heap w) (log w))
           | None => Undefined
           end.

Definition get_head (this : nat) : M ptr := d <- this_obj this ;; ret (head d).
Definition get_tail (this : nat) : M ptr := d <- this_obj this ;; ret (tail d).
Definition get_tailCap (this : nat) : M ptr := d <- this_obj this ;; ret (tailCap d).

Definition set_head (this : nat) (p : ptr) : M unit :=
  store this (fun d => mkDynamicArray p (tail d) (tailCap d)).
Definition set_tail (this : nat) (p : ptr) : M unit :=
  store this (fun d => mkDynamicArray (head d) p (tailCap d)).
Definition set_tailCap (this : nat) (p : ptr) : M unit :=
  store this (fun d => mkDynamicArray (head d) (tail d) p).

(** A new object, at the next free address. *)
Definition new_obj (d : DynamicArray) : M nat :=
  fun w => Ret (length (objs w)) (mkWorld (objs w ++ [d]) (heap w) (log w)).

(** Pointer arithmetic, undefined where [ptr_add] and [ptr_diff] are. *)
Definition padd (p : ptr) (k : Z) : M ptr := lift (ptr_add p k).
Definition pdiff (p q : ptr) : M Z := lift (ptr_diff p q).

(** [size()], lines 118-121. *)
Definition size (this : nat) : M Z :=
  t <- get_tail this ;;
  h <- get_head this ;;
  d <- pdiff t h ;;
  ret (wrap d).

(** [capacity()], lines 123-126. *)
Definition capacity (this : nat) : M Z :=
  c <- get_tailCap this ;;
  h <- get_head this ;;
  d <- pdiff c h ;;
  ret (wrap d).

(** [empty()], lines 113-116. *)
Definition empty (this : nat) : M bool :=
  n <- size this ;;
  ret (Z.eqb n 0).

(** [Clear()], lines 368-375. *)
Definition Clear (this : nat) : M unit :=
  n <- size this ;;
  for_down n (Z.to_nat n) (fun i =>
    h <- get_head this ;;
    p <- padd h i ;;
    destroy p) ;;
  h <- get_head this ;;
  c <- capacity this ;;
  deallocate h c.

(** [clear()], lines 133-139. *)
Definition clear (this : nat) : M unit :=
  Clear this ;;
  set_head this Null ;;
  set_tail this Null ;;
  set_tailCap this Null.

(** [~DynamicArray()], lines 56-59. *)
Definition destructor (this : nat) : M unit := Clear this.

(** [Init(n, value)], lines 334-342. *)
Definition Init_fill (n : Z) (value : T) : M ptr :=
  h <- allocate n ;;
  for_up 0 (Z.to_nat n) (fun i =>
    p <- padd h i ;;
    construct p value) ;;
  ret h.

(** [operator[](index)], lines 141-149; the result is a reference. *)
Definition operator_index (this : nat) (index : Z) : M ptr :=
  h <- get_head this ;;
  padd h index.

(** [Init(arr)], lines 344-353; [arr[i]] is [operator[]] of [arr]. *)
Definition Init_copy (arr : nat) : M ptr :=
  n <- size arr ;;
  h <- allocate n ;;
  for_up 0 (Z.to_nat n) (fun i =>
    p <- padd h i ;;
    r <- operator_index arr i ;;
    v <- load r ;;
    construct p v) ;;
  ret h.

(** [Realloc(newCapacity)], lines 355-366. *)
Definition Realloc (this : nat) (newCapacity : Z) : M unit :=
  newHead <- allocate newCapacity ;;
  n <- size this ;;
  for_up 0 (Z.to_nat n) (fun i =>
    p <- padd newHead i ;;
    h <- get_head this ;;
    r <- padd h i ;;
    v <- load r ;;
    construct p v) ;;
  set_head this newHead ;;
  t <- padd newHead n ;;
  set_tail this t ;;
  c <- padd newHead newCapacity ;;
  set_tailCap this c.

(** [reserve] and [resize] call [Reallocate(n)].  The class declares no
    member of that name; the call is resolved to [Realloc], the one
    reallocation routine of the class, whose signature it matches. *)
Definition Reallocate (this : nat) (n : Z) : M unit := Realloc this n.

(** [RangeGuard(index)], lines 327-332. *)
Definition RangeGuard (this : nat) (index : Z) : M unit :=
  n <- size this ;;
  if Z.ltb n index then throw out_of_range else ret tt.

(** [at(index)], lines 151-161; the result is a reference. *)
Definition at_ (this : nat) (index : Z) : M ptr :=
  RangeGuard this index ;;
  operator_index this index.

(** [front()] and [back()], lines 163-181. *)
Definition front (this : nat) : M ptr := get_head this.

Definition back (this : nat) : M ptr :=
  t <- get_tail this ;;
  padd t (-1).

(** [release()], lines 183-190. *)
Definition release (this : nat) : M ptr :=
  p <- get_head this ;;
  set_head this Null ;;
  set_tail this Null ;;
  set_tailCap this Null ;;
  ret p.

(** [data()], [begin()], [end()], lines 192-230. *)
Definition data (this : nat) : M ptr := get_head this.
Definition begin_ (this : nat) : M ptr := get_head this.
Definition end_ (this : nat) : M ptr := get_tail this.

(** [reserve(n)], lines 262-267. *)
Definition reserve (this : nat) (n : Z) : M unit :=
  s <- size this ;;
  if Z.ltb s n then Reallocate this n else ret tt.

(** [resize(newSize, value)], lines 269-287.  Line 285 reads
    [tail = head + low], and nothing in the file declares [low]: it is a
    parameter of the model. *)
Definition resize (low : Z) (this : nat) (newSize : Z) (value : T) : M unit :=
  oldSize <- size this ;;
  if Z.ltb oldSize newSize then
    Reallocate this newSize ;;
    for_up oldSize (Z.to_nat (newSize - oldSize)) (fun i =>
      h <- get_head this ;;
      p <- padd h i ;;
      construct p value) ;;
    h <- get_head this ;;
    t <- padd h newSize ;;
    set_tail this t
  else if Z.ltb newSize oldSize then
    n <- size this ;;
    for_down n (Z.to_nat (n - newSize)) (fun i =>
      h <- get_head this ;;
      p <- padd h i ;;
      destroy p) ;;
    h <- get_head this ;;
    t <- padd h low ;;
    set_tail this t
  else ret tt.

(** [AmortizedGrowSize()], lines 316-320. *)
Definition AmortizedGrowSize (this : nat) : M Z :=
  n <- size this ;;
  ret (size_add (size_add (n / 2) n) 1).

(** [AmortizedGrow()], lines 322-325. *)
Definition AmortizedGrow (this : nat) : M unit :=
  g <- AmortizedGrowSize this ;;
  Realloc this g.

(** [PushBack(value)], lines 306-314. *)
Definition PushBack (this : nat) (value : T) : M unit :=
  s <- size this ;;
  c <- capacity this ;;
  (if Z.eqb s c then AmortizedGrow this else ret tt) ;;
  t <- get_tail this ;;
  construct t value ;;
  t <- get_tail this ;;
  t' <- padd t 1 ;;
  set_tail this t'.

(** [push_back(value)], lines 289-297 (both overloads forward to
    [PushBack]). *)
Definition push_back (this : nat) (value : T) : M unit := PushBack this value.

(** [PushBack(value)], lines 306-314, with the construction of the new
    element (line 312) passed in.  [construct(tail, std::forward<T2>(value))]
    runs the constructor of [T] that [T2] selects, the move or the copy
    constructor: code of the element type, which may throw.  With
    [construct] for it, this is [PushBack]. *)
Definition PushBack_with (construct_value : ptr -> T -> M unit)
    (this : nat) (value : T) : M unit :=
  s <- size this ;;
  c <- capacity this ;;
  (if Z.eqb s c then AmortizedGrow this else ret tt) ;;
  t <- get_tail this ;;
  construct_value t value ;;
  t <- get_tail this ;;
  t' <- padd t 1 ;;
  set_tail this t'.

(** [pop_back()], lines 299-303. *)
Definition pop_back (this : nat) : M unit :=
  t <- get_tail this ;;
  p <- padd t (-1) ;;
  destroy p ;;
  t <- get_tail this ;;
  t' <- padd t (-1) ;;
  set_tail this t'.

(** ** Constructors and assignment *)

(** [DynamicArray()], lines 61-65. *)
Definition DynamicArray_ctor : M nat :=
  new_obj (mkDynamicArray Null Null Null).

(** [DynamicArray(n, value)], lines 67-71. *)
Definition DynamicArray_ctor_fill (n : Z) (value : T) : M nat :=
  h <- Init_fill n value ;;
  t <- padd h n ;;
  new_obj (mkDynamicArray h t t).

(** [DynamicArray(DynamicArray const & other)], lines 73-77. *)
Definition DynamicArray_ctor_copy (other : nat) : M nat :=
  h <- Init_copy other ;;
  s <- size other ;;
  t <- padd h s ;;
  c <- capacity other ;;
  tc <- padd h c ;;
  new_obj (mkDynamicArray h t tc).

(** [DynamicArray(DynamicArray && other)], lines 79-87. *)
Definition DynamicArray_ctor_move (other : nat) : M nat :=
  h <- get_head other ;;
  t <- get_tail other ;;
  tc <- get_tailCap other ;;
  this <- new_obj (mkDynamicArray h t tc) ;;
  set_head other Null ;;
  set_tail other Null ;;
  set_tailCap other Null ;;
  ret this.

(** [operator=(DynamicArray const & other)], lines 89-95. *)
Definition operator_assign_copy (this other : nat) : M unit :=
  h <- Init_copy other ;;
  set_head this h ;;
  h <- get_head this ;;
  s <- size other ;;
  t <- padd h s ;;
  set_tail this t ;;
  t <- get_tail this ;;
  set_tailCap this t.

(** [operator=(DynamicArray && other)], lines 97-106. *)
Definition operator_assign_move (this other : nat) : M unit :=
  h <- get_head other ;;
  set_head this h ;;
  t <- get_tail other ;;
  set_tail this t ;;
  tc <- get_tailCap other ;;
  set_tailCap this tc ;;
  set_head other Null ;;
  set_tail other Null ;;
  set_tailCap other Null.

(** ** Client code *)

(** A forward traversal from [begin()] to [end()], reading each element
    through the iterator and collecting the values read. *)
Fixpoint walk (fuel : nat) (it e : ptr) : M (list T) :=
  if ptr_eqb it e then ret []
  else
    match fuel with
    | O => undefined
    | S k =>
        v <- load it ;;
        it' <- padd it 1 ;;
        rest <- walk k it' e ;;
        ret (v :: rest)
    end.

Definition iterate (this : nat) : M (list T) :=
  b <- begin_ this ;;
  e <- end_ this ;;
  n <- pdiff e b ;;
  walk (Z.to_nat n) b e.

(** [a.push_back(v)] for each [v] of a list, in order. *)
Fixpoint push_all (this : nat) (vs : list T) : M unit :=
  match vs with
  | [] => ret tt
  | v :: vs' => push_back this v ;; push_all this vs'
  end.

(** [rbegin()] and [rend()], lines 232-260: [reverse_iterator(end())] and
    [reverse_iterator(begin())].  A reverse iterator is represented by the
    pointer it wraps. *)
Definition rbegin (this : nat) : M ptr := end_ this.
Definition rend (this : nat) : M ptr := begin_ this.

(** A traversal from [rbegin()] to [rend()]: a reverse iterator reads the
    element before the pointer it wraps, and incrementing it moves that
    pointer one element back. *)
Fixpoint walk_back (fuel : nat) (it e : ptr) : M (list T) :=
  if ptr_eqb it e then ret []
  else
    match fuel with
    | O => undefined
    | S k =>
        p <- padd it (-1) ;;
        v <- load p ;;
        rest <- walk_back k p e ;;
        ret (v :: rest)
    end.

Definition iterate_back (this : nat) : M (list T) :=
  b <- rbegin this ;;
  e <- rend this ;;
  n <- pdiff b e ;;
  walk_back (Z.to_nat n) b e.

(** Reading through the references [front()], [back()] and [at(index)]
    return. *)
Definition read_front (this : nat) : M T :=
  r <- front this ;; load r.

Definition read_back (this : nat) : M T :=
  r <- back this ;; load r.

Definition read_at (this : nat) (index : Z) : M T :=
  r <- at_ this index ;; load r.


End Members.

(** * Specification vocabulary *)

Section Vocabulary.

Context {T : Type}.

Local Abbreviation M := (M T).
Local Abbreviation world := (world T).

(** ** Outcomes of a computation *)

(** [wpg U m Q E w]: run from [w], [m] returns into [Q] or throws into
    [E]; [U] says whether undefined behaviour is tolerated ([True]: partial
    correctness) or excluded ([False]: the computation is proved to return
    or throw). *)
Definition wpg {A} (U : Prop) (m : M A) (Q : A -> world -> Prop)
    (E : exn -> world -> Prop) (w : world) : Prop :=
  match m w with
  | Ret a w' => Q a w'
  | Throw e w' => E e w'
  | Undefined => U
  end.

(** The exceptional postcondition of a computation that must not throw. *)
Definition nothrow : exn -> world -> Prop := fun _ _ => False.

(** [returns m Q w]: from [w], [m] returns normally into [Q]. *)
Definition returns {A} (m : M A) (Q : A -> world -> Prop) (w : world) : Prop :=
  wpg False m Q nothrow w.

(** [preserves R m]: whenever [m] returns or throws, the final world is
    related to the initial one by [R]. *)
Definition preserves {A} (R : world -> world -> Prop) (m : M A) : Prop :=
  forall w, wpg True m (fun _ w' => R w w') (fun _ w' => R w w') w.

(** The shape of the heap: which blocks exist, and how long they are. *)
Definition shape (w : world) : list (option nat) :=
  (fun ob : option (list (option T)) => length <$> ob) <$> heap w.

(** The two relations the loops of the class preserve: the objects are
    untouched, and moreover no block appears, disappears or changes
    length. *)
Definition same_objs (w w' : world) : Prop := objs w' = objs w.

Definition same_layout (w w' : world) : Prop :=
  objs w' = objs w /\ shape w' = shape w.

(** ** The container as a sequence *)

(** The world where the object at [this] has been overwritten by [d]. *)
Definition upd (w : world) (this : nat) (d : DynamicArray) : world :=
  mkWorld (<[this := d]> (objs w)) (heap w) (log w).

(** A length as a [size_type] value. *)
Definition len (xs : list T) : Z := Z.of_nat (length xs).

(** A buffer of [cap] slots whose first [len xs] hold [xs], the rest raw. *)
Definition cells (xs : list T) (cap : Z) : list (option T) :=
  (Some <$> xs) ++ replicate (Z.to_nat (cap - len xs)) None.

(** The empty sentinel: all three cursors null. *)
Definition null_array : DynamicArray := mkDynamicArray Null Null Null.

(** [owns w this xs cap]: in [w] the object at [this] is the empty
    sentinel (and [xs] is empty, [cap] zero), or its cursors delimit a block
    of exactly [cap] slots holding [xs] followed by raw storage. *)
Inductive owns (w : world) (this : nat) (xs : list T) (cap : Z) : Prop :=
| owns_null :
    objs w !! this = Some null_array -> xs = [] -> cap = 0 ->
    owns w this xs cap
| owns_block (b : nat) :
    objs w !! this = Some (mkDynamicArray (Ptr b 0) (Ptr b (len xs)) (Ptr b cap)) ->
    heap w !! b = Some (Some (cells xs cap)) ->
    len xs <= cap -> cap <= alloc_max ->
    owns w this xs cap.

(** The world after a reallocation of [this] to [n] slots holding [xs]:
    a new block at the end of the heap, the cursors of [this] moved to it,
    every other object and every older block left as they were. *)
Definition rebuilt (w : world) (this : nat) (xs : list T) (n : Z) (w' : world) : Prop :=
  let b := length (heap w) in
  objs w' = <[this := mkDynamicArray (Ptr b 0) (Ptr b (len xs)) (Ptr b n)]> (objs w) /\
  heap w' = heap w ++ [Some (cells xs n)] /\
  exists lg, log w' = lg ++ log w.

(** The growth schedule, without wrap-around. *)
Definition grown (cap : Z) : Z := cap + cap / 2 + 1.

(** The capacity [push_back] leaves behind. *)
Definition capacity_after_push (xs : list T) (cap : Z) : Z :=
  if Z.eqb (len xs) cap then grown cap else cap.

(** Reading the element behind the reference [operator[]] returns. *)
Definition read_index (this : nat) (index : Z) : M T :=
  r <- operator_index this index ;; load r.

(** The block [Init] builds: a fresh block appended to the heap. *)
Definition built (w : world) (blk : list (option T)) (h : ptr) (w' : world) : Prop :=
  h = Ptr (length (heap w)) 0 /\
  objs w' = objs w /\
  heap w' = heap w ++ [Some blk] /\
  exists lg, log w' = lg ++ log w.

(** ** The cursor invariant *)

(** [start <= liveEnd <= capacityEnd], or all three the empty sentinel. *)
Definition cursors_ok (d : DynamicArray) : Prop :=
  d = null_array \/
  exists b s c, d = mkDynamicArray (Ptr b 0) (Ptr b s) (Ptr b c) /\
                0 <= s <= c /\ c <= SIZE_MAX.

(** The object at [this] exists and satisfies the cursor invariant. *)
Definition inv (w : world) (this : nat) : Prop :=
  exists d, objs w !! this = Some d /\ cursors_ok d.

(** What the invariant says in terms of the public queries. *)
Definition size_le_capacity (w : world) (this : nat) : Prop :=
  exists s c, size this w = Ret s w /\ capacity this w = Ret c w /\ s <= c.

(** Every object of the store satisfies the cursor invariant. *)
Definition all_inv (w : world) : Prop :=
  forall this d, objs w !! this = Some d -> cursors_ok d.

(** [keeps m w]: if [m], run from [w], returns or throws, every object
    satisfies the cursor invariant afterwards. *)
Definition keeps {A} (m : M A) (w : world) : Prop :=
  wpg True m (fun _ w' => all_inv w') (fun _ w' => all_inv w') w.

(** Size and capacity as read off the cursors. *)
Definition cursor_size (d : DynamicArray) : Z :=
  match ptr_diff (tail d) (head d) with Some z => z | None => 0 end.

Definition cursor_capacity (d : DynamicArray) : Z :=
  match ptr_diff (tailCap d) (head d) with Some z => z | None => 0 end.

(** ** Moving *)

(** What a move leaves behind: [dst] has the cursors [src] had, [src] is
    the empty sentinel, and neither the heap nor the allocator log has
    changed. *)
Definition moved (w : world) (src dst : nat) (xs : list T) (cap : Z) (w' : world) : Prop :=
  objs w' !! dst = objs w !! src /\
  objs w' !! src = Some null_array /\
  heap w' = heap w /\
  log w' = log w /\
  size src w' = Ret 0 w' /\
  capacity src w' = Ret 0 w' /\
  owns w' dst xs cap /\
  iterate dst w' = Ret xs w'.

(** ** Allocator traces *)

(** The events logged by copying [xs] into the slots [0 ..] of block [b],
    in index order (the newest event comes first). *)
Definition copy_events (b : nat) (xs : list T) : list (event T) :=
  rev (imap (fun i x => EvConstruct (Ptr b (Z.of_nat i)) x) xs).

(** The events logged by destroying the slots [lo .. lo + m - 1] of block
    [b] from the last to the first. *)
Definition destroy_events (b : nat) (lo : Z) (m : nat) : list (event T) :=
  (fun i => EvDestroy (Ptr b (lo + Z.of_nat i))) <$> seq 0 m.

(** How many elements a log constructed, how many blocks it allocated, and
    how many destroy or deallocate calls it holds. *)
Fixpoint constructions (lg : list (event T)) : Z :=
  match lg with
  | [] => 0
  | EvConstruct _ _ :: rest => 1 + constructions rest
  | _ :: rest => constructions rest
  end.

Fixpoint allocations (lg : list (event T)) : Z :=
  match lg with
  | [] => 0
  | EvAllocate _ _ :: rest => 1 + allocations rest
  | _ :: rest => allocations rest
  end.

Fixpoint teardowns (lg : list (event T)) : Z :=
  match lg with
  | [] => 0
  | EvDestroy _ :: rest => 1 + teardowns rest
  | EvDeallocate _ _ :: rest => 1 + teardowns rest
  | _ :: rest => teardowns rest
  end.

(** The world [Realloc(n)] leaves when [this] holds [xs]: a new block at
    the end of the heap, filled in index order; the old block is not
    touched. *)
Definition reallocated (w : world) (this : nat) (xs : list T) (n : Z) : world :=
  let b := length (heap w) in
  mkWorld (<[this := mkDynamicArray (Ptr b 0) (Ptr b (len xs)) (Ptr b n)]> (objs w))
          (heap w ++ [Some (cells xs n)])
          (copy_events b xs ++ EvAllocate n (Ptr b 0) :: log w).

(** The world [~DynamicArray()] leaves when [this] holds [xs] in block
    [b]: the elements destroyed from the last to the first, the block
    deallocated; the cursors of [this] are not reset. *)
Definition destroyed (w : world) (b : nat) (xs : list T) (cap : Z) : world :=
  mkWorld (objs w) (<[b := None]> (heap w))
          (EvDeallocate (Ptr b 0) cap :: destroy_events b 0 (length xs) ++ log w).

End Vocabulary.

(** ** Scenarios on [DynamicArray<int>] *)

(** The value a program returns when run from the empty world. *)
Definition result {A} (m : M Z A) : option A :=
  match m empty_world with
  | Ret a _ => Some a
  | _ => None
  end.

(** [DynamicArray<int> a; a.push_back(1); a.push_back(2); a.push_back(3);] *)
Definition three : M Z nat :=
  a <- DynamicArray_ctor ;;
  push_all a [1; 2; 3] ;;
  ret a.

(** [DynamicArray<int> a; a.reserve(4); a.push_back(1);] *)
Definition one_of_four : M Z nat :=
  a <- DynamicArray_ctor ;;
  reserve a 4 ;;
  push_back a 1 ;;
  ret a.

(** A world holding one container, [{7}] with capacity 1. *)
Definition w_seven : world Z :=
  mkWorld [mkDynamicArray (Ptr 0 0) (Ptr 0 1) (Ptr 0 1)] [Some [Some 7]] [].

(** A world with two containers: [{7}] of capacity 1, and an empty one. *)
Definition w_pair : world Z :=
  mkWorld [mkDynamicArray (Ptr 0 0) (Ptr 0 1) (Ptr 0 1); null_array] [Some [Some 7]] [].

(** A world holding one container, [{7, 8}] with capacity 4. *)
Definition w_spare : world Z :=
  mkWorld [mkDynamicArray (Ptr 0 0) (Ptr 0 2) (Ptr 0 4)]
          [Some [Some 7; Some 8; None; None]] [].

(** A world holding one empty container. *)
Definition w_null : world Z := mkWorld [null_array] [] [].

(** A world with two containers that own a block each: [{7, 8}] of
    capacity 4 and [{5}] of capacity 1. *)
Definition w_two : world Z :=
  mkWorld [mkDynamicArray (Ptr 0 0) (Ptr 0 2) (Ptr 0 4);
           mkDynamicArray (Ptr 1 0) (Ptr 1 1) (Ptr 1 1)]
          [Some [Some 7; Some 8; None; None]; Some [Some 5]] [].

(** * Reasoning about computations *)

Section Logic.

Context {T : Type}.

Local Abbreviation M := (M T).
Local Abbreviation world := (world T).

(** One rule per construct of the monad.  A rule stated for every [U]
    serves both readings of [wpg]; the [_partial] rules only hold when
    undefined behaviour is tolerated. *)

Lemma wpg_ret {A} U (a : A) Q E (w : world) : Q a w -> wpg U (ret a) Q E w.
Proof. intros H. exact H. Qed.

Lemma wpg_throw {A} U e (Q : A -> world -> Prop) (E : exn -> world -> Prop) (w : world) :
  E e w -> wpg U (throw e) Q E w.
Proof. intros H. exact H. Qed.

Lemma wpg_bind {A B} U (m : M A) (f : A -> M B) Q E (w : world) :
  wpg U m (fun a w' => wpg U (f a) Q E w') E w -> wpg U (bind m f) Q E w.
Proof.
  unfold wpg, bind. destruct (m w) as [a w'|e w'|]; auto.
Qed.

Lemma wpg_mono {A} U (m : M A) (Q Q' : A -> world -> Prop) (E E' : exn -> world -> Prop) (w : world) :
  wpg U m Q E w ->
  (forall a w', Q a w' -> Q' a w') ->
  (forall e w', E e w' -> E' e w') ->
  wpg U m Q' E' w.
Proof.
  unfold wpg. destruct (m w) as [a w'|e w'|]; auto.
Qed.

Lemma wpg_weaken {A} (m : M A) Q E w : wpg False m Q E w -> wpg True m Q E w.
Proof.
  unfold wpg. destruct (m w) as [a w'|e w'|]; auto.
Qed.

Lemma wpg_lift {A} U (o : option A) (a : A) Q E (w : world) :
  o = Some a -> Q a w -> wpg U (lift o) Q E w.
Proof. intros -> H. exact H. Qed.

Lemma wpg_lift_partial {A} (o : option A) Q E (w : world) :
  (forall a, o = Some a -> Q a w) -> wpg True (lift o) Q E w.
Proof. destruct o as [a|]; intros H; [exact (H a eq_refl) | exact I]. Qed.

Lemma returns_inv {A} (m : M A) Q (w : world) :
  returns m Q w -> exists a w', m w = Ret a w' /\ Q a w'.
Proof.
  unfold returns, wpg. destruct (m w) as [a w'|e w'|]; intros H;
    [eauto | destruct H | destruct H].
Qed.

(** ** Objects *)

(** Reading and writing the data members of an object that exists. *)

Lemma objs_upd_eq (w : world) this d d' :
  objs w !! this = Some d -> objs (upd w this d') !! this = Some d'.
Proof.
  intros H. apply list_lookup_insert_eq. eapply lookup_lt_Some, H.
Qed.

Lemma objs_upd_ne (w : world) this other d' :
  this <> other -> objs (upd w this d') !! other = objs w !! other.
Proof. intros H. apply list_lookup_insert_ne, H. Qed.

Lemma wpg_get_head U this d Q E (w : world) :
  objs w !! this = Some d -> Q (head d) w -> wpg U (get_head this) Q E w.
Proof. unfold wpg, get_head, bind, this_obj. intros -> H. exact H. Qed.

Lemma wpg_get_tail U this d Q E (w : world) :
  objs w !! this = Some d -> Q (tail d) w -> wpg U (get_tail this) Q E w.
Proof. unfold wpg, get_tail, bind, this_obj. intros -> H. exact H. Qed.

Lemma wpg_get_tailCap U this d Q E (w : world) :
  objs w !! this = Some d -> Q (tailCap d) w -> wpg U (get_tailCap this) Q E w.
Proof. unfold wpg, get_tailCap, bind, this_obj. intros -> H. exact H. Qed.

Lemma wpg_set_head U this p d Q E (w : world) :
  objs w !! this = Some d ->
  Q tt (upd w this (mkDynamicArray p (tail d) (tailCap d))) ->
  wpg U (set_head this p) Q E w.
Proof. unfold wpg, set_head, store. intros -> H. exact H. Qed.

Lemma wpg_set_tail U this p d Q E (w : world) :
  objs w !! this = Some d ->
  Q tt (upd w this (mkDynamicArray (head d) p (tailCap d))) ->
  wpg U (set_tail this p) Q E w.
Proof. unfold wpg, set_tail, store. intros -> H. exact H. Qed.

Lemma wpg_set_tailCap U this p d Q E (w : world) :
  objs w !! this = Some d ->
  Q tt (upd w this (mkDynamicArray (head d) (tail d) p)) ->
  wpg U (set_tailCap this p) Q E w.
Proof. unfold wpg, set_tailCap, store. intros -> H. exact H. Qed.

Lemma wpg_new_obj U d Q E (w : world) :
  Q (length (objs w)) (mkWorld (objs w ++ [d]) (heap w) (log w)) ->
  wpg U (new_obj d) Q E w.
Proof. intros H. exact H. Qed.

(** [size()] and [capacity()] are functions of the cursors alone. *)
Lemma size_cursors (this : nat) (w : world) :
  size this w =
  match objs w !! this with
  | Some d =>
      match ptr_diff (tail d) (head d) with
      | Some z => Ret (wrap z) w
      | None => Undefined
      end
  | None => Undefined
  end.
Proof.
  unfold size, get_tail, get_head, bind, this_obj, pdiff, lift.
  destruct (objs w !! this) as [d|] eqn:Hd; [|reflexivity].
  cbn. rewrite Hd. cbn.
  destruct (ptr_diff (tail d) (head d)); reflexivity.
Qed.

Lemma capacity_cursors (this : nat) (w : world) :
  capacity this w =
  match objs w !! this with
  | Some d =>
      match ptr_diff (tailCap d) (head d) with
      | Some z => Ret (wrap z) w
      | None => Undefined
      end
  | None => Undefined
  end.
Proof.
  unfold capacity, get_tailCap, get_head, bind, this_obj, pdiff, lift.
  destruct (objs w !! this) as [d|] eqn:Hd; [|reflexivity].
  cbn. rewrite Hd. cbn.
  destruct (ptr_diff (tailCap d) (head d)); reflexivity.
Qed.

End Logic.

(** ** The allocator *)

Section HeapLogic.

Context {T : Type}.

Local Abbreviation M := (M T).
Local Abbreviation world := (world T).

Lemma slot_at_block (w : world) b o blk :
  heap w !! b = Some (Some blk) -> 0 <= o ->
  slot_at w (Ptr b o) = blk !! Z.to_nat o.
Proof.
  intros H Ho. unfold slot_at. rewrite H.
  destruct (Z.ltb_spec o 0); [lia | reflexivity].
Qed.

Lemma write_slot_block (w : world) b o blk s :
  heap w !! b = Some (Some blk) ->
  write_slot w (Ptr b o) s = <[b := Some (<[Z.to_nat o := s]> blk)]> (heap w).
Proof. intros H. unfold write_slot. rewrite H. reflexivity. Qed.

Lemma slot_at_Some_inv (w : world) p s :
  slot_at w p = Some s ->
  exists b o blk, p = Ptr b o /\ 0 <= o /\ heap w !! b = Some (Some blk) /\
                  blk !! Z.to_nat o = Some s.
Proof.
  destruct p as [|b o]; [discriminate|]. unfold slot_at.
  destruct (Z.ltb_spec o 0); [discriminate|].
  destruct (heap w !! b) as [[blk|]|] eqn:Hb; try discriminate.
  intros H'. exists b, o, blk. auto.
Qed.

Lemma wpg_allocate U n (Q : ptr -> world -> Prop) (E : exn -> world -> Prop) (w : world) :
  (alloc_max < n -> E bad_alloc w) ->
  (n <= alloc_max ->
   Q (Ptr (length (heap w)) 0)
     (set_heap w (heap w ++ [Some (replicate (Z.to_nat n) None)])
        (EvAllocate n (Ptr (length (heap w)) 0)))) ->
  wpg U (allocate n) Q E w.
Proof.
  intros HE HQ. unfold wpg, allocate.
  destruct (Z.ltb_spec alloc_max n); [apply HE | apply HQ]; lia.
Qed.

Lemma wpg_construct U p v s (Q : unit -> world -> Prop) E (w : world) :
  slot_at w p = Some s ->
  Q tt (set_heap w (write_slot w p (Some v)) (EvConstruct p v)) ->
  wpg U (construct p v) Q E w.
Proof. unfold wpg, construct. intros -> H. exact H. Qed.

Lemma wpg_construct_partial p v (Q : unit -> world -> Prop) E (w : world) :
  (forall s, slot_at w p = Some s ->
             Q tt (set_heap w (write_slot w p (Some v)) (EvConstruct p v))) ->
  wpg True (construct p v) Q E w.
Proof.
  unfold wpg, construct. destruct (slot_at w p) as [s|]; intros H;
    [exact (H s eq_refl) | exact I].
Qed.

Lemma wpg_destroy U p x (Q : unit -> world -> Prop) E (w : world) :
  slot_at w p = Some (Some x) ->
  Q tt (set_heap w (write_slot w p None) (EvDestroy p)) ->
  wpg U (destroy p) Q E w.
Proof. unfold wpg, destroy. intros -> H. exact H. Qed.

Lemma wpg_destroy_partial p (Q : unit -> world -> Prop) E (w : world) :
  (forall x, slot_at w p = Some (Some x) ->
             Q tt (set_heap w (write_slot w p None) (EvDestroy p))) ->
  wpg True (destroy p) Q E w.
Proof.
  unfold wpg, destroy. destruct (slot_at w p) as [[x|]|]; intros H;
    [exact (H x eq_refl) | exact I | exact I].
Qed.

Lemma wpg_load U p x (Q : T -> world -> Prop) E (w : world) :
  slot_at w p = Some (Some x) -> Q x w -> wpg U (load p) Q E w.
Proof. unfold wpg, load. intros -> H. exact H. Qed.

Lemma wpg_load_partial p (Q : T -> world -> Prop) E (w : world) :
  (forall x, slot_at w p = Some (Some x) -> Q x w) -> wpg True (load p) Q E w.
Proof.
  unfold wpg, load. destruct (slot_at w p) as [[x|]|]; intros H;
    [exact (H x eq_refl) | exact I | exact I].
Qed.

Lemma wpg_deallocate_null U n (Q : unit -> world -> Prop) E (w : world) :
  Q tt (set_heap w (heap w) (EvDeallocate Null n)) ->
  wpg U (deallocate Null n) Q E w.
Proof. intros H. exact H. Qed.

Lemma wpg_deallocate U b n blk (Q : unit -> world -> Prop) E (w : world) :
  heap w !! b = Some (Some blk) -> Z.of_nat (length blk) = n ->
  Q tt (set_heap w (<[b := None]> (heap w)) (EvDeallocate (Ptr b 0) n)) ->
  wpg U (deallocate (Ptr b 0) n) Q E w.
Proof.
  unfold wpg, deallocate. intros -> <- H.
  cbn [Z.eqb andb]. rewrite Z.eqb_refl. exact H.
Qed.

(** ** Loops *)

Lemma for_up_rule U (I : nat -> world -> Prop) (body : Z -> M unit) i0 count
    (Q : unit -> world -> Prop) E (w : world) :
  I 0%nat w ->
  (forall k w', (k < count)%nat -> I k w' ->
     wpg U (body (i0 + Z.of_nat k)) (fun _ w'' => I (S k) w'') E w') ->
  (forall w', I count w' -> Q tt w') ->
  wpg U (for_up i0 count body) Q E w.
Proof.
  revert I i0 w. induction count as [|n IH]; intros I i0 w H0 Hstep Hend.
  - apply Hend, H0.
  - cbn [for_up]. apply wpg_bind.
    eapply wpg_mono; [| |intros e w' He; exact He].
    + specialize (Hstep 0%nat w). rewrite Z.add_0_r in Hstep.
      apply Hstep; [lia | exact H0].
    + intros [] w1 H1. apply (IH (fun k => I (S k))); [exact H1 | | exact Hend].
      intros k w' Hk HI.
      replace (i0 + 1 + Z.of_nat k) with (i0 + Z.of_nat (S k)) by lia.
      apply Hstep; [lia | exact HI].
Qed.

Lemma for_down_rule U (I : nat -> world -> Prop) (body : Z -> M unit) i0 count
    (Q : unit -> world -> Prop) E (w : world) :
  I 0%nat w ->
  (forall k w', (k < count)%nat -> I k w' ->
     wpg U (body (i0 - 1 - Z.of_nat k)) (fun _ w'' => I (S k) w'') E w') ->
  (forall w', I count w' -> Q tt w') ->
  wpg U (for_down i0 count body) Q E w.
Proof.
  revert I i0 w. induction count as [|n IH]; intros I i0 w H0 Hstep Hend.
  - apply Hend, H0.
  - cbn [for_down]. apply wpg_bind.
    eapply wpg_mono; [| |intros e w' He; exact He].
    + specialize (Hstep 0%nat w). rewrite Z.sub_0_r in Hstep.
      apply Hstep; [lia | exact H0].
    + intros [] w1 H1. apply (IH (fun k => I (S k))); [exact H1 | | exact Hend].
      intros k w' Hk HI.
      replace (i0 - 1 - 1 - Z.of_nat k) with (i0 - 1 - Z.of_nat (S k)) by lia.
      apply Hstep; [lia | exact HI].
Qed.

End HeapLogic.

(** * The container as a sequence *)

Lemma wrap_small (z : Z) : is_size_t z -> wrap z = z.
Proof.
  unfold is_size_t, wrap, SIZE_MAX. intros H. apply Z.mod_small. lia.
Qed.

Lemma alloc_max_size_t (z : Z) : 0 <= z <= alloc_max -> is_size_t z.
Proof. unfold alloc_max, PTRDIFF_MAX, is_size_t, SIZE_MAX. lia. Qed.

Section Representation.

Context {T : Type}.

Local Abbreviation M := (M T).
Local Abbreviation world := (world T).

Lemma len_nonneg (xs : list T) : 0 <= len xs.
Proof. unfold len. lia. Qed.

Lemma len_app (xs ys : list T) : len (xs ++ ys) = len xs + len ys.
Proof. unfold len. rewrite length_app. lia. Qed.

Lemma length_cells (xs : list T) cap :
  len xs <= cap -> length (cells xs cap) = Z.to_nat cap.
Proof.
  unfold cells, len. intros H.
  rewrite length_app, length_fmap, length_replicate. lia.
Qed.

Lemma cells_lookup_live (xs : list T) cap k x :
  xs !! k = Some x -> cells xs cap !! k = Some (Some x).
Proof.
  intros H. unfold cells. rewrite lookup_app_l.
  - rewrite list_lookup_fmap, H. reflexivity.
  - rewrite length_fmap. eapply lookup_lt_Some, H.
Qed.

Lemma cells_lookup_raw (xs : list T) cap k :
  (length xs <= k)%nat -> Z.of_nat k < cap -> cells xs cap !! k = Some None.
Proof.
  intros H1 H2. unfold cells, len. rewrite lookup_app_r.
  - rewrite length_fmap. apply lookup_replicate_2. lia.
  - rewrite length_fmap. exact H1.
Qed.

Lemma cells_push (xs : list T) cap x :
  len xs < cap ->
  <[length xs := Some x]> (cells xs cap) = cells (xs ++ [x]) cap.
Proof.
  unfold cells, len. intros H.
  rewrite insert_app_r_alt by (rewrite length_fmap; lia).
  rewrite length_fmap, Nat.sub_diag, length_app. cbn [length].
  destruct (Z.to_nat (cap - Z.of_nat (length xs))) as [|n] eqn:Hn; [lia|].
  replace (Z.to_nat (cap - Z.of_nat (length xs + 1))) with n by lia.
  rewrite fmap_app. cbn. rewrite <- app_assoc. reflexivity.
Qed.

Lemma cells_pop (xs : list T) cap x :
  len xs < cap ->
  <[length xs := None]> (cells (xs ++ [x]) cap) = cells xs cap.
Proof.
  unfold cells, len. intros H.
  rewrite fmap_app, <- app_assoc.
  rewrite insert_app_r_alt by (rewrite length_fmap; lia).
  rewrite length_fmap, Nat.sub_diag, length_app. cbn.
  replace (Z.to_nat (cap - Z.of_nat (length xs)))
    with (S (Z.to_nat (cap - Z.of_nat (length xs + 1)))) by lia.
  reflexivity.
Qed.

Lemma cells_nil cap : cells (@nil T) cap = replicate (Z.to_nat cap) None.
Proof. unfold cells, len. cbn. rewrite Z.sub_0_r. reflexivity. Qed.

Lemma owns_obj (w : world) this xs cap :
  owns w this xs cap -> exists d, objs w !! this = Some d.
Proof. intros [H _ _|b H _ _ _]; eauto. Qed.

Lemma owns_bounds (w : world) this xs cap :
  owns w this xs cap -> 0 <= len xs <= cap /\ cap <= alloc_max.
Proof.
  intros [_ -> ->|b _ _ H1 H2].
  - unfold len, alloc_max, PTRDIFF_MAX. cbn. lia.
  - pose proof (len_nonneg xs). lia.
Qed.

Lemma owns_size (w : world) this xs cap :
  owns w this xs cap -> size this w = Ret (len xs) w.
Proof.
  intros H. pose proof (owns_bounds _ _ _ _ H) as [Hb Hc].
  rewrite size_cursors. destruct H as [H -> ->|b H _ _ _]; rewrite H; cbn.
  - reflexivity.
  - rewrite Nat.eqb_refl, Z.sub_0_r, wrap_small; [reflexivity|].
    apply alloc_max_size_t. lia.
Qed.

Lemma owns_capacity (w : world) this xs cap :
  owns w this xs cap -> capacity this w = Ret cap w.
Proof.
  intros H. pose proof (owns_bounds _ _ _ _ H) as [Hb Hc].
  rewrite capacity_cursors. destruct H as [H -> ->|b H _ _ _]; rewrite H; cbn.
  - reflexivity.
  - rewrite Nat.eqb_refl, Z.sub_0_r, wrap_small; [reflexivity|].
    apply alloc_max_size_t. lia.
Qed.

Lemma wpg_size U this xs cap (Q : Z -> world -> Prop) E (w : world) :
  owns w this xs cap -> Q (len xs) w -> wpg U (size this) Q E w.
Proof. intros H HQ. unfold wpg. rewrite (owns_size _ _ _ _ H). exact HQ. Qed.

Lemma wpg_capacity U this xs cap (Q : Z -> world -> Prop) E (w : world) :
  owns w this xs cap -> Q cap w -> wpg U (capacity this) Q E w.
Proof. intros H HQ. unfold wpg. rewrite (owns_capacity _ _ _ _ H). exact HQ. Qed.

End Representation.

(** * What the member functions do to a well-formed container *)

Section Operations.

Context {T : Type}.

Local Abbreviation M := (M T).
Local Abbreviation world := (world T).

(** [owns] only looks at the object and at its block. *)
Lemma owns_frame (w w' : world) this (xs : list T) cap :
  owns w this xs cap ->
  objs w' !! this = objs w !! this ->
  (forall b blk, heap w !! b = Some (Some blk) -> heap w' !! b = Some (Some blk)) ->
  owns w' this xs cap.
Proof.
  intros [H -> ->|b H Hb H1 H2] Ho Hh.
  - apply owns_null; [congruence|reflexivity|reflexivity].
  - apply (owns_block _ _ _ _ b); [congruence|auto|exact H1|exact H2].
Qed.

Lemma rebuilt_owns (w w' : world) this d (xs : list T) n :
  objs w !! this = Some d -> len xs <= n <= alloc_max ->
  rebuilt w this xs n w' -> owns w' this xs n.
Proof.
  intros Hd Hn (Ho & Hh & _).
  apply (owns_block _ _ _ _ (length (heap w))); [| |lia|lia].
  - rewrite Ho. apply list_lookup_insert_eq. eapply lookup_lt_Some, Hd.
  - rewrite Hh. apply list_lookup_middle. reflexivity.
Qed.

Lemma rebuilt_frame (w w' : world) this other (xs ys : list T) n c :
  other <> this -> owns w other ys c ->
  rebuilt w this xs n w' -> owns w' other ys c.
Proof.
  intros Hne Hown (Ho & Hh & _). eapply owns_frame; [exact Hown| |].
  - rewrite Ho. apply list_lookup_insert_ne. congruence.
  - intros b blk Hb. rewrite Hh. apply lookup_app_l_Some, Hb.
Qed.

Lemma wpg_padd U b o k (Q : ptr -> world -> Prop) E (w : world) :
  Q (Ptr b (o + k)) w -> wpg U (padd (Ptr b o) k) Q E w.
Proof. intros H. exact H. Qed.

Lemma wpg_operator_index U this d i r (Q : ptr -> world -> Prop) E (w : world) :
  objs w !! this = Some d -> ptr_add (head d) i = Some r -> Q r w ->
  wpg U (operator_index this i) Q E w.
Proof.
  intros Hd Hr HQ. unfold operator_index.
  apply wpg_bind. eapply wpg_get_head; [exact Hd|].
  eapply wpg_lift; [exact Hr|exact HQ].
Qed.

Lemma operator_index_eq (w : world) this d i r :
  objs w !! this = Some d -> ptr_add (head d) i = Some r ->
  operator_index this i w = Ret r w.
Proof.
  intros Hd Hr. unfold operator_index, get_head, this_obj, bind.
  rewrite Hd. cbn. unfold padd. rewrite Hr. reflexivity.
Qed.

Lemma wpg_load_live U (w : world) b o (xs : list T) cap k x
    (Q : T -> world -> Prop) E :
  heap w !! b = Some (Some (cells xs cap)) -> xs !! k = Some x ->
  o = Z.of_nat k -> Q x w -> wpg U (load (Ptr b o)) Q E w.
Proof.
  intros Hb Hx -> HQ. eapply wpg_load; [|exact HQ].
  rewrite (slot_at_block _ _ _ _ Hb) by lia.
  rewrite Nat2Z.id. apply cells_lookup_live, Hx.
Qed.

Lemma wpg_construct_push U (w : world) b o (ys : list T) n x
    (Q : unit -> world -> Prop) E :
  heap w !! b = Some (Some (cells ys n)) -> o = len ys -> len ys < n ->
  Q tt (mkWorld (objs w) (<[b := Some (cells (ys ++ [x]) n)]> (heap w))
          (EvConstruct (Ptr b o) x :: log w)) ->
  wpg U (construct (Ptr b o) x) Q E w.
Proof.
  intros Hb -> Hlt HQ. unfold len in *.
  apply (wpg_construct _ _ _ None).
  - rewrite (slot_at_block _ _ _ _ Hb) by lia.
    rewrite Nat2Z.id. apply cells_lookup_raw; lia.
  - rewrite (write_slot_block _ _ _ _ _ Hb), Nat2Z.id, cells_push by exact Hlt.
    exact HQ.
Qed.

Lemma wpg_destroy_pop U (w : world) b o (ys : list T) n x
    (Q : unit -> world -> Prop) E :
  heap w !! b = Some (Some (cells (ys ++ [x]) n)) -> o = len ys -> len ys < n ->
  Q tt (mkWorld (objs w) (<[b := Some (cells ys n)]> (heap w))
          (EvDestroy (Ptr b o) :: log w)) ->
  wpg U (destroy (Ptr b o)) Q E w.
Proof.
  intros Hb -> Hlt HQ. unfold len in *.
  apply (wpg_destroy _ _ x).
  - rewrite (slot_at_block _ _ _ _ Hb) by lia.
    rewrite Nat2Z.id. apply cells_lookup_live.
    rewrite lookup_app_r, Nat.sub_diag by lia. reflexivity.
  - rewrite (write_slot_block _ _ _ _ _ Hb), Nat2Z.id, cells_pop by exact Hlt.
    exact HQ.
Qed.

Lemma insert_last {A} (l : list A) (x y : A) :
  <[length l := y]> (l ++ [x]) = l ++ [y].
Proof.
  rewrite insert_app_r_alt by lia. rewrite Nat.sub_diag. reflexivity.
Qed.

Lemma Realloc_returns (w : world) this (xs : list T) cap n :
  owns w this xs cap -> len xs <= n <= alloc_max ->
  returns (Realloc this n) (fun _ w' => rebuilt w this xs n w') w.
Proof.
  intros Hown Hn. unfold returns, Realloc.
  destruct (owns_obj _ _ _ _ Hown) as [d Hd].
  apply wpg_bind, wpg_allocate; [unfold nothrow; lia|intros _].
  set (b' := length (heap w)).
  set (w1 := set_heap _ _ _).
  assert (Hown1 : owns w1 this xs cap).
  { eapply owns_frame; [exact Hown|reflexivity|].
    intros b blk Hb. apply lookup_app_l_Some, Hb. }
  apply wpg_bind. eapply wpg_size; [exact Hown1|].
  apply wpg_bind.
  apply (for_up_rule _ (fun k w' =>
    objs w' = objs w /\
    heap w' = heap w ++ [Some (cells (take k xs) n)] /\
    exists lg, log w' = lg ++ log w)).
  - split; [reflexivity|]. split.
    + rewrite take_0, cells_nil. reflexivity.
    + exists [EvAllocate n (Ptr b' 0)]. reflexivity.
  - intros k w' Hk (Ho & Hh & lg & Hlg).
    unfold len in Hk. rewrite Nat2Z.id in Hk.
    destruct (lookup_lt_is_Some_2 xs k Hk) as [x Hx].
    destruct Hown as [_ -> _|b Hobj Hb _ _]; [discriminate|].
    rewrite Z.add_0_l.
    apply wpg_bind, wpg_padd.
    apply wpg_bind. eapply wpg_get_head; [rewrite Ho; exact Hobj|cbn [head]].
    apply wpg_bind, wpg_padd.
    apply wpg_bind. eapply wpg_load_live; [| exact Hx | lia |].
    { rewrite Hh. apply lookup_app_l_Some, Hb. }
    assert (Hlen : length (take k xs) = k) by (rewrite length_take; lia).
    eapply wpg_construct_push.
    { rewrite Hh. apply list_lookup_middle. reflexivity. }
    { unfold len. lia. }
    { unfold len in *. pose proof (lookup_lt_Some _ _ _ Hx). lia. }
    cbn [objs heap log]. split; [exact Ho|]. split.
    + rewrite Hh. unfold b'. rewrite insert_last, (take_S_r _ _ _ Hx). reflexivity.
    + exists (EvConstruct (Ptr b' (0 + Z.of_nat k)) x :: lg). rewrite Hlg. reflexivity.
  - intros w2 (Ho & Hh & lg & Hlg).
    assert (Hd2 : objs w2 !! this = Some d) by (rewrite Ho; exact Hd).
    eapply wpg_bind, wpg_set_head; [exact Hd2|].
    apply wpg_bind, wpg_padd.
    eapply wpg_bind, wpg_set_tail; [eapply objs_upd_eq, Hd2|cbn [head tailCap]].
    apply wpg_bind, wpg_padd.
    eapply wpg_set_tailCap; [eapply objs_upd_eq, objs_upd_eq, Hd2|cbn [head tail]].
    unfold rebuilt, upd. cbn [objs heap log].
    rewrite !list_insert_insert_eq, !Z.add_0_l, Ho, Hh.
    unfold len. rewrite Nat2Z.id, take_ge by lia.
    split; [reflexivity|]. split; [reflexivity|]. exists lg. exact Hlg.
Qed.

(** [reserve]: the test is against [size()]. *)
Lemma reserve_above_size (w : world) this (xs : list T) cap n :
  owns w this xs cap -> len xs < n <= alloc_max ->
  returns (reserve this n) (fun _ w' => rebuilt w this xs n w') w.
Proof.
  intros Hown Hn. unfold returns, reserve.
  apply wpg_bind. eapply wpg_size; [exact Hown|].
  destruct (Z.ltb_spec (len xs) n); [|lia].
  apply Realloc_returns with (cap := cap); [exact Hown|lia].
Qed.

Lemma reserve_upto_size (w : world) this (xs : list T) cap n :
  owns w this xs cap -> n <= len xs ->
  reserve this n w = Ret tt w.
Proof.
  intros Hown Hn. unfold reserve, bind. rewrite (owns_size _ _ _ _ Hown).
  destruct (Z.ltb_spec (len xs) n); [lia|reflexivity].
Qed.

(** ** Growth *)

Lemma grown_gt (cap : Z) : 0 <= cap -> cap < grown cap.
Proof.
  intros H. unfold grown. pose proof (Z.div_pos cap 2 H ltac:(lia)). lia.
Qed.

Lemma AmortizedGrowSize_owns (w : world) this (xs : list T) cap :
  owns w this xs cap -> grown (len xs) <= alloc_max ->
  AmortizedGrowSize this w = Ret (grown (len xs)) w.
Proof.
  intros Hown Hg. unfold AmortizedGrowSize, bind.
  rewrite (owns_size _ _ _ _ Hown). unfold ret, size_add. f_equal.
  pose proof (len_nonneg xs) as Hl.
  pose proof (Z.div_pos (len xs) 2 Hl ltac:(lia)) as Hdiv.
  unfold grown in *.
  rewrite (wrap_small (len xs / 2 + len xs)) by (apply alloc_max_size_t; lia).
  rewrite wrap_small by (apply alloc_max_size_t; lia). lia.
Qed.

Lemma PushBack_returns (w : world) this (xs : list T) cap v :
  owns w this xs cap ->
  (len xs = cap -> grown cap <= alloc_max) ->
  returns (PushBack this v)
    (fun _ w' =>
       owns w' this (xs ++ [v]) (capacity_after_push xs cap) /\
       (forall other, other <> this -> objs w' !! other = objs w !! other) /\
       exists p lg, operator_index this (len xs) w' = Ret p w' /\
                    log w' = EvConstruct p v :: lg ++ log w) w.
Proof.
  intros Hown Hg. unfold returns, PushBack.
  pose proof (owns_bounds _ _ _ _ Hown) as [Hb Hc].
  apply wpg_bind. eapply wpg_size; [exact Hown|].
  apply wpg_bind. eapply wpg_capacity; [exact Hown|].
  unfold capacity_after_push.
  destruct (Z.eqb_spec (len xs) cap) as [Heq|Hne].
  - (* full: reallocate first *)
    specialize (Hg Heq). subst cap.
    apply wpg_bind. unfold AmortizedGrow. apply wpg_bind.
    unfold wpg at 1. rewrite (AmortizedGrowSize_owns _ _ _ _ Hown) by exact Hg.
    pose proof (grown_gt (len xs) ltac:(lia)) as Hgt.
    eapply wpg_mono; [apply Realloc_returns with (cap := len xs); [exact Hown|lia]
                     | |intros e w' He; exact He].
    intros [] w1 Hre. cbn beta.
    destruct (owns_obj _ _ _ _ Hown) as [d Hd].
    destruct Hre as (Ho & Hh & lg & Hlg).
    set (b := length (heap w)) in *.
    assert (Hd1 : objs w1 !! this =
                  Some (mkDynamicArray (Ptr b 0) (Ptr b (len xs)) (Ptr b (grown (len xs))))).
    { rewrite Ho. apply list_lookup_insert_eq. eapply lookup_lt_Some, Hd. }
    apply wpg_bind. eapply wpg_get_tail; [exact Hd1|cbn [tail]].
    apply wpg_bind. eapply wpg_construct_push.
    { rewrite Hh. apply list_lookup_middle. reflexivity. }
    { reflexivity. }
    { lia. }
    set (w2 := mkWorld _ _ _).
    assert (Hd2 : objs w2 !! this =
                  Some (mkDynamicArray (Ptr b 0) (Ptr b (len xs)) (Ptr b (grown (len xs)))))
      by exact Hd1.
    apply wpg_bind. eapply wpg_get_tail; [exact Hd2|cbn [tail]].
    apply wpg_bind, wpg_padd.
    eapply wpg_set_tail; [exact Hd2|cbn [head tailCap]].
    split; [|split].
    + apply (owns_block _ _ _ _ b).
      * rewrite len_app. apply (objs_upd_eq _ _ _ _ Hd2).
      * cbn [upd heap w2]. rewrite Hh. unfold b. rewrite insert_last.
        apply list_lookup_middle. reflexivity.
      * rewrite len_app. unfold len at 2. cbn. lia.
      * exact Hg.
    + intros other Hne. rewrite objs_upd_ne by congruence.
      cbn [w2 objs]. rewrite Ho. apply list_lookup_insert_ne. congruence.
    + exists (Ptr b (len xs)), lg. split.
      * eapply operator_index_eq; [apply (objs_upd_eq _ _ _ _ Hd2)|].
        cbn. rewrite Z.add_0_l. reflexivity.
      * cbn [upd log w2]. rewrite Hlg. reflexivity.
  - (* room left *)
    apply wpg_bind, wpg_ret.
    destruct Hown as [_ -> ->|b Hobj Hblk _ _]; [exfalso; apply Hne; reflexivity|].
    apply wpg_bind. eapply wpg_get_tail; [exact Hobj|cbn [tail]].
    apply wpg_bind. eapply wpg_construct_push; [exact Hblk|reflexivity|lia|].
    set (w2 := mkWorld _ _ _).
    assert (Hd2 : objs w2 !! this = Some (mkDynamicArray (Ptr b 0) (Ptr b (len xs)) (Ptr b cap)))
      by exact Hobj.
    apply wpg_bind. eapply wpg_get_tail; [exact Hd2|cbn [tail]].
    apply wpg_bind, wpg_padd.
    eapply wpg_set_tail; [exact Hd2|cbn [head tailCap]].
    split; [|split].
    + apply (owns_block _ _ _ _ b).
      * rewrite len_app. apply (objs_upd_eq _ _ _ _ Hd2).
      * cbn [upd heap w2]. apply list_lookup_insert_eq.
        eapply lookup_lt_Some, Hblk.
      * rewrite len_app. unfold len at 2. cbn. lia.
      * exact Hc.
    + intros other Hne'. rewrite objs_upd_ne by congruence. reflexivity.
    + exists (Ptr b (len xs)), []. split.
      * eapply operator_index_eq; [apply (objs_upd_eq _ _ _ _ Hd2)|].
        cbn. rewrite Z.add_0_l. reflexivity.
      * reflexivity.
Qed.

End Operations.

Section Access.

Context {T : Type}.

Local Abbreviation M := (M T).
Local Abbreviation world := (world T).

Lemma len_snoc (xs : list T) x : len (xs ++ [x]) = len xs + 1.
Proof. rewrite len_app. reflexivity. Qed.

Lemma pop_back_returns (w : world) this (xs : list T) x cap :
  owns w this (xs ++ [x]) cap ->
  returns (pop_back this) (fun _ w' => owns w' this xs cap) w.
Proof.
  intros Hown. unfold returns, pop_back.
  pose proof (owns_bounds _ _ _ _ Hown) as [Hb Hc].
  rewrite len_snoc in Hb.
  destruct Hown as [_ Hnil _|b Hobj Hblk _ _]; [destruct xs; discriminate|].
  rewrite len_snoc in Hobj.
  apply wpg_bind. eapply wpg_get_tail; [exact Hobj|cbn [tail]].
  apply wpg_bind, wpg_padd.
  apply wpg_bind. eapply wpg_destroy_pop; [exact Hblk|lia|lia|].
  set (w2 := mkWorld _ _ _).
  assert (Hd2 : objs w2 !! this = Some (mkDynamicArray (Ptr b 0) (Ptr b (len xs + 1)) (Ptr b cap)))
    by exact Hobj.
  apply wpg_bind. eapply wpg_get_tail; [exact Hd2|cbn [tail]].
  apply wpg_bind, wpg_padd.
  eapply wpg_set_tail; [exact Hd2|cbn [head tailCap]].
  apply (owns_block _ _ _ _ b).
  - replace (len xs + 1 + -1) with (len xs) by lia.
    apply (objs_upd_eq _ _ _ _ Hd2).
  - cbn [upd heap w2]. apply list_lookup_insert_eq. eapply lookup_lt_Some, Hblk.
  - lia.
  - exact Hc.
Qed.

(** [RangeGuard] lets through every index up to and including [size()]. *)
Lemma RangeGuard_owns (w : world) this (xs : list T) cap index :
  owns w this xs cap ->
  RangeGuard this index w =
  if Z.ltb (len xs) index then Throw out_of_range w else Ret tt w.
Proof.
  intros Hown. unfold RangeGuard, bind. rewrite (owns_size _ _ _ _ Hown).
  destruct (Z.ltb (len xs) index); reflexivity.
Qed.

Lemma at_owns (w : world) this (xs : list T) cap index :
  owns w this xs cap ->
  at_ this index w =
  if Z.ltb (len xs) index then Throw out_of_range w
  else operator_index this index w.
Proof.
  intros Hown. unfold at_, bind. rewrite (RangeGuard_owns _ _ _ _ _ Hown).
  destruct (Z.ltb (len xs) index); reflexivity.
Qed.

Lemma read_index_owns (w : world) this (xs : list T) cap k x :
  owns w this xs cap -> xs !! k = Some x ->
  read_index this (Z.of_nat k) w = Ret x w.
Proof.
  intros Hown Hx. unfold read_index.
  destruct Hown as [_ -> _|b Hobj Hblk _ _]; [discriminate|].
  unfold bind. erewrite operator_index_eq; [|exact Hobj|reflexivity].
  cbn [head]. unfold load.
  rewrite (slot_at_block _ _ _ _ Hblk) by lia.
  replace (Z.to_nat (0 + Z.of_nat k)) with k by lia.
  rewrite (cells_lookup_live _ _ _ _ Hx). reflexivity.
Qed.

Lemma ptr_eqb_refl p : ptr_eqb p p = true.
Proof.
  destruct p as [|b o]; [reflexivity|]. cbn.
  rewrite Nat.eqb_refl, Z.eqb_refl. reflexivity.
Qed.

Lemma walk_cells (w : world) b (xs : list T) cap (zs ys : list T) :
  heap w !! b = Some (Some (cells xs cap)) -> xs = ys ++ zs ->
  walk (length zs) (Ptr b (len ys)) (Ptr b (len xs)) w = Ret zs w.
Proof.
  intros Hblk. revert ys. induction zs as [|z zs IH]; intros ys Hxs.
  - rewrite Hxs, app_nil_r. cbn [length walk]. rewrite ptr_eqb_refl. reflexivity.
  - cbn [length walk].
    assert (Hlt : len ys < len xs).
    { rewrite Hxs, len_app. unfold len. cbn [length]. lia. }
    replace (ptr_eqb (Ptr b (len ys)) (Ptr b (len xs))) with false.
    2:{ cbn. rewrite Nat.eqb_refl. symmetry. apply Z.eqb_neq. lia. }
    unfold bind at 1. unfold load.
    rewrite (slot_at_block _ _ _ _ Hblk) by apply len_nonneg.
    unfold len at 1. rewrite Nat2Z.id.
    rewrite (cells_lookup_live _ _ _ z).
    2:{ rewrite Hxs. apply list_lookup_middle. reflexivity. }
    unfold bind at 1. cbn [padd ptr_add lift ret].
    rewrite <- (len_snoc ys z).
    unfold bind. rewrite (IH (ys ++ [z])); [reflexivity|].
    rewrite <- app_assoc. exact Hxs.
Qed.

Lemma returns_eq {A} (m : M A) (w w0 : world) (a0 : A) :
  returns m (fun a w' => a = a0 /\ w' = w0) w -> m w = Ret a0 w0.
Proof.
  intros H. destruct (returns_inv _ _ _ H) as (a & w' & Hm & -> & ->). exact Hm.
Qed.

Lemma iterate_owns (w : world) this (xs : list T) cap :
  owns w this xs cap -> iterate this w = Ret xs w.
Proof.
  intros Hown. apply returns_eq. unfold returns, iterate, begin_, end_.
  destruct Hown as [Hobj -> _|b Hobj Hblk _ _].
  - apply wpg_bind. eapply wpg_get_head; [exact Hobj|].
    apply wpg_bind. eapply wpg_get_tail; [exact Hobj|].
    apply wpg_bind. eapply wpg_lift; [reflexivity|]. split; reflexivity.
  - apply wpg_bind. eapply wpg_get_head; [exact Hobj|].
    apply wpg_bind. eapply wpg_get_tail; [exact Hobj|]. cbn [head tail].
    apply wpg_bind. eapply wpg_lift.
    { cbn. rewrite Nat.eqb_refl. reflexivity. }
    rewrite Z.sub_0_r. unfold len at 1. rewrite Nat2Z.id.
    pose proof (walk_cells w b xs cap xs [] Hblk eq_refl) as Hwalk.
    change (len []) with 0 in Hwalk.
    unfold wpg. rewrite Hwalk. split; reflexivity.
Qed.

End Access.

Section Lifecycle.

Context {T : Type}.

Local Abbreviation M := (M T).
Local Abbreviation world := (world T).

(** ** Construction *)

Lemma DynamicArray_ctor_owns (w : world) :
  returns DynamicArray_ctor
    (fun this w' => this = length (objs w) /\ owns w' this [] 0 /\
                    heap w' = heap w /\ log w' = log w /\
                    objs w' = objs w ++ [null_array]) w.
Proof.
  unfold returns, DynamicArray_ctor. apply wpg_new_obj.
  split; [reflexivity|]. split; [|auto].
  apply owns_null; [|reflexivity|reflexivity].
  cbn [objs]. apply list_lookup_middle. reflexivity.
Qed.

Lemma Init_fill_returns (w : world) n (v : T) :
  0 <= n <= alloc_max ->
  returns (Init_fill n v)
    (fun h w' => built w (cells (replicate (Z.to_nat n) v) n) h w') w.
Proof.
  intros Hn. unfold returns, Init_fill.
  apply wpg_bind, wpg_allocate; [unfold nothrow; lia|intros _].
  set (b' := length (heap w)).
  apply wpg_bind.
  apply (for_up_rule _ (fun k w' =>
    objs w' = objs w /\
    heap w' = heap w ++ [Some (cells (replicate k v) n)] /\
    exists lg, log w' = lg ++ log w)).
  - split; [reflexivity|]. split.
    + cbn [replicate]. rewrite cells_nil. reflexivity.
    + exists [EvAllocate n (Ptr b' 0)]. reflexivity.
  - intros k w' Hk (Ho & Hh & lg & Hlg).
    apply wpg_bind, wpg_padd.
    eapply wpg_construct_push.
    { rewrite Hh. apply list_lookup_middle. reflexivity. }
    { unfold len. rewrite length_replicate. lia. }
    { unfold len. rewrite length_replicate. lia. }
    cbn [objs heap log]. split; [exact Ho|]. split.
    + rewrite Hh. unfold b'. rewrite insert_last.
      replace (replicate k v ++ [v]) with (replicate (S k) v); [reflexivity|].
      rewrite <- replicate_S_end. reflexivity.
    + eexists (_ :: lg). rewrite Hlg. reflexivity.
  - intros w2 (Ho & Hh & lg & Hlg). apply wpg_ret.
    split; [reflexivity|]. split; [exact Ho|]. split; [exact Hh|].
    exists lg. exact Hlg.
Qed.

Lemma DynamicArray_ctor_fill_owns (w : world) n (v : T) :
  0 <= n <= alloc_max ->
  returns (DynamicArray_ctor_fill n v)
    (fun this w' => this = length (objs w) /\
                    owns w' this (replicate (Z.to_nat n) v) n) w.
Proof.
  intros Hn. unfold returns, DynamicArray_ctor_fill.
  apply wpg_bind.
  eapply wpg_mono; [apply Init_fill_returns, Hn| |intros e w' He; exact He].
  intros h w1 Hb. cbn beta.
  pose proof Hb as (-> & Ho & Hh & _).
  apply wpg_bind, wpg_padd. apply wpg_new_obj.
  rewrite Ho. split; [reflexivity|].
  rewrite <- Ho.
  assert (Hlen : len (replicate (Z.to_nat n) v) = n).
  { unfold len. rewrite length_replicate. lia. }
  apply (owns_block _ _ _ _ (length (heap w))); [| |lia|lia].
  - cbn [objs]. rewrite Hlen, Z.add_0_l. apply list_lookup_middle. reflexivity.
  - cbn [heap]. rewrite Hh. apply list_lookup_middle. reflexivity.
Qed.

(** ** Copying *)

Lemma Init_copy_returns (w : world) other (xs : list T) cap :
  owns w other xs cap ->
  returns (Init_copy other)
    (fun h w' => built w (cells xs (len xs)) h w') w.
Proof.
  intros Hown. unfold returns, Init_copy.
  pose proof (owns_bounds _ _ _ _ Hown) as [Hb Hc].
  apply wpg_bind. eapply wpg_size; [exact Hown|].
  apply wpg_bind, wpg_allocate; [unfold nothrow; lia|intros _].
  set (b' := length (heap w)).
  apply wpg_bind.
  apply (for_up_rule _ (fun k w' =>
    objs w' = objs w /\
    heap w' = heap w ++ [Some (cells (take k xs) (len xs))] /\
    exists lg, log w' = lg ++ log w)).
  - split; [reflexivity|]. split.
    + rewrite take_0, cells_nil. reflexivity.
    + exists [EvAllocate (len xs) (Ptr b' 0)]. reflexivity.
  - intros k w' Hk (Ho & Hh & lg & Hlg).
    unfold len in Hk. rewrite Nat2Z.id in Hk.
    destruct (lookup_lt_is_Some_2 xs k Hk) as [x Hx].
    destruct Hown as [_ -> _|b Hobj Hblk _ _]; [discriminate|].
    rewrite Z.add_0_l.
    apply wpg_bind, wpg_padd.
    apply wpg_bind. eapply wpg_operator_index; [rewrite Ho; exact Hobj|reflexivity|cbn [head]].
    apply wpg_bind. eapply wpg_load_live; [| exact Hx | lia |].
    { rewrite Hh. apply lookup_app_l_Some, Hblk. }
    assert (Hlen : length (take k xs) = k) by (rewrite length_take; lia).
    eapply wpg_construct_push.
    { rewrite Hh. apply list_lookup_middle. reflexivity. }
    { unfold len. lia. }
    { unfold len in *. lia. }
    cbn [objs heap log]. split; [exact Ho|]. split.
    + rewrite Hh. unfold b'. rewrite insert_last, (take_S_r _ _ _ Hx). reflexivity.
    + eexists (_ :: lg). rewrite Hlg. reflexivity.
  - intros w2 (Ho & Hh & lg & Hlg). apply wpg_ret.
    unfold len in Hh. rewrite Nat2Z.id, take_ge in Hh by lia.
    split; [reflexivity|]. split; [exact Ho|]. split; [exact Hh|].
    exists lg. exact Hlg.
Qed.

Lemma built_frame (w w' : world) blk h this (xs : list T) cap :
  built w blk h w' -> owns w this xs cap -> owns w' this xs cap.
Proof.
  intros (_ & Ho & Hh & _) Hown. eapply owns_frame; [exact Hown| |].
  - rewrite Ho. reflexivity.
  - intros b blk' Hb. rewrite Hh. apply lookup_app_l_Some, Hb.
Qed.

(** The copy constructor: the new object's block has [size()] slots, its
    [tailCap] is set from [other.capacity()]. *)
Lemma DynamicArray_ctor_copy_returns (w : world) other (xs : list T) cap :
  owns w other xs cap ->
  returns (DynamicArray_ctor_copy other)
    (fun this w' =>
       let b := length (heap w) in
       this = length (objs w) /\
       objs w' = objs w ++ [mkDynamicArray (Ptr b 0) (Ptr b (len xs)) (Ptr b cap)] /\
       heap w' = heap w ++ [Some (cells xs (len xs))] /\
       owns w' other xs cap) w.
Proof.
  intros Hown. unfold returns, DynamicArray_ctor_copy.
  apply wpg_bind.
  eapply wpg_mono; [apply (Init_copy_returns _ _ _ _ Hown)| |intros e w' He; exact He].
  intros h w1 Hb. cbn beta.
  pose proof (built_frame _ _ _ _ _ _ _ Hb Hown) as Hown1.
  pose proof Hb as (-> & Ho & Hh & _).
  apply wpg_bind. eapply wpg_size; [exact Hown1|].
  apply wpg_bind, wpg_padd.
  apply wpg_bind. eapply wpg_capacity; [exact Hown1|].
  apply wpg_bind, wpg_padd.
  apply wpg_new_obj. cbn zeta. rewrite !Z.add_0_l.
  split; [rewrite Ho; reflexivity|]. cbn [objs heap].
  split; [rewrite Ho; reflexivity|]. split; [exact Hh|].
  eapply owns_frame; [exact Hown1| |auto].
  cbn [objs]. destruct (owns_obj _ _ _ _ Hown1) as [d Hd].
  rewrite Hd. apply lookup_app_l_Some, Hd.
Qed.

End Lifecycle.

Section Assignment.

Context {T : Type}.

Local Abbreviation M := (M T).
Local Abbreviation world := (world T).

(** Copy assignment between two different objects.  The destination only
    has to exist: its previous cursors are overwritten. *)
Lemma operator_assign_copy_distinct (w : world) this other d (xs : list T) cap :
  this <> other ->
  objs w !! this = Some d ->
  owns w other xs cap ->
  returns (operator_assign_copy this other)
    (fun _ w' =>
       let b := length (heap w) in
       objs w' = <[this := mkDynamicArray (Ptr b 0) (Ptr b (len xs)) (Ptr b (len xs))]> (objs w) /\
       heap w' = heap w ++ [Some (cells xs (len xs))] /\
       owns w' this xs (len xs) /\
       owns w' other xs cap) w.
Proof.
  intros Hne Hd Hown. unfold returns, operator_assign_copy.
  pose proof (owns_bounds _ _ _ _ Hown) as [Hb Hc].
  apply wpg_bind.
  eapply wpg_mono; [apply (Init_copy_returns _ _ _ _ Hown)| |intros e w' He; exact He].
  intros h w1 Hbuilt. cbn beta.
  pose proof (built_frame _ _ _ _ _ _ _ Hbuilt Hown) as Hown1.
  destruct Hbuilt as (-> & Ho & Hh & _).
  set (b := length (heap w)).
  assert (Hd1 : objs w1 !! this = Some d) by (rewrite Ho; exact Hd).
  eapply wpg_bind, wpg_set_head; [exact Hd1|].
  set (w2 := upd w1 this _).
  assert (Hd2 : objs w2 !! this = Some (mkDynamicArray (Ptr b 0) (tail d) (tailCap d)))
    by apply (objs_upd_eq _ _ _ _ Hd1).
  assert (Hown2 : owns w2 other xs cap).
  { eapply owns_frame; [exact Hown1| |auto].
    apply objs_upd_ne. exact Hne. }
  apply wpg_bind. eapply wpg_get_head; [exact Hd2|cbn [head]].
  apply wpg_bind. eapply wpg_size; [exact Hown2|].
  apply wpg_bind, wpg_padd.
  eapply wpg_bind, wpg_set_tail; [exact Hd2|cbn [head tailCap]].
  set (w3 := upd w2 this _).
  assert (Hd3 : objs w3 !! this = Some (mkDynamicArray (Ptr b 0) (Ptr b (0 + len xs)) (tailCap d)))
    by apply (objs_upd_eq _ _ _ _ Hd2).
  apply wpg_bind. eapply wpg_get_tail; [exact Hd3|cbn [tail]].
  eapply wpg_set_tailCap; [exact Hd3|cbn [head tail]].
  cbn zeta. rewrite Z.add_0_l.
  assert (Hobjs : objs (upd w3 this (mkDynamicArray (Ptr b 0) (Ptr b (len xs)) (Ptr b (len xs)))) =
                  <[this := mkDynamicArray (Ptr b 0) (Ptr b (len xs)) (Ptr b (len xs))]> (objs w)).
  { unfold upd, w3, w2, upd. cbn [objs]. rewrite !list_insert_insert_eq, Ho. reflexivity. }
  split; [exact Hobjs|]. split; [exact Hh|]. split.
  - apply (owns_block _ _ _ _ b); [| |lia|lia].
    + rewrite Hobjs. apply list_lookup_insert_eq. eapply lookup_lt_Some, Hd.
    + cbn [upd heap w3 w2]. rewrite Hh. apply list_lookup_middle. reflexivity.
  - eapply owns_frame; [exact Hown2| |auto].
    rewrite Hobjs. cbn [w2 upd objs]. rewrite Ho.
    rewrite !list_lookup_insert_ne by exact Hne. reflexivity.
Qed.

Lemma undefined_intro {A} (m : M A) (w : world) :
  wpg True m (fun _ _ => False) (fun _ _ => False) w -> m w = Undefined.
Proof.
  unfold wpg. destruct (m w) as [a w'|e w'|]; intros H;
    [destruct H|destruct H|reflexivity].
Qed.

(** Self-assignment: once [head] has been overwritten, [other.size()]
    subtracts the new [head] from the old [tail]. *)
Lemma operator_assign_copy_self (w : world) this (xs : list T) cap :
  owns w this xs cap ->
  operator_assign_copy this this w = Undefined.
Proof.
  intros Hown. apply undefined_intro. unfold operator_assign_copy.
  apply wpg_bind.
  eapply wpg_mono; [apply wpg_weaken, (Init_copy_returns _ _ _ _ Hown)
                   | |intros e w' He; exact He].
  intros h w1 Hbuilt. cbn beta.
  destruct Hbuilt as (-> & Ho & Hh & _).
  destruct (owns_obj _ _ _ _ Hown) as [d Hd].
  assert (Hd1 : objs w1 !! this = Some d) by (rewrite Ho; exact Hd).
  eapply wpg_bind, wpg_set_head; [exact Hd1|].
  set (w2 := upd w1 this _).
  assert (Hd2 : objs w2 !! this = Some (mkDynamicArray (Ptr (length (heap w)) 0) (tail d) (tailCap d)))
    by apply (objs_upd_eq _ _ _ _ Hd1).
  apply wpg_bind. eapply wpg_get_head; [exact Hd2|cbn [head]].
  apply wpg_bind. unfold wpg at 1. rewrite size_cursors, Hd2. cbn [head tail].
  destruct Hown as [Hobj _ _|b Hobj Hblk _ _].
  - replace d with (@null_array) by congruence. exact I.
  - replace d with (mkDynamicArray (Ptr b 0) (Ptr b (len xs)) (Ptr b cap)) by congruence.
    cbn [tail ptr_diff].
    pose proof (lookup_lt_Some _ _ _ Hblk) as Hlt.
    destruct (Nat.eqb_spec b (length (heap w))); [lia|exact I].
Qed.

(** ** Moving *)

Lemma DynamicArray_ctor_move_eq (w : world) other d :
  objs w !! other = Some d ->
  DynamicArray_ctor_move other w =
  Ret (length (objs w))
      (mkWorld (<[other := null_array]> (objs w ++ [d])) (heap w) (log w)).
Proof.
  intros Hd. apply returns_eq. unfold returns, DynamicArray_ctor_move.
  apply wpg_bind. eapply wpg_get_head; [exact Hd|].
  apply wpg_bind. eapply wpg_get_tail; [exact Hd|].
  apply wpg_bind. eapply wpg_get_tailCap; [exact Hd|].
  apply wpg_bind, wpg_new_obj.
  set (w1 := mkWorld (objs w ++ _) _ _).
  assert (Hd1 : objs w1 !! other = Some d) by apply lookup_app_l_Some, Hd.
  eapply wpg_bind, wpg_set_head; [exact Hd1|].
  eapply wpg_bind, wpg_set_tail; [apply (objs_upd_eq _ _ _ _ Hd1)|cbn [head tailCap]].
  eapply wpg_bind, wpg_set_tailCap; [eapply objs_upd_eq, objs_upd_eq, Hd1|cbn [head tail]].
  apply wpg_ret. split; [reflexivity|].
  unfold upd, w1. cbn [objs heap log]. rewrite !list_insert_insert_eq.
  destruct d; reflexivity.
Qed.

Lemma operator_assign_move_eq (w : world) this other d0 d :
  objs w !! this = Some d0 ->
  objs w !! other = Some d ->
  operator_assign_move this other w =
  Ret tt (mkWorld (<[other := null_array]> (<[this := d]> (objs w))) (heap w) (log w)).
Proof.
  intros Hd0 Hd. apply returns_eq. unfold returns, operator_assign_move.
  assert (Hlt : (this < length (objs w))%nat) by (eapply lookup_lt_Some, Hd0).
  assert (Hlto : (other < length (objs w))%nat) by (eapply lookup_lt_Some, Hd).
  apply wpg_bind. eapply wpg_get_head; [exact Hd|].
  eapply wpg_bind, wpg_set_head; [exact Hd0|].
  set (w1 := upd w this _).
  assert (Hd1 : objs w1 !! this = Some (mkDynamicArray (head d) (tail d0) (tailCap d0)))
    by apply (objs_upd_eq _ _ _ _ Hd0).
  assert (Ho1 : exists d1, objs w1 !! other = Some d1 /\ tail d1 = tail d /\ tailCap d1 = tailCap d).
  { destruct (decide (this = other)) as [<-|Hne].
    - eexists. split; [exact Hd1|]. cbn. split; congruence.
    - exists d. split; [|auto]. unfold w1. rewrite objs_upd_ne by exact Hne. exact Hd. }
  destruct Ho1 as (d1 & Hd1o & Ht1 & _).
  apply wpg_bind. eapply wpg_get_tail; [exact Hd1o|rewrite Ht1].
  eapply wpg_bind, wpg_set_tail; [exact Hd1|cbn [head tailCap]].
  set (w2 := upd w1 this _).
  assert (Hd2 : objs w2 !! this = Some (mkDynamicArray (head d) (tail d) (tailCap d0)))
    by apply (objs_upd_eq _ _ _ _ Hd1).
  assert (Ho2 : exists d2, objs w2 !! other = Some d2 /\ tailCap d2 = tailCap d).
  { destruct (decide (this = other)) as [<-|Hne].
    - eexists. split; [exact Hd2|]. cbn. congruence.
    - exists d. split; [|auto]. unfold w2, w1. rewrite !objs_upd_ne by exact Hne. exact Hd. }
  destruct Ho2 as (d2 & Hd2o & Htc2).
  apply wpg_bind. eapply wpg_get_tailCap; [exact Hd2o|rewrite Htc2].
  eapply wpg_bind, wpg_set_tailCap; [exact Hd2|cbn [head tail]].
  set (w3 := upd w2 this _).
  assert (Ho3 : exists d3, objs w3 !! other = Some d3).
  { apply lookup_lt_is_Some_2. unfold w3, w2, w1, upd. cbn [objs].
    rewrite !length_insert. exact Hlto. }
  destruct Ho3 as (d3 & Hd3).
  eapply wpg_bind, wpg_set_head; [exact Hd3|].
  eapply wpg_bind, wpg_set_tail; [apply (objs_upd_eq _ _ _ _ Hd3)|cbn [head tailCap]].
  eapply wpg_set_tailCap; [eapply objs_upd_eq, objs_upd_eq, Hd3|cbn [head tail]].
  split; [reflexivity|].
  unfold upd, w3, w2, w1, upd. cbn [objs heap log].
  rewrite !list_insert_insert_eq. destruct d; reflexivity.
Qed.

End Assignment.

Section Shrinking.

Context {T : Type}.

Local Abbreviation M := (M T).
Local Abbreviation world := (world T).

(** The loop shared by [Clear] and the shrinking branch of [resize]:
    destroy the last [m] elements, last first. *)
Lemma destroy_loop U (w : world) this b (xs : list T) cap t tc m
    (Q : unit -> world -> Prop) E :
  objs w !! this = Some (mkDynamicArray (Ptr b 0) t tc) ->
  heap w !! b = Some (Some (cells xs cap)) ->
  len xs <= cap -> (m <= length xs)%nat ->
  (forall w', objs w' = objs w ->
              heap w' = <[b := Some (cells (take (length xs - m) xs) cap)]> (heap w) ->
              (exists lg, log w' = lg ++ log w) -> Q tt w') ->
  wpg U (for_down (len xs) m (fun i =>
           h <- get_head this ;; p <- padd h i ;; destroy p)) Q E w.
Proof.
  intros Hobj Hblk Hcap Hm HQ.
  apply (for_down_rule _ (fun k w' =>
    objs w' = objs w /\
    heap w' = <[b := Some (cells (take (length xs - k) xs) cap)]> (heap w) /\
    exists lg, log w' = lg ++ log w)).
  - split; [reflexivity|]. split; [|exists []; reflexivity].
    rewrite Nat.sub_0_r, take_ge by lia. symmetry. apply list_insert_id, Hblk.
  - intros k w' Hk (Ho & Hh & lg & Hlg).
    assert (Hlt : (length xs - S k < length xs)%nat) by lia.
    destruct (lookup_lt_is_Some_2 xs _ Hlt) as [x Hx].
    apply wpg_bind. eapply wpg_get_head; [rewrite Ho; exact Hobj|cbn [head]].
    apply wpg_bind, wpg_padd.
    assert (Hlen : length (take (length xs - S k) xs) = (length xs - S k)%nat)
      by (rewrite length_take; lia).
    eapply (wpg_destroy_pop _ _ _ _ (take (length xs - S k) xs) cap x).
    { rewrite Hh, <- (take_S_r _ _ _ Hx).
      replace (S (length xs - S k)) with (length xs - k)%nat by lia.
      apply list_lookup_insert_eq. eapply lookup_lt_Some, Hblk. }
    { unfold len. lia. }
    { unfold len in *. lia. }
    cbn [objs heap log]. split; [exact Ho|]. split.
    + rewrite Hh, list_insert_insert_eq. reflexivity.
    + eexists (_ :: lg). rewrite Hlg. reflexivity.
  - intros w' (Ho & Hh & Hlg). apply HQ; assumption.
Qed.

Lemma Clear_returns (w : world) this (xs : list T) cap :
  owns w this xs cap ->
  returns (Clear this)
    (fun _ w' => objs w' = objs w /\
                 forall b d, objs w !! this = Some d -> head d = Ptr b 0 ->
                             heap w' !! b = Some None) w.
Proof.
  intros Hown. unfold returns, Clear.
  pose proof (owns_bounds _ _ _ _ Hown) as [Hb Hc].
  apply wpg_bind. eapply wpg_size; [exact Hown|].
  unfold len at 2. rewrite Nat2Z.id.
  destruct Hown as [Hobj -> ->|b Hobj Hblk _ _].
  - cbn [length for_down]. apply wpg_bind, wpg_ret.
    apply wpg_bind. eapply wpg_get_head; [exact Hobj|cbn [head null_array]].
    apply wpg_bind. eapply wpg_capacity; [apply owns_null; eauto|].
    apply wpg_deallocate_null. split; [reflexivity|].
    intros b d Hd Hh. rewrite Hobj in Hd. injection Hd as <-. discriminate.
  - apply wpg_bind.
    eapply destroy_loop; [exact Hobj|exact Hblk|lia|lia|].
    intros w1 Ho Hh _. rewrite Nat.sub_diag, take_0 in Hh.
    assert (Hobj1 : objs w1 !! this = Some (mkDynamicArray (Ptr b 0) (Ptr b (len xs)) (Ptr b cap)))
      by (rewrite Ho; exact Hobj).
    assert (Hblk1 : heap w1 !! b = Some (Some (cells [] cap))).
    { rewrite Hh. apply list_lookup_insert_eq. eapply lookup_lt_Some, Hblk. }
    apply wpg_bind. eapply wpg_get_head; [exact Hobj1|cbn [head]].
    apply wpg_bind. unfold wpg at 1. rewrite capacity_cursors, Hobj1.
    cbn [tailCap head ptr_diff]. rewrite Nat.eqb_refl, Z.sub_0_r.
    rewrite wrap_small by (apply alloc_max_size_t; lia).
    eapply wpg_deallocate; [exact Hblk1| |].
    { rewrite length_cells by (unfold len; cbn; lia). lia. }
    cbn [set_heap objs heap]. split; [exact Ho|].
    intros b0 d Hd Hhd. rewrite Hobj in Hd. injection Hd as <-.
    cbn [head] in Hhd. injection Hhd as <-.
    apply list_lookup_insert_eq. eapply lookup_lt_Some, Hblk1.
Qed.

Lemma clear_returns (w : world) this (xs : list T) cap :
  owns w this xs cap ->
  returns (clear this) (fun _ w' => owns w' this [] 0) w.
Proof.
  intros Hown. unfold returns, clear.
  destruct (owns_obj _ _ _ _ Hown) as [d Hd].
  apply wpg_bind.
  eapply wpg_mono; [apply (Clear_returns _ _ _ _ Hown)| |intros e w' He; exact He].
  intros [] w1 [Ho _]. cbn beta.
  assert (Hd1 : objs w1 !! this = Some d) by (rewrite Ho; exact Hd).
  eapply wpg_bind, wpg_set_head; [exact Hd1|].
  eapply wpg_bind, wpg_set_tail; [apply (objs_upd_eq _ _ _ _ Hd1)|cbn [head tailCap]].
  eapply wpg_set_tailCap; [eapply objs_upd_eq, objs_upd_eq, Hd1|cbn [head tail]].
  apply owns_null; [|reflexivity|reflexivity].
  eapply objs_upd_eq, objs_upd_eq, objs_upd_eq, Hd1.
Qed.

Lemma release_owns (w : world) this d :
  objs w !! this = Some d ->
  release this w = Ret (head d) (mkWorld (<[this := null_array]> (objs w)) (heap w) (log w)).
Proof.
  intros Hd. apply returns_eq. unfold returns, release.
  apply wpg_bind. eapply wpg_get_head; [exact Hd|].
  eapply wpg_bind, wpg_set_head; [exact Hd|].
  eapply wpg_bind, wpg_set_tail; [apply (objs_upd_eq _ _ _ _ Hd)|cbn [head tailCap]].
  eapply wpg_bind, wpg_set_tailCap; [eapply objs_upd_eq, objs_upd_eq, Hd|cbn [head tail]].
  apply wpg_ret. split; [reflexivity|].
  unfold upd. cbn [objs heap log]. rewrite !list_insert_insert_eq. reflexivity.
Qed.

(** ** [resize] *)

(** Growing: [Reallocate(newSize)] comes first, whatever the capacity. *)
Lemma resize_grow_returns (w : world) low this (xs : list T) cap newSize v :
  owns w this xs cap -> len xs < newSize <= alloc_max ->
  returns (resize low this newSize v)
    (fun _ w' =>
       rebuilt w this (xs ++ replicate (Z.to_nat (newSize - len xs)) v) newSize w') w.
Proof.
  intros Hown Hn. unfold returns, resize.
  destruct (owns_obj _ _ _ _ Hown) as [d Hd].
  apply wpg_bind. eapply wpg_size; [exact Hown|].
  destruct (Z.ltb_spec (len xs) newSize); [|lia].
  apply wpg_bind. unfold Reallocate.
  eapply wpg_mono; [apply (Realloc_returns _ _ _ cap newSize Hown); lia
                   | |intros e w' He; exact He].
  intros [] w1 (Ho & Hh & lg1 & Hlg1). cbn beta.
  set (b := length (heap w)) in *.
  assert (Hd1 : objs w1 !! this = Some (mkDynamicArray (Ptr b 0) (Ptr b (len xs)) (Ptr b newSize))).
  { rewrite Ho. apply list_lookup_insert_eq. eapply lookup_lt_Some, Hd. }
  apply wpg_bind.
  apply (for_up_rule _ (fun k w' =>
    objs w' = objs w1 /\
    heap w' = heap w ++ [Some (cells (xs ++ replicate k v) newSize)] /\
    exists lg, log w' = lg ++ log w)).
  - split; [reflexivity|]. split; [|exists lg1; exact Hlg1].
    cbn [replicate]. rewrite app_nil_r. exact Hh.
  - intros k w' Hk (Ho' & Hh' & lg & Hlg).
    apply wpg_bind. eapply wpg_get_head; [rewrite Ho'; exact Hd1|cbn [head]].
    apply wpg_bind, wpg_padd.
    eapply wpg_construct_push.
    { rewrite Hh'. apply list_lookup_middle. reflexivity. }
    { rewrite len_app. unfold len. rewrite length_replicate. lia. }
    { rewrite len_app. unfold len in *. rewrite length_replicate. lia. }
    cbn [objs heap log]. split; [exact Ho'|]. split.
    + rewrite Hh'. unfold b. rewrite insert_last, <- app_assoc.
      replace (replicate k v ++ [v]) with (replicate (S k) v); [reflexivity|].
      rewrite <- replicate_S_end. reflexivity.
    + eexists (_ :: lg). rewrite Hlg. reflexivity.
  - intros w2 (Ho2 & Hh2 & lg & Hlg).
    assert (Hd2 : objs w2 !! this = Some (mkDynamicArray (Ptr b 0) (Ptr b (len xs)) (Ptr b newSize)))
      by (rewrite Ho2; exact Hd1).
    apply wpg_bind. eapply wpg_get_head; [exact Hd2|cbn [head]].
    apply wpg_bind, wpg_padd.
    eapply wpg_set_tail; [exact Hd2|cbn [head tailCap]].
    unfold rebuilt, upd. cbn [objs heap log]. fold b.
    rewrite Ho2, Ho, list_insert_insert_eq, Z.add_0_l.
    assert (Hlen : len (xs ++ replicate (Z.to_nat (newSize - len xs)) v) = newSize).
    { rewrite len_app. unfold len. rewrite length_replicate. unfold len in *. lia. }
    rewrite Hlen. split; [reflexivity|]. split; [exact Hh2|]. exists lg. exact Hlg.
Qed.

(** Shrinking, for the value [low] stands for at line 285. *)
Lemma resize_shrink_returns (w : world) low this (xs : list T) cap newSize v :
  owns w this xs cap -> 0 <= newSize < len xs ->
  returns (resize low this newSize v)
    (fun _ w' =>
       exists b, objs w !! this = Some (mkDynamicArray (Ptr b 0) (Ptr b (len xs)) (Ptr b cap)) /\
                 objs w' = <[this := mkDynamicArray (Ptr b 0) (Ptr b low) (Ptr b cap)]> (objs w) /\
                 heap w' = <[b := Some (cells (take (Z.to_nat newSize) xs) cap)]> (heap w)) w.
Proof.
  intros Hown Hn. unfold returns, resize.
  pose proof (owns_bounds _ _ _ _ Hown) as [Hb Hc].
  apply wpg_bind. eapply wpg_size; [exact Hown|].
  destruct (Z.ltb_spec (len xs) newSize); [lia|].
  destruct (Z.ltb_spec newSize (len xs)); [|lia].
  apply wpg_bind. eapply wpg_size; [exact Hown|].
  destruct Hown as [_ -> _|b Hobj Hblk _ _]; [unfold len in Hn; cbn in Hn; lia|].
  apply wpg_bind.
  eapply destroy_loop; [exact Hobj|exact Hblk|lia|unfold len; lia|].
  intros w1 Ho Hh _.
  assert (Hobj1 : objs w1 !! this = Some (mkDynamicArray (Ptr b 0) (Ptr b (len xs)) (Ptr b cap)))
    by (rewrite Ho; exact Hobj).
  apply wpg_bind. eapply wpg_get_head; [exact Hobj1|cbn [head]].
  apply wpg_bind, wpg_padd.
  eapply wpg_set_tail; [exact Hobj1|cbn [head tailCap]].
  exists b. split; [exact Hobj|]. unfold upd. cbn [objs heap].
  rewrite Z.add_0_l, Ho. split; [reflexivity|].
  rewrite Hh.
  replace (length xs - Z.to_nat (len xs - newSize))%nat with (Z.to_nat newSize)
    by (unfold len in *; lia).
  reflexivity.
Qed.

Lemma resize_shrink_owns (w : world) this (xs : list T) cap newSize v :
  owns w this xs cap -> 0 <= newSize < len xs ->
  returns (resize newSize this newSize v)
    (fun _ w' => owns w' this (take (Z.to_nat newSize) xs) cap) w.
Proof.
  intros Hown Hn.
  pose proof (owns_bounds _ _ _ _ Hown) as [Hb Hc].
  eapply wpg_mono; [apply (resize_shrink_returns _ newSize _ _ _ _ v Hown Hn)
                   | |intros e w' He; exact He].
  intros [] w' (b & Hobj & Ho & Hh). cbn beta.
  assert (Hlen : len (take (Z.to_nat newSize) xs) = newSize).
  { unfold len in *. rewrite length_take. lia. }
  assert (Hblk : exists blk, heap w !! b = Some blk).
  { destruct Hown as [Hnull _ _|b' Hobj' Hblk' _ _]; [rewrite Hobj in Hnull; discriminate|].
    rewrite Hobj in Hobj'. injection Hobj' as <-. eauto. }
  destruct Hblk as [blk Hblk].
  apply (owns_block _ _ _ _ b); [| |lia|lia].
  - rewrite Ho, Hlen. apply list_lookup_insert_eq. eapply lookup_lt_Some, Hobj.
  - rewrite Hh. apply list_lookup_insert_eq. eapply lookup_lt_Some, Hblk.
Qed.

End Shrinking.

Section Appending.

Context {T : Type}.

Local Abbreviation M := (M T).
Local Abbreviation world := (world T).

Lemma grown_le_double (n : Z) : 0 <= n -> grown n <= 2 * n + 1.
Proof.
  intros H. unfold grown.
  assert (n / 2 <= n) by (apply Z.div_le_upper_bound; lia). lia.
Qed.

Lemma push_all_returns (vs : list T) : forall (w : world) this (xs : list T) cap,
  owns w this xs cap ->
  2 * (len xs + len vs) <= alloc_max ->
  returns (push_all this vs)
    (fun _ w' => exists cap', owns w' this (xs ++ vs) cap' /\ cap <= cap') w.
Proof.
  induction vs as [|v vs IH]; intros w this xs cap Hown Hbound.
  - cbn [push_all]. apply wpg_ret. exists cap. rewrite app_nil_r.
    split; [exact Hown|lia].
  - cbn [push_all]. apply wpg_bind. unfold push_back.
    pose proof (owns_bounds _ _ _ _ Hown) as [Hb Hc].
    assert (Hlen : len (v :: vs) = len vs + 1) by (unfold len; cbn [length]; lia).
    pose proof (len_nonneg vs) as Hvs.
    eapply wpg_mono; [apply (PushBack_returns _ _ _ _ v Hown)
                     | |intros e w' He; exact He].
    + intros Heq. pose proof (grown_le_double cap ltac:(lia)). lia.
    + intros [] w1 (Hown1 & _ & _). cbn beta.
      eapply wpg_mono; [apply (IH _ _ _ _ Hown1)| |intros e w' He; exact He].
      * rewrite len_snoc. lia.
      * intros [] w2 (cap' & Hown2 & Hle). cbn beta. exists cap'.
        rewrite <- app_assoc in Hown2. split; [exact Hown2|].
        unfold capacity_after_push in Hle.
        destruct (Z.eqb_spec (len xs) cap); [|exact Hle].
        pose proof (grown_gt cap ltac:(lia)). lia.
Qed.

End Appending.

(** * The cursor invariant *)

Section Invariant.

Context {T : Type}.

Local Abbreviation M := (M T).
Local Abbreviation world := (world T).

Lemma inv_size_le_capacity (w : world) this :
  inv w this -> size_le_capacity w this.
Proof.
  intros (d & Hd & [->|(b & s & c & -> & Hs & Hc)]).
  - exists 0, 0. rewrite size_cursors, capacity_cursors, Hd.
    split; [reflexivity|]. split; [reflexivity|lia].
  - exists s, c. rewrite size_cursors, capacity_cursors, Hd.
    cbn [head tail tailCap ptr_diff].
    rewrite Nat.eqb_refl, !Z.sub_0_r, !wrap_small by (unfold is_size_t; lia).
    split; [reflexivity|]. split; [reflexivity|lia].
Qed.

Lemma owns_inv (w : world) this (xs : list T) cap :
  owns w this xs cap -> inv w this.
Proof.
  intros Hown. pose proof (owns_bounds _ _ _ _ Hown) as [Hb Hc].
  destruct Hown as [Hobj _ _|b Hobj _ _ _].
  - exists null_array. split; [exact Hobj|left; reflexivity].
  - eexists. split; [exact Hobj|]. right. exists b, (len xs), cap.
    split; [reflexivity|]. unfold alloc_max, PTRDIFF_MAX, SIZE_MAX in *. lia.
Qed.

(** ** Computations that leave part of the world alone *)

Section Preserves.

Variable R : world -> world -> Prop.
Hypothesis R_refl : forall w, R w w.
Hypothesis R_trans : forall w1 w2 w3, R w1 w2 -> R w2 w3 -> R w1 w3.

Lemma preserves_ret {A} (a : A) : preserves R (ret a).
Proof. intros w. apply wpg_ret, R_refl. Qed.

Lemma preserves_lift {A} (o : option A) : preserves R (lift o).
Proof. intros w. apply wpg_lift_partial. intros a _. apply R_refl. Qed.

Lemma preserves_bind {A B} (m : M A) (f : A -> M B) :
  preserves R m -> (forall a, preserves R (f a)) -> preserves R (bind m f).
Proof.
  intros Hm Hf w. apply wpg_bind.
  eapply wpg_mono; [apply Hm| |intros e w' He; exact He].
  intros a w1 H1. cbn beta.
  eapply wpg_mono; [apply Hf| |].
  - intros b w2 H2. exact (R_trans _ _ _ H1 H2).
  - intros e w2 H2. exact (R_trans _ _ _ H1 H2).
Qed.

Lemma preserves_for_up (body : Z -> M unit) :
  (forall i, preserves R (body i)) ->
  forall count i, preserves R (for_up i count body).
Proof.
  intros Hbody. induction count as [|n IH]; intros i; cbn [for_up].
  - apply preserves_ret.
  - apply preserves_bind; [apply Hbody|intros _; apply IH].
Qed.

Lemma preserves_for_down (body : Z -> M unit) :
  (forall i, preserves R (body i)) ->
  forall count i, preserves R (for_down i count body).
Proof.
  intros Hbody. induction count as [|n IH]; intros i; cbn [for_down].
  - apply preserves_ret.
  - apply preserves_bind; [apply Hbody|intros _; apply IH].
Qed.

Lemma preserves_this_obj this :
  preserves R (this_obj this).
Proof.
  intros w. unfold wpg, this_obj. destruct (objs w !! this); [apply R_refl|exact I].
Qed.

Lemma preserves_get_head this : preserves R (get_head this).
Proof.
  apply preserves_bind; [apply preserves_this_obj|intros d; apply preserves_ret].
Qed.

Lemma preserves_get_tail this : preserves R (get_tail this).
Proof.
  apply preserves_bind; [apply preserves_this_obj|intros d; apply preserves_ret].
Qed.

Lemma preserves_get_tailCap this : preserves R (get_tailCap this).
Proof.
  apply preserves_bind; [apply preserves_this_obj|intros d; apply preserves_ret].
Qed.

Lemma preserves_size this : preserves R (size this).
Proof.
  unfold size, pdiff.
  apply preserves_bind; [apply preserves_get_tail|intros t].
  apply preserves_bind; [apply preserves_get_head|intros h].
  apply preserves_bind; [apply preserves_lift|intros d].
  apply preserves_ret.
Qed.

Lemma preserves_capacity this : preserves R (capacity this).
Proof.
  unfold capacity, pdiff.
  apply preserves_bind; [apply preserves_get_tailCap|intros t].
  apply preserves_bind; [apply preserves_get_head|intros h].
  apply preserves_bind; [apply preserves_lift|intros d].
  apply preserves_ret.
Qed.

Lemma preserves_load p : preserves R (load p).
Proof. intros w. apply wpg_load_partial. intros x _. apply R_refl. Qed.

End Preserves.

Lemma same_objs_refl (w : world) : same_objs w w.
Proof. reflexivity. Qed.

Lemma same_objs_trans (w1 w2 w3 : world) :
  same_objs w1 w2 -> same_objs w2 w3 -> same_objs w1 w3.
Proof. unfold same_objs. congruence. Qed.

Lemma same_layout_refl (w : world) : same_layout w w.
Proof. split; reflexivity. Qed.

Lemma same_layout_trans (w1 w2 w3 : world) :
  same_layout w1 w2 -> same_layout w2 w3 -> same_layout w1 w3.
Proof. unfold same_layout. intros [? ?] [? ?]. split; congruence. Qed.

Lemma same_layout_objs (w w' : world) : same_layout w w' -> same_objs w w'.
Proof. intros [H _]. exact H. Qed.

Lemma shape_write_slot (w : world) p s s0 e :
  slot_at w p = Some s0 ->
  shape (set_heap w (write_slot w p s) e) = shape w.
Proof.
  intros H. destruct (slot_at_Some_inv _ _ _ H) as (b & o & blk & -> & Ho & Hb & Hs).
  unfold shape. cbn [set_heap heap]. rewrite (write_slot_block _ _ _ _ _ Hb).
  rewrite list_fmap_insert. apply list_insert_id.
  rewrite list_lookup_fmap, Hb. cbn. rewrite length_insert. reflexivity.
Qed.

Lemma preserves_construct p (v : T) : preserves same_layout (construct p v).
Proof.
  intros w. apply wpg_construct_partial. intros s Hs.
  split; [reflexivity|]. eapply shape_write_slot, Hs.
Qed.

Lemma preserves_destroy p : preserves same_layout (@destroy T p).
Proof.
  intros w. apply wpg_destroy_partial. intros s Hs.
  split; [reflexivity|]. eapply shape_write_slot, Hs.
Qed.

Lemma preserves_deallocate p n : preserves same_objs (@deallocate T p n).
Proof.
  intros w. unfold wpg, deallocate. destruct p as [|b o]; [reflexivity|].
  destruct (heap w !! b) as [[blk|]|]; try exact I.
  destruct (_ && _); [reflexivity|exact I].
Qed.

End Invariant.

Section Preservation.

Context {T : Type}.

Local Abbreviation M := (M T).
Local Abbreviation world := (world T).

Lemma cursors_ok_range d :
  cursors_ok d ->
  0 <= cursor_size d <= cursor_capacity d /\ cursor_capacity d <= SIZE_MAX /\
  ptr_diff (tail d) (head d) = Some (cursor_size d) /\
  ptr_diff (tailCap d) (head d) = Some (cursor_capacity d).
Proof.
  intros [->|(b & s & c & -> & Hs & Hc)]; unfold cursor_size, cursor_capacity; cbn.
  - unfold SIZE_MAX. repeat split; lia.
  - rewrite Nat.eqb_refl, !Z.sub_0_r. repeat split; lia.
Qed.

Lemma size_ok (w : world) this d :
  objs w !! this = Some d -> cursors_ok d -> size this w = Ret (cursor_size d) w.
Proof.
  intros Hd Hok. destruct (cursors_ok_range _ Hok) as (Hr & Hc & Hs & _).
  rewrite size_cursors, Hd, Hs, wrap_small; [reflexivity|].
  unfold is_size_t. lia.
Qed.

Lemma capacity_ok (w : world) this d :
  objs w !! this = Some d -> cursors_ok d -> capacity this w = Ret (cursor_capacity d) w.
Proof.
  intros Hd Hok. destruct (cursors_ok_range _ Hok) as (Hr & Hc & _ & Hs).
  rewrite capacity_cursors, Hd, Hs, wrap_small; [reflexivity|].
  unfold is_size_t. lia.
Qed.

Lemma wpg_size_ok U (w : world) this d (Q : Z -> world -> Prop) E :
  objs w !! this = Some d -> cursors_ok d -> Q (cursor_size d) w ->
  wpg U (size this) Q E w.
Proof. intros Hd Hok HQ. unfold wpg. rewrite (size_ok _ _ _ Hd Hok). exact HQ. Qed.

Lemma wpg_capacity_ok U (w : world) this d (Q : Z -> world -> Prop) E :
  objs w !! this = Some d -> cursors_ok d -> Q (cursor_capacity d) w ->
  wpg U (capacity this) Q E w.
Proof. intros Hd Hok HQ. unfold wpg. rewrite (capacity_ok _ _ _ Hd Hok). exact HQ. Qed.

Lemma all_inv_size_le_capacity (w : world) this d :
  all_inv w -> objs w !! this = Some d -> size_le_capacity w this.
Proof.
  intros Hall Hd. apply inv_size_le_capacity. exists d. split; [exact Hd|].
  eapply Hall, Hd.
Qed.

Lemma all_inv_same_objs (w w' : world) : same_objs w w' -> all_inv w -> all_inv w'.
Proof. unfold same_objs, all_inv. intros -> H. exact H. Qed.

Lemma all_inv_insert (w w' : world) this d :
  all_inv w -> cursors_ok d -> objs w' = <[this := d]> (objs w) -> all_inv w'.
Proof.
  intros Hall Hok Ho o d' Hd'. rewrite Ho in Hd'.
  destruct (decide (this = o)) as [<-|Hne].
  - pose proof (lookup_lt_Some _ _ _ Hd') as Hlt. rewrite length_insert in Hlt.
    rewrite list_lookup_insert_eq in Hd' by exact Hlt. congruence.
  - rewrite list_lookup_insert_ne in Hd' by exact Hne. eapply Hall, Hd'.
Qed.

Lemma all_inv_upd (w : world) this d :
  all_inv w -> cursors_ok d -> all_inv (upd w this d).
Proof. intros Hall Hok. eapply all_inv_insert; [exact Hall|exact Hok|reflexivity]. Qed.

Lemma all_inv_app (w w' : world) d :
  all_inv w -> cursors_ok d -> objs w' = objs w ++ [d] -> all_inv w'.
Proof.
  intros Hall Hok Ho o d' Hd'. rewrite Ho in Hd'.
  apply lookup_app_Some in Hd' as [Hd'|[_ Hd']]; [eapply Hall, Hd'|].
  apply list_lookup_singleton_Some in Hd' as [_ <-]. exact Hok.
Qed.

Lemma cursors_ok_null : cursors_ok null_array.
Proof. left. reflexivity. Qed.

Lemma cursors_ok_block b s c :
  0 <= s <= c -> c <= SIZE_MAX ->
  cursors_ok (mkDynamicArray (Ptr b 0) (Ptr b s) (Ptr b c)).
Proof. intros Hs Hc. right. exists b, s, c. auto. Qed.

Lemma wpg_of_preserves {A} (R : world -> world -> Prop) (m : M A)
    (Q : A -> world -> Prop) (E : exn -> world -> Prop) w :
  preserves R m ->
  (forall a w', R w w' -> Q a w') ->
  (forall e w', R w w' -> E e w') ->
  wpg True m Q E w.
Proof.
  intros Hm HQ HE. eapply wpg_mono; [apply Hm|exact HQ|exact HE].
Qed.

Lemma preserves_weaken {A} (R R' : world -> world -> Prop) (m : M A) :
  (forall w w', R w w' -> R' w w') -> preserves R m -> preserves R' m.
Proof.
  intros HR Hm w. eapply wpg_mono; [apply Hm| |]; intros ? w'; apply HR.
Qed.

Lemma shape_lookup (w : world) b n :
  shape w !! b = Some (Some n) <->
  exists blk, heap w !! b = Some (Some blk) /\ length blk = n.
Proof.
  unfold shape. rewrite list_lookup_fmap.
  destruct (heap w !! b) as [[blk|]|]; cbn; split.
  - intros [= <-]. eauto.
  - intros (blk' & [= <-] & <-). reflexivity.
  - discriminate.
  - intros (? & [=] & _).
  - discriminate.
  - intros (? & [=] & _).
Qed.

(** The element-copy loops only read cursors and write slots. *)
Lemma copy_loop_layout (this : nat) (newHead : ptr) (count : nat) :
  preserves same_layout
    (for_up 0 count (fun i =>
       p <- padd newHead i ;;
       h <- get_head this ;;
       r <- padd h i ;;
       v <- load r ;;
       construct (T := T) p v)).
Proof.
  apply preserves_for_up; try apply same_layout_refl; try apply same_layout_trans.
  intros i.
  apply preserves_bind; [apply same_layout_trans|apply preserves_lift, same_layout_refl|intros p].
  apply preserves_bind; [apply same_layout_trans
                        |apply preserves_get_head; [apply same_layout_refl|apply same_layout_trans]
                        |intros h].
  apply preserves_bind; [apply same_layout_trans|apply preserves_lift, same_layout_refl|intros r].
  apply preserves_bind; [apply same_layout_trans|apply preserves_load, same_layout_refl|intros v].
  apply preserves_construct.
Qed.

(** [Realloc] from any state satisfying the cursor invariant. *)
Lemma Realloc_partial (w : world) this d n :
  objs w !! this = Some d -> cursors_ok d ->
  wpg True (Realloc this n)
    (fun _ w' =>
       let b := length (heap w) in
       n <= alloc_max /\
       objs w' = <[this := mkDynamicArray (Ptr b 0) (Ptr b (cursor_size d)) (Ptr b n)]> (objs w) /\
       exists blk, heap w' !! b = Some (Some blk) /\ length blk = Z.to_nat n)
    (fun _ w' => same_objs w w') w.
Proof.
  intros Hd Hok. unfold Realloc.
  apply wpg_bind, wpg_allocate; [intros _; reflexivity|intros Hn].
  set (b := length (heap w)). set (w1 := set_heap _ _ _).
  assert (Hd1 : objs w1 !! this = Some d) by exact Hd.
  apply wpg_bind. eapply wpg_size_ok; [exact Hd1|exact Hok|].
  apply wpg_bind.
  eapply wpg_of_preserves; [apply copy_loop_layout| |].
  2:{ intros e w' [Ho _]. exact Ho. }
  intros [] w2 [Ho Hsh].
  assert (Hd2 : objs w2 !! this = Some d) by (rewrite Ho; exact Hd1).
  eapply wpg_bind, wpg_set_head; [exact Hd2|].
  apply wpg_bind, wpg_padd.
  eapply wpg_bind, wpg_set_tail; [eapply objs_upd_eq, Hd2|cbn [head tailCap]].
  apply wpg_bind, wpg_padd.
  eapply wpg_set_tailCap; [eapply objs_upd_eq, objs_upd_eq, Hd2|cbn [head tail]].
  cbn zeta. split; [exact Hn|]. split.
  - unfold upd. cbn [objs]. rewrite !list_insert_insert_eq, !Z.add_0_l, Ho. reflexivity.
  - cbn [upd heap]. apply shape_lookup. rewrite Hsh. apply shape_lookup.
    eexists. split; [apply list_lookup_middle; reflexivity|].
    apply length_replicate.
Qed.

End Preservation.

Section Keeps.

Context {T : Type}.

Local Abbreviation M := (M T).
Local Abbreviation world := (world T).

Lemma alloc_max_le_SIZE_MAX : alloc_max <= SIZE_MAX.
Proof. unfold alloc_max, PTRDIFF_MAX, SIZE_MAX. lia. Qed.

Lemma reserve_keeps (w : world) this n :
  all_inv w -> keeps (reserve this n) w.
Proof.
  intros Hall. unfold keeps, reserve.
  destruct (objs w !! this) as [d|] eqn:Hd.
  2:{ unfold wpg, bind. rewrite size_cursors, Hd. exact I. }
  pose proof (Hall _ _ Hd) as Hok.
  destruct (cursors_ok_range _ Hok) as (Hr & Hc & _).
  apply wpg_bind. eapply wpg_size_ok; [exact Hd|exact Hok|].
  destruct (Z.ltb_spec (cursor_size d) n); [|apply wpg_ret, Hall].
  unfold Reallocate.
  eapply wpg_mono; [apply (Realloc_partial _ _ _ n Hd Hok)| |].
  - intros [] w' (Hn & Ho & _). eapply all_inv_insert; [exact Hall| |exact Ho].
    pose proof alloc_max_le_SIZE_MAX. apply cursors_ok_block; lia.
  - intros e w' Ho. eapply all_inv_same_objs; [exact Ho|exact Hall].
Qed.

Lemma PushBack_keeps (w : world) this (v : T) :
  all_inv w -> keeps (PushBack this v) w.
Proof.
  intros Hall. unfold keeps, PushBack.
  destruct (objs w !! this) as [d|] eqn:Hd.
  2:{ unfold wpg, bind. rewrite size_cursors, Hd. exact I. }
  pose proof (Hall _ _ Hd) as Hok.
  destruct (cursors_ok_range _ Hok) as (Hr & Hc & _).
  pose proof alloc_max_le_SIZE_MAX as Hmax.
  apply wpg_bind. eapply wpg_size_ok; [exact Hd|exact Hok|].
  apply wpg_bind. eapply wpg_capacity_ok; [exact Hd|exact Hok|].
  destruct (Z.eqb_spec (cursor_size d) (cursor_capacity d)) as [Heq|Hne].
  - apply wpg_bind. unfold AmortizedGrow, AmortizedGrowSize.
    apply wpg_bind. apply wpg_bind. eapply wpg_size_ok; [exact Hd|exact Hok|].
    apply wpg_ret. set (g := size_add _ 1).
    eapply wpg_mono; [apply (Realloc_partial _ _ _ g Hd Hok)| |].
    2:{ intros e w' Ho. eapply all_inv_same_objs; [exact Ho|exact Hall]. }
    intros [] w1 (Hg & Ho & blk & Hblk & Hlen). cbn beta.
    set (b := length (heap w)) in *.
    assert (Hd1 : objs w1 !! this =
                  Some (mkDynamicArray (Ptr b 0) (Ptr b (cursor_size d)) (Ptr b g))).
    { rewrite Ho. apply list_lookup_insert_eq. eapply lookup_lt_Some, Hd. }
    apply wpg_bind. eapply wpg_get_tail; [exact Hd1|cbn [tail]].
    apply wpg_bind. apply wpg_construct_partial. intros s Hs.
    destruct (slot_at_Some_inv _ _ _ Hs) as (b0 & o & blk0 & [= <- <-] & Ho0 & Hb0 & Hs0).
    rewrite Hblk in Hb0. injection Hb0 as <-.
    apply lookup_lt_Some in Hs0. rewrite Hlen in Hs0.
    set (w2 := set_heap _ _ _).
    assert (Hd2 : objs w2 !! this =
                  Some (mkDynamicArray (Ptr b 0) (Ptr b (cursor_size d)) (Ptr b g)))
      by exact Hd1.
    apply wpg_bind. eapply wpg_get_tail; [exact Hd2|cbn [tail]].
    apply wpg_bind, wpg_padd.
    eapply wpg_set_tail; [exact Hd2|cbn [head tailCap]].
    eapply (all_inv_insert w); [exact Hall| |].
    2:{ unfold upd, w2. cbn [objs set_heap]. rewrite Ho, list_insert_insert_eq. reflexivity. }
    apply cursors_ok_block; lia.
  - apply wpg_bind, wpg_ret.
    destruct Hok as [->|(b & s & c & -> & Hs & Hcs)].
    { exfalso. apply Hne. reflexivity. }
    unfold cursor_size, cursor_capacity in Hne, Hr. cbn in Hne, Hr.
    rewrite Nat.eqb_refl, !Z.sub_0_r in Hne, Hr.
    apply wpg_bind. eapply wpg_get_tail; [exact Hd|cbn [tail]].
    apply wpg_bind. apply wpg_construct_partial. intros s0 _.
    set (w2 := set_heap _ _ _).
    assert (Hd2 : objs w2 !! this = Some (mkDynamicArray (Ptr b 0) (Ptr b s) (Ptr b c)))
      by exact Hd.
    apply wpg_bind. eapply wpg_get_tail; [exact Hd2|cbn [tail]].
    apply wpg_bind, wpg_padd.
    eapply wpg_set_tail; [exact Hd2|cbn [head tailCap]].
    eapply (all_inv_insert w); [exact Hall| |reflexivity].
    apply cursors_ok_block; lia.
Qed.

Lemma pop_back_keeps (w : world) this :
  all_inv w -> keeps (pop_back (T := T) this) w.
Proof.
  intros Hall. unfold keeps, pop_back.
  destruct (objs w !! this) as [d|] eqn:Hd.
  2:{ unfold wpg, bind, get_tail, bind, this_obj. rewrite Hd. exact I. }
  pose proof (Hall _ _ Hd) as Hok.
  apply wpg_bind. eapply wpg_get_tail; [exact Hd|].
  destruct Hok as [->|(b & s & c & -> & Hs & Hcs)]; [exact I|cbn [tail]].
  apply wpg_bind, wpg_padd.
  apply wpg_bind. apply wpg_destroy_partial. intros x Hx.
  destruct (slot_at_Some_inv _ _ _ Hx) as (b0 & o & blk0 & [= <- <-] & Ho0 & _).
  set (w2 := set_heap _ _ _).
  assert (Hd2 : objs w2 !! this = Some (mkDynamicArray (Ptr b 0) (Ptr b s) (Ptr b c)))
    by exact Hd.
  apply wpg_bind. eapply wpg_get_tail; [exact Hd2|cbn [tail]].
  apply wpg_bind, wpg_padd.
  eapply wpg_set_tail; [exact Hd2|cbn [head tailCap]].
  eapply (all_inv_insert w); [exact Hall| |reflexivity].
  apply cursors_ok_block; lia.
Qed.

(** Loops over the elements of [this] that only construct or destroy. *)
Lemma destroy_body_objs (this : nat) (i : Z) :
  preserves same_objs (h <- get_head this ;; p <- padd h i ;; destroy (T := T) p).
Proof.
  apply preserves_bind; [apply same_objs_trans
                        |apply preserves_get_head; [apply same_objs_refl|apply same_objs_trans]
                        |intros h].
  apply preserves_bind; [apply same_objs_trans|apply preserves_lift, same_objs_refl|intros p].
  eapply preserves_weaken; [apply same_layout_objs|apply preserves_destroy].
Qed.

Lemma construct_body_objs (this : nat) (v : T) (i : Z) :
  preserves same_objs (h <- get_head this ;; p <- padd h i ;; construct p v).
Proof.
  apply preserves_bind; [apply same_objs_trans
                        |apply preserves_get_head; [apply same_objs_refl|apply same_objs_trans]
                        |intros h].
  apply preserves_bind; [apply same_objs_trans|apply preserves_lift, same_objs_refl|intros p].
  eapply preserves_weaken; [apply same_layout_objs|apply preserves_construct].
Qed.

Lemma Clear_objs (this : nat) : preserves same_objs (Clear (T := T) this).
Proof.
  unfold Clear.
  apply preserves_bind; [apply same_objs_trans
                        |apply preserves_size; [apply same_objs_refl|apply same_objs_trans]
                        |intros n].
  apply preserves_bind; [apply same_objs_trans| |intros _].
  { apply preserves_for_down; [apply same_objs_refl|apply same_objs_trans|].
    intros i. apply destroy_body_objs. }
  apply preserves_bind; [apply same_objs_trans
                        |apply preserves_get_head; [apply same_objs_refl|apply same_objs_trans]
                        |intros h].
  apply preserves_bind; [apply same_objs_trans
                        |apply preserves_capacity; [apply same_objs_refl|apply same_objs_trans]
                        |intros c].
  apply preserves_deallocate.
Qed.

Lemma clear_keeps (w : world) this :
  all_inv w -> keeps (clear (T := T) this) w.
Proof.
  intros Hall. unfold keeps, clear. apply wpg_bind.
  eapply wpg_of_preserves; [apply Clear_objs| |].
  2:{ intros e w' Ho. eapply all_inv_same_objs; [exact Ho|exact Hall]. }
  intros [] w1 Ho.
  destruct (objs w1 !! this) as [d|] eqn:Hd.
  2:{ unfold wpg, bind, set_head, store. rewrite Hd. exact I. }
  eapply wpg_bind, wpg_set_head; [exact Hd|].
  eapply wpg_bind, wpg_set_tail; [eapply objs_upd_eq, Hd|cbn [head tailCap]].
  eapply wpg_set_tailCap; [eapply objs_upd_eq, objs_upd_eq, Hd|cbn [head tail]].
  eapply (all_inv_insert w1); [eapply all_inv_same_objs; [exact Ho|exact Hall]
                              |apply cursors_ok_null|].
  unfold upd. cbn [objs]. rewrite !list_insert_insert_eq. reflexivity.
Qed.

Lemma release_keeps (w : world) this :
  all_inv w -> keeps (release (T := T) this) w.
Proof.
  intros Hall. unfold keeps.
  destruct (objs w !! this) as [d|] eqn:Hd.
  2:{ unfold wpg, release, bind, get_head, bind, this_obj. rewrite Hd. exact I. }
  unfold wpg. rewrite (release_owns _ _ _ Hd).
  eapply (all_inv_insert w); [exact Hall|apply cursors_ok_null|reflexivity].
Qed.

(** [resize] keeps the invariant whenever the value of [low], if the
    shrinking branch is taken, lies within the capacity. *)
Lemma resize_keeps (w : world) low this newSize (v : T) :
  all_inv w -> is_size_t newSize ->
  (forall d, objs w !! this = Some d -> newSize < cursor_size d ->
             0 <= low <= cursor_capacity d) ->
  keeps (resize low this newSize v) w.
Proof.
  intros Hall Hsz Hlow. unfold keeps, resize.
  destruct (objs w !! this) as [d|] eqn:Hd.
  2:{ unfold wpg, bind. rewrite size_cursors, Hd. exact I. }
  pose proof (Hall _ _ Hd) as Hok.
  destruct (cursors_ok_range _ Hok) as (Hr & Hc & _).
  pose proof alloc_max_le_SIZE_MAX as Hmax.
  apply wpg_bind. eapply wpg_size_ok; [exact Hd|exact Hok|].
  destruct (Z.ltb_spec (cursor_size d) newSize).
  - apply wpg_bind. unfold Reallocate.
    eapply wpg_mono; [apply (Realloc_partial _ _ _ newSize Hd Hok)| |].
    2:{ intros e w' Ho. eapply all_inv_same_objs; [exact Ho|exact Hall]. }
    intros [] w1 (Hn & Ho & _). cbn beta.
    set (b := length (heap w)) in *.
    assert (Hall1 : all_inv w1).
    { eapply all_inv_insert; [exact Hall| |exact Ho]. apply cursors_ok_block; lia. }
    assert (Hd1 : objs w1 !! this =
                  Some (mkDynamicArray (Ptr b 0) (Ptr b (cursor_size d)) (Ptr b newSize))).
    { rewrite Ho. apply list_lookup_insert_eq. eapply lookup_lt_Some, Hd. }
    apply wpg_bind.
    eapply wpg_of_preserves.
    { apply preserves_for_up; [apply same_objs_refl|apply same_objs_trans|].
      intros i. apply construct_body_objs. }
    2:{ intros e w' Ho'. eapply all_inv_same_objs; [exact Ho'|exact Hall1]. }
    intros [] w2 Ho2.
    assert (Hd2 : objs w2 !! this =
                  Some (mkDynamicArray (Ptr b 0) (Ptr b (cursor_size d)) (Ptr b newSize)))
      by (rewrite Ho2; exact Hd1).
    apply wpg_bind. eapply wpg_get_head; [exact Hd2|cbn [head]].
    apply wpg_bind, wpg_padd.
    eapply wpg_set_tail; [exact Hd2|cbn [head tailCap]].
    eapply (all_inv_insert w2); [eapply all_inv_same_objs; [exact Ho2|exact Hall1]| |reflexivity].
    apply cursors_ok_block; lia.
  - destruct (Z.ltb_spec newSize (cursor_size d)); [|apply wpg_ret, Hall].
    apply wpg_bind. eapply wpg_size_ok; [exact Hd|exact Hok|].
    apply wpg_bind.
    eapply wpg_of_preserves.
    { apply preserves_for_down; [apply same_objs_refl|apply same_objs_trans|].
      intros i. apply destroy_body_objs. }
    2:{ intros e w' Ho'. eapply all_inv_same_objs; [exact Ho'|exact Hall]. }
    intros [] w2 Ho2.
    assert (Hd2 : objs w2 !! this = Some d) by (rewrite Ho2; exact Hd).
    apply wpg_bind. eapply wpg_get_head; [exact Hd2|].
    specialize (Hlow d eq_refl ltac:(assumption)).
    destruct Hok as [->|(b & s & c & -> & Hs & Hcs)].
    { unfold cursor_size, is_size_t in *. cbn in *. lia. }
    cbn [head]. apply wpg_bind, wpg_padd.
    eapply wpg_set_tail; [exact Hd2|cbn [head tailCap]].
    eapply (all_inv_insert w2); [eapply all_inv_same_objs; [exact Ho2|exact Hall]| |reflexivity].
    unfold cursor_size, cursor_capacity, is_size_t in *. cbn in *.
    rewrite Nat.eqb_refl, !Z.sub_0_r in *.
    apply cursors_ok_block; lia.
Qed.

End Keeps.

Section KeepsLifecycle.

Context {T : Type}.

Local Abbreviation M := (M T).
Local Abbreviation world := (world T).

Lemma preserves_allocate n : preserves same_objs (@allocate T n).
Proof. intros w. apply wpg_allocate; intros _; reflexivity. Qed.

Lemma wrap_range (z : Z) : is_size_t (wrap z).
Proof.
  unfold is_size_t, wrap, SIZE_MAX.
  pose proof (Z.mod_pos_bound z (18446744073709551615 + 1) ltac:(lia)). lia.
Qed.

(** [size()] never changes the world, and its result is a [size_type]. *)
Lemma wpg_size_partial (w : world) this (Q : Z -> world -> Prop) E :
  (forall s, is_size_t s -> Q s w) -> wpg True (size this) Q E w.
Proof.
  intros HQ. unfold wpg. rewrite size_cursors.
  destruct (objs w !! this) as [d|]; [|exact I].
  destruct (ptr_diff (tail d) (head d)); [|exact I].
  apply HQ, wrap_range.
Qed.

Lemma Init_fill_partial (w : world) n (v : T) :
  wpg True (Init_fill n v)
    (fun h w' => h = Ptr (length (heap w)) 0 /\ n <= alloc_max /\ same_objs w w')
    (fun _ w' => same_objs w w') w.
Proof.
  unfold Init_fill.
  apply wpg_bind, wpg_allocate; [intros _; reflexivity|intros Hn].
  apply wpg_bind. eapply wpg_of_preserves.
  { apply preserves_for_up; [apply same_objs_refl|apply same_objs_trans|].
    intros i.
    apply preserves_bind; [apply same_objs_trans|apply preserves_lift, same_objs_refl|intros p].
    eapply preserves_weaken; [apply same_layout_objs|apply preserves_construct]. }
  - intros [] w2 Ho. apply wpg_ret. split; [reflexivity|]. split; [exact Hn|exact Ho].
  - intros e w2 Ho. exact Ho.
Qed.

Lemma Init_copy_partial (w : world) arr :
  wpg True (Init_copy (T := T) arr)
    (fun h w' => h = Ptr (length (heap w)) 0 /\ same_objs w w')
    (fun _ w' => same_objs w w') w.
Proof.
  unfold Init_copy.
  apply wpg_bind, wpg_size_partial. intros s _.
  apply wpg_bind, wpg_allocate; [intros _; reflexivity|intros Hn].
  apply wpg_bind. eapply wpg_of_preserves.
  { apply preserves_for_up; [apply same_objs_refl|apply same_objs_trans|].
    intros i.
    apply preserves_bind; [apply same_objs_trans|apply preserves_lift, same_objs_refl|intros p].
    apply preserves_bind; [apply same_objs_trans| |intros r].
    { unfold operator_index.
      apply preserves_bind; [apply same_objs_trans
                            |apply preserves_get_head; [apply same_objs_refl|apply same_objs_trans]
                            |intros h].
      apply preserves_lift, same_objs_refl. }
    apply preserves_bind; [apply same_objs_trans|apply preserves_load, same_objs_refl|intros x].
    eapply preserves_weaken; [apply same_layout_objs|apply preserves_construct]. }
  - intros [] w2 Ho. apply wpg_ret. split; [reflexivity|exact Ho].
  - intros e w2 Ho. exact Ho.
Qed.

Lemma DynamicArray_ctor_keeps (w : world) :
  all_inv w -> keeps (@DynamicArray_ctor T) w.
Proof.
  intros Hall. unfold keeps, DynamicArray_ctor. apply wpg_new_obj.
  eapply all_inv_app; [exact Hall|apply cursors_ok_null|reflexivity].
Qed.

Lemma DynamicArray_ctor_fill_keeps (w : world) n (v : T) :
  all_inv w -> is_size_t n -> keeps (DynamicArray_ctor_fill n v) w.
Proof.
  intros Hall Hn. unfold keeps, DynamicArray_ctor_fill.
  apply wpg_bind.
  eapply wpg_mono; [apply Init_fill_partial| |].
  2:{ intros e w' Ho. eapply all_inv_same_objs; [exact Ho|exact Hall]. }
  intros h w1 (-> & Hmax & Ho). cbn beta.
  apply wpg_bind, wpg_padd. apply wpg_new_obj.
  eapply (all_inv_app w1); [eapply all_inv_same_objs; [exact Ho|exact Hall]| |reflexivity].
  pose proof alloc_max_le_SIZE_MAX. unfold is_size_t in Hn.
  apply cursors_ok_block; lia.
Qed.

Lemma DynamicArray_ctor_copy_keeps (w : world) other :
  all_inv w -> keeps (@DynamicArray_ctor_copy T other) w.
Proof.
  intros Hall. unfold keeps, DynamicArray_ctor_copy.
  apply wpg_bind.
  eapply wpg_mono; [apply Init_copy_partial| |].
  2:{ intros e w' Ho. eapply all_inv_same_objs; [exact Ho|exact Hall]. }
  intros h w1 (-> & Ho). cbn beta.
  pose proof (all_inv_same_objs _ _ Ho Hall) as Hall1.
  destruct (objs w1 !! other) as [d|] eqn:Hd.
  2:{ unfold wpg, bind. rewrite size_cursors, Hd. exact I. }
  pose proof (Hall1 _ _ Hd) as Hok.
  destruct (cursors_ok_range _ Hok) as (Hr & Hc & _).
  apply wpg_bind. eapply wpg_size_ok; [exact Hd|exact Hok|].
  apply wpg_bind, wpg_padd.
  apply wpg_bind. eapply wpg_capacity_ok; [exact Hd|exact Hok|].
  apply wpg_bind, wpg_padd. apply wpg_new_obj.
  eapply (all_inv_app w1); [exact Hall1| |reflexivity].
  apply cursors_ok_block; lia.
Qed.

Lemma DynamicArray_ctor_move_keeps (w : world) other :
  all_inv w -> keeps (@DynamicArray_ctor_move T other) w.
Proof.
  intros Hall. unfold keeps.
  destruct (objs w !! other) as [d|] eqn:Hd.
  2:{ unfold wpg, DynamicArray_ctor_move, bind, get_head, bind, this_obj.
      rewrite Hd. exact I. }
  unfold wpg. rewrite (DynamicArray_ctor_move_eq _ _ _ Hd).
  eapply (all_inv_insert (mkWorld (objs w ++ [d]) (heap w) (log w)));
    [|apply cursors_ok_null|reflexivity].
  eapply all_inv_app; [exact Hall|eapply Hall, Hd|reflexivity].
Qed.

Lemma operator_assign_copy_keeps (w : world) this other :
  all_inv w -> keeps (@operator_assign_copy T this other) w.
Proof.
  intros Hall. unfold keeps, operator_assign_copy.
  apply wpg_bind.
  eapply wpg_mono; [apply Init_copy_partial| |].
  2:{ intros e w' Ho. eapply all_inv_same_objs; [exact Ho|exact Hall]. }
  intros h w1 (-> & Ho). cbn beta.
  pose proof (all_inv_same_objs _ _ Ho Hall) as Hall1.
  set (b := length (heap w)).
  destruct (objs w1 !! this) as [d|] eqn:Hd.
  2:{ unfold wpg, bind, set_head, store. rewrite Hd. exact I. }
  eapply wpg_bind, wpg_set_head; [exact Hd|].
  set (w2 := upd w1 this _).
  assert (Hd2 : objs w2 !! this = Some (mkDynamicArray (Ptr b 0) (tail d) (tailCap d)))
    by apply (objs_upd_eq _ _ _ _ Hd).
  apply wpg_bind. eapply wpg_get_head; [exact Hd2|cbn [head]].
  apply wpg_bind, wpg_size_partial. intros s Hs.
  apply wpg_bind, wpg_padd.
  eapply wpg_bind, wpg_set_tail; [exact Hd2|cbn [head tailCap]].
  set (w3 := upd w2 this _).
  assert (Hd3 : objs w3 !! this = Some (mkDynamicArray (Ptr b 0) (Ptr b (0 + s)) (tailCap d)))
    by apply (objs_upd_eq _ _ _ _ Hd2).
  apply wpg_bind. eapply wpg_get_tail; [exact Hd3|cbn [tail]].
  eapply wpg_set_tailCap; [exact Hd3|cbn [head tail]].
  eapply (all_inv_insert w1); [exact Hall1| |].
  2:{ unfold upd, w3, w2, upd. cbn [objs]. rewrite !list_insert_insert_eq. reflexivity. }
  unfold is_size_t in Hs. apply cursors_ok_block; lia.
Qed.

Lemma operator_assign_move_keeps (w : world) this other :
  all_inv w -> keeps (@operator_assign_move T this other) w.
Proof.
  intros Hall. unfold keeps.
  destruct (objs w !! other) as [d|] eqn:Hd.
  2:{ unfold wpg, operator_assign_move, bind, get_head, bind, this_obj.
      rewrite Hd. exact I. }
  destruct (objs w !! this) as [d0|] eqn:Hd0.
  2:{ unfold wpg, operator_assign_move, bind, get_head, bind, this_obj, set_head, store.
      rewrite Hd. cbn. rewrite Hd0. exact I. }
  unfold wpg. rewrite (operator_assign_move_eq _ _ _ _ _ Hd0 Hd).
  eapply (all_inv_insert (upd w this d)); [|apply cursors_ok_null|reflexivity].
  apply all_inv_upd; [exact Hall|eapply Hall, Hd].
Qed.

End KeepsLifecycle.

(** * Facts supporting the claims *)

Section Claims.

Context {T : Type}.

Local Abbreviation M := (M T).
Local Abbreviation world := (world T).

(** Supporting C1: on a well-formed container [at(index)] throws exactly
    when [index > size()], and a throw leaves the world as it was. *)
Lemma at_throws_iff (w : world) this (xs : list T) cap index :
  owns w this xs cap ->
  (at_ this index w = Throw out_of_range w <-> len xs < index) /\
  (forall e w', at_ this index w = Throw e w' -> e = out_of_range /\ w' = w).
Proof.
  intros Hown. rewrite (at_owns _ _ _ _ _ Hown).
  assert (Hidx : forall e w', operator_index (T := T) this index w <> Throw e w').
  { intros e w'. unfold operator_index, bind, get_head, bind, this_obj, padd, lift.
    destruct (objs w !! this) as [d|]; [|discriminate]. cbn.
    destruct (ptr_add (head d) index); discriminate. }
  destruct (Z.ltb_spec (len xs) index) as [Hlt|Hge].
  - split; [split; auto|]. intros e w' [= <- <-]. auto.
  - split.
    + split; [intros H; exfalso; eapply Hidx, H|lia].
    + intros e w' H. exfalso. eapply Hidx, H.
Qed.

(** Supporting C1: [at(size() - 1)] on a non-empty container returns a
    reference to the last element. *)
Lemma at_last (w : world) this (xs : list T) x cap :
  owns w this (xs ++ [x]) cap ->
  exists r, at_ this (len (xs ++ [x]) - 1) w = Ret r w /\ load r w = Ret x w.
Proof.
  intros Hown. rewrite (at_owns _ _ _ _ _ Hown), len_snoc.
  destruct (Z.ltb_spec (len xs + 1) (len xs + 1 - 1)); [lia|].
  pose proof (read_index_owns w this (xs ++ [x]) cap (length xs) x Hown) as Hread.
  rewrite list_lookup_middle in Hread by reflexivity. specialize (Hread eq_refl).
  replace (len xs + 1 - 1) with (Z.of_nat (length xs)) by (unfold len; lia).
  unfold read_index, bind in Hread.
  destruct (operator_index this (Z.of_nat (length xs)) w) as [r w'|e w'|] eqn:Hr;
    try discriminate.
  assert (w' = w) as ->.
  { revert Hr. unfold operator_index, bind, get_head, bind, this_obj, padd, lift.
    destruct (objs w !! this) as [d|]; [|discriminate]. cbn.
    destruct (ptr_add (head d) _); [|discriminate]. intros [= _ <-]. reflexivity. }
  exists r. split; [reflexivity|exact Hread].
Qed.

(** The empty sentinel reports size 0 and capacity 0. *)
Lemma null_size_capacity (w : world) this :
  objs w !! this = Some null_array ->
  size this w = Ret 0 w /\ capacity this w = Ret 0 w.
Proof.
  intros Hd. rewrite size_cursors, capacity_cursors, Hd. split; reflexivity.
Qed.

End Claims.

Section Support.

Context {T : Type}.

Local Abbreviation M := (M T).
Local Abbreviation world := (world T).

(** Supporting C2: for [size() < n < capacity()], [reserve(n)] lowers the
    capacity to [n]; for [n > capacity()] it raises it to exactly [n].  In
    both cases the elements are kept, in order. *)
Lemma reserve_sets_capacity (w : world) this (xs : list T) cap n :
  owns w this xs cap -> len xs < n <= alloc_max ->
  exists w', reserve this n w = Ret tt w' /\
             owns w' this xs n /\
             capacity this w' = Ret n w' /\
             size this w' = Ret (len xs) w' /\
             iterate this w' = Ret xs w'.
Proof.
  intros Hown Hn. destruct (owns_obj _ _ _ _ Hown) as [d Hd].
  destruct (returns_inv _ _ _ (reserve_above_size w this xs cap n Hown Hn))
    as ([] & w' & Hrun & Hre).
  assert (Hown' : owns w' this xs n)
    by (apply (rebuilt_owns w w' this d xs n Hd); [lia|exact Hre]).
  exists w'. split; [exact Hrun|]. split; [exact Hown'|].
  split; [apply (owns_capacity _ _ _ _ Hown')|].
  split; [apply (owns_size _ _ _ _ Hown')|apply (iterate_owns _ _ _ _ Hown')].
Qed.

(** Supporting C3: the copy has the size and the elements of the source,
    a block of [size()] slots, and the capacity of the source. *)
Lemma copy_constructed (w : world) other (xs : list T) cap :
  owns w other xs cap ->
  exists w', DynamicArray_ctor_copy other w = Ret (length (objs w)) w' /\
             size (length (objs w)) w' = Ret (len xs) w' /\
             capacity (length (objs w)) w' = Ret cap w' /\
             heap w' !! length (heap w) = Some (Some (cells xs (len xs))) /\
             data (length (objs w)) w' = Ret (Ptr (length (heap w)) 0) w' /\
             owns w' other xs cap.
Proof.
  intros Hown. pose proof (owns_bounds _ _ _ _ Hown) as [Hb Hc].
  destruct (returns_inv _ _ _ (DynamicArray_ctor_copy_returns w other xs cap Hown))
    as (this & w' & Hrun & -> & Ho & Hh & Hown').
  assert (Hd : objs w' !! length (objs w) =
               Some (mkDynamicArray (Ptr (length (heap w)) 0)
                       (Ptr (length (heap w)) (len xs)) (Ptr (length (heap w)) cap))).
  { rewrite Ho. apply list_lookup_middle. reflexivity. }
  assert (Hok : cursors_ok (mkDynamicArray (Ptr (length (heap w)) 0)
                       (Ptr (length (heap w)) (len xs)) (Ptr (length (heap w)) cap))).
  { pose proof alloc_max_le_SIZE_MAX. apply cursors_ok_block; lia. }
  exists w'. split; [exact Hrun|].
  rewrite (size_ok _ _ _ Hd Hok), (capacity_ok _ _ _ Hd Hok).
  unfold cursor_size, cursor_capacity. cbn [head tail tailCap ptr_diff].
  rewrite Nat.eqb_refl, !Z.sub_0_r.
  split; [reflexivity|]. split; [reflexivity|]. split.
  - rewrite Hh. apply list_lookup_middle. reflexivity.
  - split; [|exact Hown'].
    unfold data, get_head, this_obj, bind. rewrite Hd. reflexivity.
Qed.

(** Supporting C7: a growing [resize] keeps the old elements, appends
    copies of the value, and leaves capacity exactly [newSize]. *)
Lemma resize_grow_owns (w : world) low this (xs : list T) cap newSize v :
  owns w this xs cap -> len xs < newSize <= alloc_max ->
  exists w', resize low this newSize v w = Ret tt w' /\
             owns w' this (xs ++ replicate (Z.to_nat (newSize - len xs)) v) newSize /\
             size this w' = Ret newSize w' /\
             capacity this w' = Ret newSize w'.
Proof.
  intros Hown Hn. destruct (owns_obj _ _ _ _ Hown) as [d Hd].
  destruct (returns_inv _ _ _ (resize_grow_returns w low this xs cap newSize v Hown Hn))
    as ([] & w' & Hrun & Hre).
  assert (Hlen : len (xs ++ replicate (Z.to_nat (newSize - len xs)) v) = newSize).
  { rewrite len_app. unfold len. rewrite length_replicate. unfold len in *. lia. }
  assert (Hown' : owns w' this (xs ++ replicate (Z.to_nat (newSize - len xs)) v) newSize)
    by (apply (rebuilt_owns w w' this d _ newSize Hd); [lia|exact Hre]).
  exists w'. split; [exact Hrun|]. split; [exact Hown'|]. split.
  - rewrite (owns_size _ _ _ _ Hown'), Hlen. reflexivity.
  - apply (owns_capacity _ _ _ _ Hown').
Qed.

(** Supporting C9: on a well-formed container the public operations
    return (within what the allocator can grant), so the invariant is not
    preserved for want of outcomes. *)
Lemma well_formed_operations_return (w : world) this (xs : list T) cap n v :
  owns w this xs cap ->
  0 <= n <= alloc_max ->
  cap + cap / 2 + 1 <= alloc_max ->
  (exists w', reserve this n w = Ret tt w') /\
  (exists w', resize n this n v w = Ret tt w') /\
  (exists w', push_back this v w = Ret tt w') /\
  (xs <> [] -> exists w', pop_back this w = Ret tt w') /\
  (exists w', clear this w = Ret tt w') /\
  (exists p w', release this w = Ret p w') /\
  (exists b w', DynamicArray_ctor_fill n v w = Ret b w') /\
  (exists b w', DynamicArray_ctor_copy this w = Ret b w') /\
  (exists b w', DynamicArray_ctor_move this w = Ret b w') /\
  (forall other d, other <> this -> objs w !! other = Some d ->
     (exists w', operator_assign_copy other this w = Ret tt w') /\
     (exists w', operator_assign_move other this w = Ret tt w')).
Proof.
  intros Hown Hn Hfit. destruct (owns_obj _ _ _ _ Hown) as [d Hd].
  pose proof (owns_bounds _ _ _ _ Hown) as [Hb Hc].
  repeat match goal with |- _ /\ _ => split end.
  - destruct (Z.le_gt_cases n (len xs)) as [Hle|Hgt].
    + exists w. apply (reserve_upto_size _ _ _ _ _ Hown Hle).
    + destruct (returns_inv _ _ _ (reserve_above_size w this xs cap n Hown ltac:(lia)))
        as ([] & w' & Hrun & _). eauto.
  - destruct (Z.lt_trichotomy (len xs) n) as [Hlt|[Heq|Hgt]].
    + destruct (resize_grow_owns w n this xs cap n v Hown ltac:(lia)) as (w' & Hrun & _).
      eauto.
    + exists w. unfold resize, bind. rewrite (owns_size _ _ _ _ Hown).
      destruct (Z.ltb_spec (len xs) n); [lia|].
      destruct (Z.ltb_spec n (len xs)); [lia|reflexivity].
    + destruct (returns_inv _ _ _ (resize_shrink_owns w this xs cap n v Hown ltac:(lia)))
        as ([] & w' & Hrun & _). eauto.
  - destruct (returns_inv _ _ _ (PushBack_returns w this xs cap v Hown (fun _ => Hfit)))
      as ([] & w' & Hrun & _). eauto.
  - intros Hne. destruct (exists_last Hne) as (ys & y & ->).
    destruct (returns_inv _ _ _ (pop_back_returns w this ys y cap Hown))
      as ([] & w' & Hrun & _). eauto.
  - destruct (returns_inv _ _ _ (clear_returns w this xs cap Hown))
      as ([] & w' & Hrun & _). eauto.
  - rewrite (release_owns _ _ _ Hd). eauto.
  - destruct (returns_inv _ _ _ (DynamicArray_ctor_fill_owns w n v Hn))
      as (b & w' & Hrun & _). eauto.
  - destruct (copy_constructed w this xs cap Hown) as (w' & Hrun & _). eauto.
  - rewrite (DynamicArray_ctor_move_eq _ _ _ Hd). eauto.
  - intros other d0 Hne Hd0. split.
    + destruct (returns_inv _ _ _
                  (operator_assign_copy_distinct w other this d0 xs cap Hne Hd0 Hown))
        as ([] & w' & Hrun & _). eauto.
    + rewrite (operator_assign_move_eq _ _ _ _ _ Hd0 Hd). eauto.
Qed.

End Support.

(** * The order of the steps of [PushBack] *)

Section Ordering.

Context {T : Type}.

Local Abbreviation M := (M T).
Local Abbreviation world := (world T).

Lemma bind_Ret {A B} (m : M A) (f : A -> M B) (w w' : world) (a : A) :
  m w = Ret a w' -> (x <- m ;; f x) w = f a w'.
Proof. unfold bind. intros ->. reflexivity. Qed.

(** Up to the construction of the new element [PushBack] only makes room:
    the construction is handed a world in which the container still holds
    [xs], at the slot [end()] points to, and the end cursor moves after
    it. *)
Lemma PushBack_with_steps (w : world) this (xs : list T) cap v :
  owns w this xs cap ->
  (len xs = cap -> grown cap <= alloc_max) ->
  exists w0 b,
    objs w0 !! this =
      Some (mkDynamicArray (Ptr b 0) (Ptr b (len xs)) (Ptr b (capacity_after_push xs cap))) /\
    heap w0 !! b = Some (Some (cells xs (capacity_after_push xs cap))) /\
    len xs < capacity_after_push xs cap <= alloc_max /\
    forall c, PushBack_with c this v w =
              (c (Ptr b (len xs)) v ;;
               t <- get_tail this ;; t' <- padd t 1 ;; set_tail this t') w0.
Proof.
  intros Hown Hg. pose proof (owns_bounds _ _ _ _ Hown) as [Hb Hc].
  unfold capacity_after_push.
  destruct (Z.eqb_spec (len xs) cap) as [Heq|Hne].
  - subst cap. specialize (Hg eq_refl).
    pose proof (grown_gt (len xs) ltac:(lia)) as Hgt.
    destruct (owns_obj _ _ _ _ Hown) as [d Hd].
    destruct (returns_inv _ _ _
                (Realloc_returns w this xs _ (grown (len xs)) Hown ltac:(lia)))
      as ([] & w0 & Hre & Hrebuilt).
    pose proof Hrebuilt as (Ho & Hh & _).
    exists w0, (length (heap w)).
    split; [rewrite Ho; apply list_lookup_insert_eq; eapply lookup_lt_Some, Hd|].
    split; [rewrite Hh; apply list_lookup_middle; reflexivity|].
    split; [lia|].
    intros c. unfold PushBack_with.
    rewrite (bind_Ret _ _ _ _ _ (owns_size _ _ _ _ Hown)).
    rewrite (bind_Ret _ _ _ _ _ (owns_capacity _ _ _ _ Hown)).
    rewrite Z.eqb_refl.
    assert (Hgrow : AmortizedGrow this w = Ret tt w0).
    { unfold AmortizedGrow.
      rewrite (bind_Ret _ _ _ _ _ (AmortizedGrowSize_owns _ _ _ _ Hown Hg)).
      exact Hre. }
    rewrite (bind_Ret _ _ _ _ _ Hgrow).
    assert (Htail : get_tail this w0 = Ret (Ptr (length (heap w)) (len xs)) w0).
    { unfold get_tail, this_obj, bind. rewrite Ho.
      rewrite list_lookup_insert_eq by (eapply lookup_lt_Some, Hd). reflexivity. }
    rewrite (bind_Ret _ _ _ _ _ Htail). reflexivity.
  - destruct Hown as [_ -> ->|b Hobj Hblk _ _]; [destruct Hne; reflexivity|].
    exists w, b. split; [exact Hobj|]. split; [exact Hblk|]. split; [lia|].
    intros c. unfold PushBack_with.
    assert (Hown : owns w this xs cap) by (apply (owns_block _ _ _ _ b); auto; lia).
    rewrite (bind_Ret _ _ _ _ _ (owns_size _ _ _ _ Hown)).
    rewrite (bind_Ret _ _ _ _ _ (owns_capacity _ _ _ _ Hown)).
    destruct (Z.eqb_spec (len xs) cap); [lia|].
    rewrite (bind_Ret _ _ _ _ tt (eq_refl : ret tt w = Ret tt w)).
    assert (Htail : get_tail this w = Ret (Ptr b (len xs)) w).
    { unfold get_tail, this_obj, bind. rewrite Hobj. reflexivity. }
    rewrite (bind_Ret _ _ _ _ _ Htail). reflexivity.
Qed.

(** The construction of the new element itself: it fills the slot and
    leaves the cursors alone. *)
Lemma construct_at_end (w0 : world) this b (xs : list T) n v :
  objs w0 !! this = Some (mkDynamicArray (Ptr b 0) (Ptr b (len xs)) (Ptr b n)) ->
  heap w0 !! b = Some (Some (cells xs n)) ->
  len xs < n <= alloc_max ->
  exists w1, construct (Ptr b (len xs)) v w0 = Ret tt w1 /\
             objs w1 = objs w0 /\
             log w1 = EvConstruct (Ptr b (len xs)) v :: log w0 /\
             size this w1 = Ret (len xs) w1 /\
             load (Ptr b (len xs)) w1 = Ret v w1.
Proof.
  intros Hobj Hblk Hn. pose proof (len_nonneg xs) as Hl.
  eexists. split.
  { apply returns_eq. unfold returns.
    eapply wpg_construct_push; [exact Hblk|reflexivity|lia|]. split; reflexivity. }
  set (w1 := mkWorld _ _ _).
  split; [reflexivity|]. split; [reflexivity|]. split.
  - rewrite size_cursors. cbn [w1 objs]. rewrite Hobj. cbn [tail head ptr_diff].
    rewrite Nat.eqb_refl, Z.sub_0_r, wrap_small by (apply alloc_max_size_t; lia).
    reflexivity.
  - assert (Hblk1 : heap w1 !! b = Some (Some (cells (xs ++ [v]) n))).
    { apply list_lookup_insert_eq. eapply lookup_lt_Some, Hblk. }
    assert (Hx : (xs ++ [v]) !! length xs = Some v)
      by (apply list_lookup_middle; reflexivity).
    unfold load. rewrite (slot_at_block _ _ _ _ Hblk1) by lia.
    unfold len. rewrite Nat2Z.id, (cells_lookup_live _ _ _ _ Hx). reflexivity.
Qed.

(** [++tail], line 313: only the end cursor changes. *)
Lemma advance_tail (w1 : world) this d b o :
  objs w1 !! this = Some d -> tail d = Ptr b o ->
  (t <- get_tail this ;; t' <- padd t 1 ;; set_tail this t') w1 =
  Ret tt (mkWorld (<[this := mkDynamicArray (head d) (Ptr b (o + 1)) (tailCap d)]> (objs w1))
                  (heap w1) (log w1)).
Proof.
  intros Hd Ht. apply returns_eq. unfold returns.
  apply wpg_bind. eapply wpg_get_tail; [exact Hd|]. rewrite Ht.
  apply wpg_bind, wpg_padd.
  eapply wpg_set_tail; [exact Hd|]. split; reflexivity.
Qed.

End Ordering.

(** * Facts about the scenarios *)

Lemma w_seven_owns : owns w_seven 0 [7] 1.
Proof.
  apply (owns_block _ _ _ _ 0%nat); [reflexivity|reflexivity| |];
    unfold len, alloc_max, PTRDIFF_MAX; cbn; lia.
Defined.


Lemma w_pair_owns : owns w_pair 0 [7] 1.
Proof.
  apply (owns_block _ _ _ _ 0%nat); [reflexivity|reflexivity| |];
    unfold len, alloc_max, PTRDIFF_MAX; cbn; lia.
Defined.

(** * The claims *)

(** C1 (the code departs from the claim): [at(size())] is not rejected.
    [RangeGuard] tests [index > size()], so on the container [{1, 2, 3}]
    [at(3)] returns a reference one past the last element, and on the
    empty container [at(0)] returns a null reference; neither throws. *)
Theorem C1_at_size_is_not_rejected :
  result (a <- three ;; s <- size a ;; r <- at_ a s ;; ret (s, r)) = Some (3, Ptr 2 3) /\
  result (a <- DynamicArray_ctor ;; s <- size a ;; r <- at_ a s ;; ret (s, r)) = Some (0, Null).
Proof. split; vm_compute; reflexivity. Qed.

(** C2 (the code departs from the claim): [reserve(n)] with
    [n <= capacity()] is not always a no-op.  [reserve] compares [n] with
    [size()]: on a container of size 1 and capacity 4, [reserve(2)]
    reallocates and leaves capacity 2. *)
Theorem C2_reserve_within_capacity_reallocates :
  result (a <- one_of_four ;;
          s0 <- size a ;; c0 <- capacity a ;;
          reserve a 2 ;;
          s1 <- size a ;; c1 <- capacity a ;;
          ret (s0, c0, s1, c1)) = Some (1, 4, 1, 2).
Proof. vm_compute. reflexivity. Qed.

(** C3 (the code departs from the claim): the copy constructor allocates
    [other.size()] slots but sets [tailCap] from [other.capacity()].
    Copying [{1, 2, 3}] of capacity 4 gives a container that reports
    capacity 4 over a block of 3 slots. *)
Theorem C3_copy_reports_source_capacity :
  exists w,
    (a <- three ;; b <- DynamicArray_ctor_copy a ;;
     sa <- size a ;; ca <- capacity a ;;
     sb <- size b ;; cb <- capacity b ;;
     h <- data b ;;
     ret (sa, ca, sb, cb, h)) empty_world = Ret (3, 4, 3, 4, Ptr 3 0) w /\
    heap w !! 3%nat = Some (Some [Some 1; Some 2; Some 3]).
Proof. eexists. split; vm_compute; reflexivity. Qed.

(** C4: move construction and move assignment (between two objects) hand
    the three cursors of the source to the destination verbatim and reset
    the source to the empty sentinel; the destination then holds the
    elements the source held, in order, and no allocator call is made: the
    heap and the allocator log are unchanged. *)
Theorem C4_move_transfers_cursors {T : Type} (w : world T) (a : nat) (xs : list T) (cap : Z) :
  owns w a xs cap ->
  (exists w', DynamicArray_ctor_move a w = Ret (length (objs w)) w' /\
              moved w a (length (objs w)) xs cap w') /\
  (forall b d, b <> a -> objs w !! b = Some d ->
     exists w', operator_assign_move b a w = Ret tt w' /\ moved w a b xs cap w').
Proof.
  intros Hown. destruct (owns_obj _ _ _ _ Hown) as [da Hda].
  assert (Hla : (a < length (objs w))%nat) by (eapply lookup_lt_Some, Hda).
  assert (Hmoved : forall w' dst,
            dst <> a ->
            objs w' !! dst = Some da -> objs w' !! a = Some null_array ->
            heap w' = heap w -> log w' = log w -> moved w a dst xs cap w').
  { intros w' dst Hne Hdst Hsrc Hh Hl.
    assert (Hown' : owns w' dst xs cap).
    { destruct Hown as [Hobj Hxs Hcap|b Hobj Hblk H1 H2].
      - apply owns_null; [congruence|exact Hxs|exact Hcap].
      - apply (owns_block _ _ _ _ b); [congruence|rewrite Hh; exact Hblk|exact H1|exact H2]. }
    destruct (null_size_capacity _ _ Hsrc) as [Hs Hc].
    repeat split; try assumption; [congruence|].
    apply (iterate_owns _ _ _ _ Hown'). }
  split.
  - eexists. split; [apply (DynamicArray_ctor_move_eq _ _ _ Hda)|].
    apply Hmoved; cbn [objs heap log]; try reflexivity; [lia| |].
    + rewrite list_lookup_insert_ne by lia. apply list_lookup_middle. reflexivity.
    + apply list_lookup_insert_eq. rewrite length_app. lia.
  - intros b d Hne Hd.
    assert (Hlb : (b < length (objs w))%nat) by (eapply lookup_lt_Some, Hd).
    eexists. split; [apply (operator_assign_move_eq _ _ _ _ _ Hd Hda)|].
    apply Hmoved; cbn [objs heap log]; try reflexivity; [exact Hne| |].
    + rewrite list_lookup_insert_ne by congruence. apply list_lookup_insert_eq, Hlb.
    + apply list_lookup_insert_eq. rewrite length_insert. exact Hla.
Qed.

Lemma C4_witness :
  owns w_pair 0 [7] 1 /\
  (exists w', DynamicArray_ctor_move 0 w_pair = Ret 2%nat w' /\
              moved w_pair 0 2 [7] 1 w') /\
  (exists w', operator_assign_move 1 0 w_pair = Ret tt w' /\
              moved w_pair 0 1 [7] 1 w').
Proof.
  split; [exact w_pair_owns|].
  destruct (C4_move_transfers_cursors w_pair 0 [7] 1 w_pair_owns) as [Hctor Hassign].
  split; [exact Hctor|].
  apply (Hassign 1%nat null_array); [discriminate|reflexivity].
Defined.

(** C5: on a full container ([size() == capacity()], capacity 0 and 1
    included) [push_back] reallocates to [capacity + capacity / 2 + 1]
    slots, which is more than before, provided the allocator can grant
    that many. *)
Theorem C5_push_back_growth {T : Type} (w : world T) (this : nat) (xs : list T) (cap : Z) (v : T) :
  owns w this xs cap ->
  len xs = cap ->
  cap + cap / 2 + 1 <= alloc_max ->
  AmortizedGrowSize this w = Ret (cap + cap / 2 + 1) w /\
  cap < cap + cap / 2 + 1 /\
  exists w', push_back this v w = Ret tt w' /\
             capacity this w' = Ret (cap + cap / 2 + 1) w' /\
             size this w' = Ret (cap + 1) w' /\
             iterate this w' = Ret (xs ++ [v]) w'.
Proof.
  intros Hown Hfull Hfit.
  pose proof (owns_bounds _ _ _ _ Hown) as [Hb Hc].
  split; [|split].
  - rewrite <- Hfull. apply (AmortizedGrowSize_owns _ _ _ _ Hown).
    unfold grown. rewrite Hfull. exact Hfit.
  - apply (grown_gt cap). lia.
  - destruct (returns_inv _ _ _ (PushBack_returns w this xs cap v Hown (fun _ => Hfit)))
      as ([] & w' & Hrun & Hown' & _).
    unfold capacity_after_push in Hown'. rewrite Hfull, Z.eqb_refl in Hown'.
    exists w'. split; [exact Hrun|]. split; [|split].
    + apply (owns_capacity _ _ _ _ Hown').
    + rewrite (owns_size _ _ _ _ Hown'), len_snoc, Hfull. reflexivity.
    + apply (iterate_owns _ _ _ _ Hown').
Qed.

Lemma C5_witness :
  owns w_seven 0 [7] 1 /\
  exists w', push_back 0 9 w_seven = Ret tt w' /\
             capacity 0 w' = Ret 2 w' /\
             size 0 w' = Ret 2 w' /\
             iterate 0 w' = Ret [7; 9] w'.
Proof.
  split; [exact w_seven_owns|].
  assert (Hfit : 1 + 1 / 2 + 1 <= alloc_max) by (vm_compute; discriminate).
  destruct (C5_push_back_growth w_seven 0 [7] 1 9 w_seven_owns eq_refl Hfit)
    as (_ & _ & w' & Hrun & Hcap & Hsize & Hiter).
  exists w'. split; [exact Hrun|]. split; [exact Hcap|]. split; [exact Hsize|exact Hiter].
Defined.

(** C6: pushing the values [vs] one by one into a default-constructed
    container gives a container of size [len vs] whose elements, read by
    index or walked from [begin()] to [end()], are [vs] in order.  Each
    [push_back] turns the contents [xs] into [xs ++ [v]], so it adds one to
    the size, and the last thing it asks of the allocator is the
    construction of [v] in the slot that becomes the last element.  The
    size is incremented only after that construction: whatever the
    construction of the new element does, it is run at [end()] in a world
    [w0] where the container still has size [len xs] and holds [xs], and
    the end cursor is moved after it; so when the construction throws,
    [push_back] throws with the size and the elements as they were, and
    when it is the allocator's [construct] there is a world [w1], right
    after it, in which the element is in place and the size is still
    [len xs], from which moving the end cursor, and nothing else, gives
    the result.  (The bounds say the allocator can grant the requests.) *)
Theorem C6_push_back_sequence {T : Type} (vs : list T) (w : world T) :
  2 * len vs <= alloc_max ->
  (exists w', (a <- DynamicArray_ctor ;; push_all a vs ;; ret a) w
                = Ret (length (objs w)) w' /\
              size (length (objs w)) w' = Ret (len vs) w' /\
              (forall k x, vs !! k = Some x ->
                 read_index (length (objs w)) (Z.of_nat k) w' = Ret x w') /\
              iterate (length (objs w)) w' = Ret vs w') /\
  (forall this xs cap v,
     owns w this xs cap ->
     (len xs = cap -> cap + cap / 2 + 1 <= alloc_max) ->
     exists w' p lg,
       push_back this v w = Ret tt w' /\
       size this w = Ret (len xs) w /\
       size this w' = Ret (len xs + 1) w' /\
       iterate this w' = Ret (xs ++ [v]) w' /\
       log w' = EvConstruct p v :: lg ++ log w /\
       operator_index this (len xs) w' = Ret p w' /\
       load p w' = Ret v w') /\
  (forall this xs cap v,
     owns w this xs cap ->
     (len xs = cap -> cap + cap / 2 + 1 <= alloc_max) ->
     exists w0 w1 w' p,
       push_back this v w = PushBack_with construct this v w /\
       size this w0 = Ret (len xs) w0 /\
       iterate this w0 = Ret xs w0 /\
       end_ this w0 = Ret p w0 /\
       (forall c, PushBack_with c this v w =
                  (c p v ;; t <- get_tail this ;; t' <- padd t 1 ;; set_tail this t') w0) /\
       (forall e, PushBack_with (fun _ _ => throw e) this v w = Throw e w0) /\
       construct p v w0 = Ret tt w1 /\
       size this w1 = Ret (len xs) w1 /\
       load p w1 = Ret v w1 /\
       (t <- get_tail this ;; t' <- padd t 1 ;; set_tail this t') w1 = Ret tt w' /\
       push_back this v w = Ret tt w' /\
       heap w' = heap w1 /\ log w' = log w1 /\
       size this w' = Ret (len xs + 1) w').
Proof.
  intros Hbound. split; [|split].
  - destruct (returns_inv _ _ _ (DynamicArray_ctor_owns w))
      as (a & w0 & Hctor & -> & Hown0 & _).
    destruct (returns_inv _ _ _ (push_all_returns vs w0 _ [] 0 Hown0 ltac:(exact Hbound)))
      as ([] & w' & Hpush & cap' & Hown' & _).
    cbn [app] in Hown'.
    exists w'. split; [|split; [|split]].
    + unfold bind. rewrite Hctor, Hpush. reflexivity.
    + apply (owns_size _ _ _ _ Hown').
    + intros k x Hx. apply (read_index_owns _ _ _ _ _ _ Hown' Hx).
    + apply (iterate_owns _ _ _ _ Hown').
  - intros this xs cap v Hown Hfit.
    destruct (returns_inv _ _ _ (PushBack_returns w this xs cap v Hown Hfit))
      as ([] & w' & Hrun & Hown' & _ & p & lg & Hidx & Hlog).
    exists w', p, lg. split; [exact Hrun|]. split; [apply (owns_size _ _ _ _ Hown)|].
    split; [rewrite (owns_size _ _ _ _ Hown'), len_snoc; reflexivity|].
    split; [apply (iterate_owns _ _ _ _ Hown')|]. split; [exact Hlog|].
    split; [exact Hidx|].
    pose proof (read_index_owns w' this (xs ++ [v]) _ (length xs) v Hown') as Hread.
    rewrite list_lookup_middle in Hread by reflexivity. specialize (Hread eq_refl).
    unfold read_index, bind in Hread. fold (len xs) in Hread.
    rewrite Hidx in Hread. exact Hread.
  - intros this xs cap v Hown Hfit.
    destruct (PushBack_with_steps w this xs cap v Hown Hfit)
      as (w0 & b & Hobj0 & Hblk0 & Hn & Hsteps).
    assert (Hown0 : owns w0 this xs (capacity_after_push xs cap)).
    { apply (owns_block _ _ _ _ b); [exact Hobj0|exact Hblk0|lia|lia]. }
    destruct (construct_at_end w0 this b xs _ v Hobj0 Hblk0 Hn)
      as (w1 & Hcons & Hobjs1 & _ & Hsize1 & Hload1).
    assert (Hobj1 : objs w1 !! this =
              Some (mkDynamicArray (Ptr b 0) (Ptr b (len xs))
                                   (Ptr b (capacity_after_push xs cap))))
      by (rewrite Hobjs1; exact Hobj0).
    pose proof (advance_tail w1 this _ b (len xs) Hobj1 eq_refl) as Hadv.
    cbn [head tailCap] in Hadv.
    assert (Hpush : push_back this v w = PushBack_with construct this v w) by reflexivity.
    exists w0, w1. eexists. exists (Ptr b (len xs)).
    split; [exact Hpush|].
    split; [apply (owns_size _ _ _ _ Hown0)|].
    split; [apply (iterate_owns _ _ _ _ Hown0)|].
    split; [unfold end_, get_tail, this_obj, bind; rewrite Hobj0; reflexivity|].
    split; [exact Hsteps|].
    split; [intros e; rewrite Hsteps; reflexivity|].
    split; [exact Hcons|]. split; [exact Hsize1|]. split; [exact Hload1|].
    split; [exact Hadv|].
    split; [rewrite Hpush, Hsteps, (bind_Ret _ _ _ _ _ Hcons); exact Hadv|].
    cbn [heap log]. split; [reflexivity|]. split; [reflexivity|].
    pose proof (len_nonneg xs) as Hl.
    rewrite size_cursors. cbn [objs].
    rewrite list_lookup_insert_eq by (eapply lookup_lt_Some, Hobj1).
    cbn [tail head ptr_diff].
    rewrite Nat.eqb_refl, Z.sub_0_r, wrap_small by (apply alloc_max_size_t; lia).
    reflexivity.
Qed.

Lemma C6_witness :
  2 * len [1; 2; 3] <= alloc_max /\
  (exists w', three empty_world = Ret 0%nat w' /\
              size 0 w' = Ret 3 w' /\
              read_index 0 2 w' = Ret 3 w' /\
              iterate 0 w' = Ret [1; 2; 3] w') /\
  (owns w_seven 0 [7] 1 /\
   exists w0, PushBack_with (fun _ _ => throw bad_alloc) 0 9 w_seven = Throw bad_alloc w0 /\
              size 0 w0 = Ret 1 w0 /\
              iterate 0 w0 = Ret [7] w0).
Proof.
  assert (Hbound : 2 * len [1; 2; 3] <= alloc_max) by (vm_compute; discriminate).
  split; [exact Hbound|].
  destruct (C6_push_back_sequence [1; 2; 3] empty_world Hbound)
    as ((w' & Hrun & Hsize & Hread & Hiter) & _).
  split.
  { exists w'. split; [exact Hrun|]. split; [exact Hsize|].
    split; [exact (Hread 2%nat 3 eq_refl)|exact Hiter]. }
  split; [exact w_seven_owns|].
  assert (Hb9 : 2 * len [9] <= alloc_max) by (vm_compute; discriminate).
  destruct (C6_push_back_sequence [9] w_seven Hb9) as (_ & _ & Hstep).
  assert (Hfit : len [7] = 1 -> 1 + 1 / 2 + 1 <= alloc_max)
    by (intros _; vm_compute; discriminate).
  destruct (Hstep 0%nat [7] 1 9 w_seven_owns Hfit)
    as (w0 & _ & _ & _ & _ & Hs0 & Hi0 & _ & _ & Hthrow & _).
  exists w0. split; [exact (Hthrow bad_alloc)|]. split; [exact Hs0|exact Hi0].
Defined.

(** C7 (the code departs from the claim): a growing [resize] calls
    [Reallocate(newSize)] whatever the capacity.  On a container of size 1
    and capacity 4, [resize(2, 9)] leaves capacity 2. *)
Theorem C7_resize_within_capacity_reallocates (low : Z) :
  result (a <- one_of_four ;;
          c0 <- capacity a ;;
          resize low a 2 9 ;;
          s1 <- size a ;; c1 <- capacity a ;;
          xs <- iterate a ;;
          ret (c0, s1, c1, xs)) = Some (4, 2, 2, [1; 9]).
Proof. vm_compute. reflexivity. Qed.

(** C8 (the code departs from the claim): self-assignment is not a no-op.
    After [head = Init(other)], [other.size()] subtracts the new [head]
    from the old [tail], two pointers into different allocations: the
    behaviour of [a = a] on [{1, 2, 3}] is undefined. *)
Theorem C8_self_copy_assignment_undefined :
  exists w,
    three empty_world = Ret 0%nat w /\
    owns w 0 [1; 2; 3] 4 /\
    operator_assign_copy 0 0 w = Undefined.
Proof.
  eexists. split; [vm_compute; reflexivity|]. split.
  - apply (owns_block _ _ _ _ 2%nat); [reflexivity|reflexivity| |];
      unfold len, alloc_max, PTRDIFF_MAX; cbn; lia.
  - vm_compute. reflexivity.
Qed.

(** Supporting C9: the cursor invariant ([head], [tail] and [tailCap] are
    all null, or point into one block at offsets [0 <= size <= capacity])
    holds of every object after each public operation that returns or
    throws, whenever it held of every object before, with one proviso: when
    [resize] shrinks, the value of [low] has to lie within the capacity.
    Under the invariant [size() <= capacity()], and the empty sentinel
    reports 0 and 0.  [size()] and [capacity()] are computed from the
    cursors of the object and nothing else. *)
Lemma public_operations_keep_invariant {T : Type} (w : world T) (low : Z)
    (this other : nat) (n : Z) (v : T) :
  all_inv w ->
  is_size_t n ->
  (forall d, objs w !! this = Some d -> size_le_capacity w this) /\
  (objs w !! this = Some null_array ->
     size this w = Ret 0 w /\ capacity this w = Ret 0 w) /\
  size this w =
    match objs w !! this with
    | Some d => match ptr_diff (tail d) (head d) with
                | Some z => Ret (wrap z) w
                | None => Undefined
                end
    | None => Undefined
    end /\
  capacity this w =
    match objs w !! this with
    | Some d => match ptr_diff (tailCap d) (head d) with
                | Some z => Ret (wrap z) w
                | None => Undefined
                end
    | None => Undefined
    end /\
  keeps DynamicArray_ctor w /\
  keeps (DynamicArray_ctor_fill n v) w /\
  keeps (DynamicArray_ctor_copy other) w /\
  keeps (DynamicArray_ctor_move other) w /\
  keeps (operator_assign_copy this other) w /\
  keeps (operator_assign_move this other) w /\
  keeps (reserve this n) w /\
  ((forall d, objs w !! this = Some d -> n < cursor_size d ->
              0 <= low <= cursor_capacity d) ->
   keeps (resize low this n v) w) /\
  keeps (push_back this v) w /\
  keeps (pop_back this) w /\
  keeps (clear this) w /\
  keeps (release this) w.
Proof.
  intros Hall Hn.
  split; [intros d Hd; apply (all_inv_size_le_capacity _ _ _ Hall Hd)|].
  split; [apply null_size_capacity|].
  split; [apply size_cursors|].
  split; [apply capacity_cursors|].
  split; [apply DynamicArray_ctor_keeps, Hall|].
  split; [apply DynamicArray_ctor_fill_keeps; [exact Hall|exact Hn]|].
  split; [apply DynamicArray_ctor_copy_keeps, Hall|].
  split; [apply DynamicArray_ctor_move_keeps, Hall|].
  split; [apply operator_assign_copy_keeps, Hall|].
  split; [apply operator_assign_move_keeps, Hall|].
  split; [apply reserve_keeps, Hall|].
  split; [intros Hlow; apply resize_keeps; [exact Hall|exact Hn|exact Hlow]|].
  split; [apply PushBack_keeps, Hall|].
  split; [apply pop_back_keeps, Hall|].
  split; [apply clear_keeps, Hall|].
  apply release_keeps, Hall.
Qed.


(** C10: moving a container into itself leaves it in the empty sentinel
    state, size 0 and capacity 0, whatever it held; its elements are
    neither destroyed nor kept (the heap and the allocator log are
    untouched, and the container no longer refers to them). *)
Theorem C10_self_move_assignment_empties {T : Type} (w : world T) (a : nat) (xs : list T) (cap : Z) :
  owns w a xs cap ->
  exists w', operator_assign_move a a w = Ret tt w' /\
             objs w' !! a = Some null_array /\
             size a w' = Ret 0 w' /\
             capacity a w' = Ret 0 w' /\
             iterate a w' = Ret [] w' /\
             heap w' = heap w /\
             log w' = log w.
Proof.
  intros Hown. destruct (owns_obj _ _ _ _ Hown) as [d Hd].
  assert (Hla : (a < length (objs w))%nat) by (eapply lookup_lt_Some, Hd).
  eexists. split; [apply (operator_assign_move_eq _ _ _ _ _ Hd Hd)|].
  set (w' := mkWorld _ _ _).
  assert (Hnull : objs w' !! a = Some null_array).
  { apply list_lookup_insert_eq. rewrite length_insert. exact Hla. }
  destruct (null_size_capacity _ _ Hnull) as [Hs Hc].
  split; [exact Hnull|]. split; [exact Hs|]. split; [exact Hc|].
  split; [|split; reflexivity].
  apply (iterate_owns w' a [] 0). apply owns_null; [exact Hnull|reflexivity|reflexivity].
Qed.

Lemma C10_witness :
  owns w_seven 0 [7] 1 /\
  exists w', operator_assign_move 0 0 w_seven = Ret tt w' /\
             size 0 w' = Ret 0 w' /\
             capacity 0 w' = Ret 0 w' /\
             iterate 0 w' = Ret [] w'.
Proof.
  split; [exact w_seven_owns|].
  destruct (C10_self_move_assignment_empties w_seven 0 [7] 1 w_seven_owns)
    as (w' & Hrun & _ & Hsize & Hcap & Hiter & _).
  exists w'. split; [exact Hrun|]. split; [exact Hsize|]. split; [exact Hcap|exact Hiter].
Defined.

(** * Further properties of the class *)

(** ** Exact effects of reallocation and of [push_back] *)

Section Exact.

Context {T : Type}.

Local Abbreviation M := (M T).
Local Abbreviation world := (world T).

Lemma returns_world (m : M unit) (w w0 : world) :
  returns m (fun _ w' => w' = w0) w -> m w = Ret tt w0.
Proof.
  intros H. destruct (returns_inv _ _ _ H) as ([] & w' & Hm & ->). exact Hm.
Qed.

Lemma world_eq (w : world) o h l :
  objs w = o -> heap w = h -> log w = l -> w = mkWorld o h l.
Proof. destruct w. cbn. intros -> -> ->. reflexivity. Qed.

Lemma copy_events_snoc b (xs : list T) x :
  copy_events b (xs ++ [x]) = EvConstruct (Ptr b (len xs)) x :: copy_events b xs.
Proof.
  unfold copy_events, len. rewrite imap_app. cbn [imap].
  rewrite rev_unit, Nat.add_0_r. reflexivity.
Qed.

Lemma constructions_app (l1 l2 : list (event T)) :
  constructions (l1 ++ l2) = constructions l1 + constructions l2.
Proof.
  induction l1 as [|e l1 IH]; [reflexivity|].
  destruct e; cbn [app constructions]; rewrite IH; lia.
Qed.

Lemma allocations_app (l1 l2 : list (event T)) :
  allocations (l1 ++ l2) = allocations l1 + allocations l2.
Proof.
  induction l1 as [|e l1 IH]; [reflexivity|].
  destruct e; cbn [app allocations]; rewrite IH; lia.
Qed.

Lemma teardowns_app (l1 l2 : list (event T)) :
  teardowns (l1 ++ l2) = teardowns l1 + teardowns l2.
Proof.
  induction l1 as [|e l1 IH]; [reflexivity|].
  destruct e; cbn [app teardowns]; rewrite IH; lia.
Qed.

Lemma copy_events_counts b (xs : list T) :
  constructions (copy_events b xs) = len xs /\
  allocations (copy_events b xs) = 0 /\
  teardowns (copy_events b xs) = 0.
Proof.
  induction xs as [|x xs IH] using rev_ind.
  - repeat split.
  - rewrite copy_events_snoc, len_snoc. cbn [constructions allocations teardowns].
    destruct IH as (-> & -> & ->). repeat split; lia.
Qed.

Lemma Realloc_exact (w : world) this (xs : list T) cap n :
  owns w this xs cap -> len xs <= n <= alloc_max ->
  Realloc this n w = Ret tt (reallocated w this xs n).
Proof.
  intros Hown Hn. apply returns_world. unfold returns, Realloc.
  destruct (owns_obj _ _ _ _ Hown) as [d Hd].
  apply wpg_bind, wpg_allocate; [unfold nothrow; lia|intros _].
  set (b' := length (heap w)).
  set (w1 := set_heap _ _ _).
  assert (Hown1 : owns w1 this xs cap).
  { eapply owns_frame; [exact Hown|reflexivity|].
    intros b blk Hb. apply lookup_app_l_Some, Hb. }
  apply wpg_bind. eapply wpg_size; [exact Hown1|].
  apply wpg_bind.
  apply (for_up_rule _ (fun k w' =>
    objs w' = objs w /\
    heap w' = heap w ++ [Some (cells (take k xs) n)] /\
    log w' = copy_events b' (take k xs) ++ EvAllocate n (Ptr b' 0) :: log w)).
  - split; [reflexivity|]. split.
    + rewrite take_0, cells_nil. reflexivity.
    + rewrite take_0. reflexivity.
  - intros k w' Hk (Ho & Hh & Hlg).
    unfold len in Hk. rewrite Nat2Z.id in Hk.
    destruct (lookup_lt_is_Some_2 xs k Hk) as [x Hx].
    destruct Hown as [_ -> _|b Hobj Hb _ _]; [discriminate|].
    rewrite Z.add_0_l.
    apply wpg_bind, wpg_padd. rewrite Z.add_0_l.
    apply wpg_bind. eapply wpg_get_head; [rewrite Ho; exact Hobj|cbn [head]].
    apply wpg_bind, wpg_padd.
    apply wpg_bind. eapply wpg_load_live; [| exact Hx | lia |].
    { rewrite Hh. apply lookup_app_l_Some, Hb. }
    assert (Hlen : length (take k xs) = k) by (rewrite length_take; lia).
    eapply wpg_construct_push.
    { rewrite Hh. apply list_lookup_middle. reflexivity. }
    { unfold len. lia. }
    { unfold len in *. pose proof (lookup_lt_Some _ _ _ Hx). lia. }
    cbn [objs heap log]. split; [exact Ho|]. split.
    + rewrite Hh. unfold b'. rewrite insert_last, (take_S_r _ _ _ Hx). reflexivity.
    + rewrite Hlg, (take_S_r _ _ _ Hx), copy_events_snoc.
      unfold len. rewrite Hlen. reflexivity.
  - intros w2 (Ho & Hh & Hlg).
    assert (Hd2 : objs w2 !! this = Some d) by (rewrite Ho; exact Hd).
    eapply wpg_bind, wpg_set_head; [exact Hd2|].
    apply wpg_bind, wpg_padd.
    eapply wpg_bind, wpg_set_tail; [eapply objs_upd_eq, Hd2|cbn [head tailCap]].
    apply wpg_bind, wpg_padd.
    eapply wpg_set_tailCap; [eapply objs_upd_eq, objs_upd_eq, Hd2|cbn [head tail]].
    unfold len in Hh, Hlg. rewrite Nat2Z.id, take_ge in Hh, Hlg by lia.
    unfold reallocated. apply world_eq; unfold upd; cbn [objs heap log].
    + rewrite !list_insert_insert_eq, !Z.add_0_l, Ho. reflexivity.
    + exact Hh.
    + exact Hlg.
Qed.

Lemma reallocated_owns (w : world) this d (xs : list T) n :
  objs w !! this = Some d -> len xs <= n <= alloc_max ->
  owns (reallocated w this xs n) this xs n.
Proof.
  intros Hd Hn. apply (rebuilt_owns w _ this d xs n Hd Hn).
  split; [reflexivity|]. split; [reflexivity|].
  exists (copy_events (length (heap w)) xs ++ [EvAllocate n (Ptr (length (heap w)) 0)]).
  unfold reallocated. cbn [log]. rewrite <- app_assoc. reflexivity.
Qed.

(** [push_back] with room left: one construction, in place. *)
Lemma PushBack_room_exact (w : world) this b (xs : list T) cap v :
  objs w !! this = Some (mkDynamicArray (Ptr b 0) (Ptr b (len xs)) (Ptr b cap)) ->
  heap w !! b = Some (Some (cells xs cap)) ->
  len xs < cap <= alloc_max ->
  PushBack this v w =
  Ret tt (mkWorld
            (<[this := mkDynamicArray (Ptr b 0) (Ptr b (len xs + 1)) (Ptr b cap)]> (objs w))
            (<[b := Some (cells (xs ++ [v]) cap)]> (heap w))
            (EvConstruct (Ptr b (len xs)) v :: log w)).
Proof.
  intros Hobj Hblk Hcap. apply returns_world. unfold returns, PushBack.
  assert (Hown : owns w this xs cap) by (apply (owns_block _ _ _ _ b); auto; lia).
  apply wpg_bind. eapply wpg_size; [exact Hown|].
  apply wpg_bind. eapply wpg_capacity; [exact Hown|].
  destruct (Z.eqb_spec (len xs) cap); [lia|].
  apply wpg_bind, wpg_ret.
  apply wpg_bind. eapply wpg_get_tail; [exact Hobj|cbn [tail]].
  apply wpg_bind. eapply wpg_construct_push; [exact Hblk|reflexivity|lia|].
  set (w2 := mkWorld (objs w) _ _).
  assert (Hd2 : objs w2 !! this = Some (mkDynamicArray (Ptr b 0) (Ptr b (len xs)) (Ptr b cap)))
    by exact Hobj.
  apply wpg_bind. eapply wpg_get_tail; [exact Hd2|cbn [tail]].
  apply wpg_bind, wpg_padd.
  eapply wpg_set_tail; [exact Hd2|cbn [head tailCap]].
  reflexivity.
Qed.

(** [push_back] on a full container: reallocation, then one more
    construction in the new block. *)
Lemma PushBack_full_exact (w : world) this (xs : list T) v :
  owns w this xs (len xs) ->
  grown (len xs) <= alloc_max ->
  PushBack this v w =
  Ret tt (let b := length (heap w) in
          mkWorld
            (<[this := mkDynamicArray (Ptr b 0) (Ptr b (len xs + 1)) (Ptr b (grown (len xs)))]>
               (objs w))
            (heap w ++ [Some (cells (xs ++ [v]) (grown (len xs)))])
            (EvConstruct (Ptr b (len xs)) v ::
             copy_events b xs ++ EvAllocate (grown (len xs)) (Ptr b 0) :: log w)).
Proof.
  intros Hown Hg. apply returns_world. unfold returns, PushBack.
  pose proof (len_nonneg xs) as Hl.
  pose proof (grown_gt (len xs) Hl) as Hgt.
  destruct (owns_obj _ _ _ _ Hown) as [d Hd].
  apply wpg_bind. eapply wpg_size; [exact Hown|].
  apply wpg_bind. eapply wpg_capacity; [exact Hown|].
  rewrite Z.eqb_refl.
  apply wpg_bind. unfold AmortizedGrow. apply wpg_bind.
  unfold wpg at 1. rewrite (AmortizedGrowSize_owns _ _ _ _ Hown) by exact Hg.
  unfold wpg at 1. rewrite (Realloc_exact _ _ _ _ _ Hown) by lia.
  set (b := length (heap w)).
  set (w1 := reallocated w this xs (grown (len xs))).
  assert (Hd1 : objs w1 !! this =
                Some (mkDynamicArray (Ptr b 0) (Ptr b (len xs)) (Ptr b (grown (len xs))))).
  { apply list_lookup_insert_eq. eapply lookup_lt_Some, Hd. }
  apply wpg_bind. eapply wpg_get_tail; [exact Hd1|cbn [tail]].
  apply wpg_bind. eapply wpg_construct_push.
  { apply list_lookup_middle. reflexivity. }
  { reflexivity. }
  { lia. }
  set (w2 := mkWorld (objs w1) _ _).
  assert (Hd2 : objs w2 !! this =
                Some (mkDynamicArray (Ptr b 0) (Ptr b (len xs)) (Ptr b (grown (len xs)))))
    by exact Hd1.
  apply wpg_bind. eapply wpg_get_tail; [exact Hd2|cbn [tail]].
  apply wpg_bind, wpg_padd.
  eapply wpg_set_tail; [exact Hd2|cbn [head tailCap]].
  cbn zeta. fold b. apply world_eq; unfold upd, w2, w1, reallocated; cbn [objs heap log].
  - fold b. rewrite list_insert_insert_eq. reflexivity.
  - fold b. unfold b. rewrite insert_last. reflexivity.
  - reflexivity.
Qed.

End Exact.

(** ** Exact effects of destruction *)

Section Teardown.

Context {T : Type}.

Local Abbreviation M := (M T).
Local Abbreviation world := (world T).

Lemma destroy_events_S b lo m :
  destroy_events (T := T) b (lo - 1) (S m) =
  EvDestroy (Ptr b (lo - 1)) :: destroy_events b lo m.
Proof.
  unfold destroy_events. cbn [seq fmap list_fmap]. f_equal.
  - do 2 f_equal. lia.
  - rewrite <- seq_shift, <- list_fmap_compose. apply list_fmap_ext.
    intros i j _. cbn. do 2 f_equal. lia.
Qed.

Lemma destroy_events_counts b lo m :
  teardowns (destroy_events (T := T) b lo m) = Z.of_nat m /\
  constructions (destroy_events (T := T) b lo m) = 0 /\
  allocations (destroy_events (T := T) b lo m) = 0.
Proof.
  unfold destroy_events. generalize 0%nat.
  induction m as [|m IH]; intros s; [repeat split|].
  cbn [seq fmap list_fmap teardowns constructions allocations].
  destruct (IH (S s)) as (H1 & H2 & H3). unfold fmap in *.
  rewrite H1, H2, H3. repeat split; lia.
Qed.

(** The destroy loop of [Clear] and [resize], with its trace. *)
Lemma destroy_loop_exact U (w : world) this b (xs : list T) cap t tc m
    (Q : unit -> world -> Prop) E :
  objs w !! this = Some (mkDynamicArray (Ptr b 0) t tc) ->
  heap w !! b = Some (Some (cells xs cap)) ->
  len xs <= cap -> (m <= length xs)%nat ->
  Q tt (mkWorld (objs w)
          (<[b := Some (cells (take (length xs - m) xs) cap)]> (heap w))
          (destroy_events b (len xs - Z.of_nat m) m ++ log w)) ->
  wpg U (for_down (len xs) m (fun i =>
           h <- get_head this ;; p <- padd h i ;; destroy p)) Q E w.
Proof.
  intros Hobj Hblk Hcap Hm HQ.
  apply (for_down_rule _ (fun k w' =>
    w' = mkWorld (objs w)
           (<[b := Some (cells (take (length xs - k) xs) cap)]> (heap w))
           (destroy_events b (len xs - Z.of_nat k) k ++ log w))).
  - rewrite Nat.sub_0_r, take_ge by lia.
    rewrite (list_insert_id _ _ _ Hblk). destruct w; reflexivity.
  - intros k w' Hk ->.
    assert (Hlt : (length xs - S k < length xs)%nat) by lia.
    destruct (lookup_lt_is_Some_2 xs _ Hlt) as [x Hx].
    apply wpg_bind. eapply wpg_get_head; [exact Hobj|cbn [head]].
    apply wpg_bind, wpg_padd. rewrite Z.add_0_l.
    assert (Hlen : length (take (length xs - S k) xs) = (length xs - S k)%nat)
      by (rewrite length_take; lia).
    eapply (wpg_destroy_pop _ _ _ _ (take (length xs - S k) xs) cap x).
    { cbn [heap]. rewrite <- (take_S_r _ _ _ Hx).
      replace (S (length xs - S k)) with (length xs - k)%nat by lia.
      apply list_lookup_insert_eq. eapply lookup_lt_Some, Hblk. }
    { unfold len. lia. }
    { unfold len in *. lia. }
    cbn [objs heap log]. rewrite list_insert_insert_eq.
    replace (len xs - Z.of_nat (S k)) with (len xs - Z.of_nat k - 1) by lia.
    replace (len xs - 1 - Z.of_nat k) with (len xs - Z.of_nat k - 1) by lia.
    rewrite destroy_events_S. reflexivity.
  - intros w' ->. exact HQ.
Qed.

(** [Clear()] on a container that owns a block. *)
Lemma Clear_block_exact (w : world) this b (xs : list T) cap :
  objs w !! this = Some (mkDynamicArray (Ptr b 0) (Ptr b (len xs)) (Ptr b cap)) ->
  heap w !! b = Some (Some (cells xs cap)) ->
  len xs <= cap <= alloc_max ->
  Clear this w = Ret tt (destroyed w b xs cap).
Proof.
  intros Hobj Hblk Hcap. apply returns_world. unfold returns, Clear.
  assert (Hown : owns w this xs cap) by (apply (owns_block _ _ _ _ b); auto; lia).
  apply wpg_bind. eapply wpg_size; [exact Hown|].
  unfold len at 2. rewrite Nat2Z.id.
  apply wpg_bind.
  eapply destroy_loop_exact; [exact Hobj|exact Hblk|lia|lia|].
  rewrite Nat.sub_diag, take_0.
  replace (len xs - Z.of_nat (length xs)) with 0 by (unfold len; lia).
  set (w1 := mkWorld (objs w) _ _).
  assert (Hobj1 : objs w1 !! this = Some (mkDynamicArray (Ptr b 0) (Ptr b (len xs)) (Ptr b cap)))
    by exact Hobj.
  assert (Hblk1 : heap w1 !! b = Some (Some (cells [] cap))).
  { apply list_lookup_insert_eq. eapply lookup_lt_Some, Hblk. }
  apply wpg_bind. eapply wpg_get_head; [exact Hobj1|cbn [head]].
  apply wpg_bind. unfold wpg at 1. rewrite capacity_cursors, Hobj1.
  cbn [tailCap head ptr_diff]. rewrite Nat.eqb_refl, Z.sub_0_r.
  pose proof (len_nonneg xs).
  rewrite wrap_small by (apply alloc_max_size_t; lia).
  eapply wpg_deallocate; [exact Hblk1| |].
  { rewrite length_cells by (unfold len; cbn; lia). lia. }
  unfold destroyed, set_heap, w1. cbn [objs heap log].
  rewrite list_insert_insert_eq. reflexivity.
Qed.

(** [Clear()] on the empty sentinel: the allocator is still asked to
    deallocate, a null pointer and zero slots. *)
Lemma Clear_null_exact (w : world) this :
  objs w !! this = Some null_array ->
  Clear this w =
  Ret tt (mkWorld (objs w) (heap w) (EvDeallocate (T := T) Null 0 :: log w)).
Proof.
  intros Hobj. apply returns_world. unfold returns, Clear.
  assert (Hown : owns w this [] 0) by (apply owns_null; auto).
  apply wpg_bind. eapply wpg_size; [exact Hown|].
  cbn [len length Z.of_nat Z.to_nat for_down]. apply wpg_bind, wpg_ret.
  apply wpg_bind. eapply wpg_get_head; [exact Hobj|cbn [head null_array]].
  apply wpg_bind. eapply wpg_capacity; [exact Hown|].
  apply wpg_deallocate_null. reflexivity.
Qed.

(** [pop_back()] on a non-empty container: one destroy call, in place. *)
Lemma pop_back_exact (w : world) this b (xs : list T) x cap :
  objs w !! this = Some (mkDynamicArray (Ptr b 0) (Ptr b (len xs + 1)) (Ptr b cap)) ->
  heap w !! b = Some (Some (cells (xs ++ [x]) cap)) ->
  len xs < cap ->
  pop_back this w =
  Ret tt (mkWorld
            (<[this := mkDynamicArray (Ptr b 0) (Ptr b (len xs)) (Ptr b cap)]> (objs w))
            (<[b := Some (cells xs cap)]> (heap w))
            (EvDestroy (Ptr b (len xs)) :: log w)).
Proof.
  intros Hobj Hblk Hcap. apply returns_world. unfold returns, pop_back.
  apply wpg_bind. eapply wpg_get_tail; [exact Hobj|cbn [tail]].
  apply wpg_bind, wpg_padd.
  replace (len xs + 1 + -1) with (len xs) by lia.
  apply wpg_bind. eapply wpg_destroy_pop; [exact Hblk|reflexivity|lia|].
  set (w2 := mkWorld (objs w) _ _).
  assert (Hd2 : objs w2 !! this = Some (mkDynamicArray (Ptr b 0) (Ptr b (len xs + 1)) (Ptr b cap)))
    by exact Hobj.
  apply wpg_bind. eapply wpg_get_tail; [exact Hd2|cbn [tail]].
  apply wpg_bind, wpg_padd.
  eapply wpg_set_tail; [exact Hd2|cbn [head tailCap]].
  replace (len xs + 1 + -1) with (len xs) by lia. reflexivity.
Qed.

End Teardown.

(** ** Element access *)

Section Reading.

Context {T : Type}.

Local Abbreviation M := (M T).
Local Abbreviation world := (world T).

Lemma load_cells (w : world) b (xs : list T) cap k x :
  heap w !! b = Some (Some (cells xs cap)) -> xs !! k = Some x ->
  load (Ptr b (Z.of_nat k)) w = Ret x w.
Proof.
  intros Hblk Hx. unfold load.
  rewrite (slot_at_block _ _ _ _ Hblk), Nat2Z.id by lia.
  rewrite (cells_lookup_live _ _ _ _ Hx). reflexivity.
Qed.

(** No slot at or after [size()] can be read. *)
Lemma load_cells_beyond (w : world) b (xs : list T) cap o :
  heap w !! b = Some (Some (cells xs cap)) -> len xs <= cap -> len xs <= o ->
  load (Ptr b o) w = Undefined.
Proof.
  intros Hblk Hcap Ho. unfold load.
  pose proof (len_nonneg xs).
  rewrite (slot_at_block _ _ _ _ Hblk) by lia.
  destruct (decide (o < cap)) as [Hlt|Hge].
  - rewrite cells_lookup_raw; [reflexivity|unfold len in *; lia|lia].
  - rewrite (proj2 (lookup_ge_None _ _)); [reflexivity|].
    rewrite length_cells by exact Hcap. lia.
Qed.

Lemma load_before_block (w : world) b o : o < 0 -> load (T := T) (Ptr b o) w = Undefined.
Proof.
  intros Ho. unfold load, slot_at. destruct (Z.ltb_spec o 0); [reflexivity|lia].
Qed.

Lemma read_front_owns (w : world) this (xs : list T) cap x :
  owns w this xs cap -> xs !! 0%nat = Some x -> read_front this w = Ret x w.
Proof.
  intros Hown Hx. destruct Hown as [_ -> _|b Hobj Hblk _ _]; [discriminate|].
  unfold read_front, front, get_head, this_obj, bind. rewrite Hobj. cbn [head ret].
  apply (load_cells w b xs cap 0 x Hblk Hx).
Qed.

Lemma read_back_owns (w : world) this (xs : list T) cap y :
  owns w this (xs ++ [y]) cap -> read_back this w = Ret y w.
Proof.
  intros Hown.
  destruct Hown as [_ Hnil _|b Hobj Hblk _ _]; [destruct xs; discriminate|].
  unfold read_back, back, get_tail, this_obj, bind. rewrite Hobj.
  cbn [tail ret padd ptr_add lift]. rewrite len_snoc.
  replace (len xs + 1 + -1) with (Z.of_nat (length xs)) by (unfold len; lia).
  apply (load_cells w b (xs ++ [y]) cap (length xs) y Hblk).
  apply list_lookup_middle. reflexivity.
Qed.

Lemma walk_back_cells (w : world) b (xs : list T) cap (ys zs : list T) :
  heap w !! b = Some (Some (cells xs cap)) -> xs = ys ++ zs ->
  walk_back (length ys) (Ptr b (len ys)) (Ptr b 0) w = Ret (rev ys) w.
Proof.
  intros Hblk. revert zs. induction ys as [|y ys IH] using rev_ind; intros zs Hxs.
  - cbn [length walk_back]. change (len (@nil T)) with 0.
    rewrite ptr_eqb_refl. reflexivity.
  - rewrite length_app. cbn [length]. rewrite Nat.add_1_r. cbn [walk_back].
    replace (ptr_eqb (Ptr b (len (ys ++ [y]))) (Ptr b 0)) with false.
    2:{ cbn. rewrite Nat.eqb_refl. symmetry. apply Z.eqb_neq.
        rewrite len_snoc. pose proof (len_nonneg ys). lia. }
    unfold bind at 1. cbn [padd ptr_add lift ret]. rewrite len_snoc.
    replace (len ys + 1 + -1) with (Z.of_nat (length ys)) by (unfold len; lia).
    unfold bind at 1.
    rewrite (load_cells w b xs cap (length ys) y Hblk).
    2:{ rewrite Hxs, <- app_assoc. apply list_lookup_middle. reflexivity. }
    unfold bind. fold (len ys). rewrite (IH ([y] ++ zs)).
    + rewrite rev_unit. reflexivity.
    + rewrite Hxs, <- app_assoc. reflexivity.
Qed.

Lemma iterate_back_owns (w : world) this (xs : list T) cap :
  owns w this xs cap -> iterate_back this w = Ret (rev xs) w.
Proof.
  intros Hown. apply returns_eq. unfold returns, iterate_back, rbegin, rend, begin_, end_.
  destruct Hown as [Hobj -> _|b Hobj Hblk _ _].
  - apply wpg_bind. eapply wpg_get_tail; [exact Hobj|].
    apply wpg_bind. eapply wpg_get_head; [exact Hobj|].
    apply wpg_bind. eapply wpg_lift; [reflexivity|]. split; reflexivity.
  - apply wpg_bind. eapply wpg_get_tail; [exact Hobj|].
    apply wpg_bind. eapply wpg_get_head; [exact Hobj|]. cbn [head tail].
    apply wpg_bind. eapply wpg_lift.
    { cbn. rewrite Nat.eqb_refl. reflexivity. }
    rewrite Z.sub_0_r. unfold len at 1. rewrite Nat2Z.id.
    pose proof (walk_back_cells w b xs cap xs [] Hblk (eq_sym (app_nil_r xs))) as Hwalk.
    unfold wpg. rewrite Hwalk. split; reflexivity.
Qed.

End Reading.

(** ** More facts about the scenarios *)

Lemma w_spare_owns : owns w_spare 0 [7; 8] 4.
Proof.
  apply (owns_block _ _ _ _ 0%nat); [reflexivity|reflexivity| |];
    unfold len, alloc_max, PTRDIFF_MAX; cbn; lia.
Defined.

Lemma w_null_owns : owns w_null 0 [] 0.
Proof. apply owns_null; reflexivity. Defined.

(** ** Construction with a fill value, and refused allocations *)

(** X1: [DynamicArray(n, value)] builds a container of size [n] and
    capacity [n] holding [n] copies of the value, whenever the allocator
    grants [n] slots. *)
Theorem X1_fill_constructor {T : Type} (w : world T) (n : Z) (v : T) :
  0 <= n <= alloc_max ->
  exists w', DynamicArray_ctor_fill n v w = Ret (length (objs w)) w' /\
             size (length (objs w)) w' = Ret n w' /\
             capacity (length (objs w)) w' = Ret n w' /\
             iterate (length (objs w)) w' = Ret (replicate (Z.to_nat n) v) w' /\
             (forall k, 0 <= k < n -> read_index (length (objs w)) k w' = Ret v w').
Proof.
  intros Hn.
  destruct (returns_inv _ _ _ (DynamicArray_ctor_fill_owns w n v Hn))
    as (this & w' & Hrun & -> & Hown).
  exists w'. split; [exact Hrun|].
  assert (Hlen : len (replicate (Z.to_nat n) v) = n).
  { unfold len. rewrite length_replicate. lia. }
  split; [rewrite (owns_size _ _ _ _ Hown), Hlen; reflexivity|].
  split; [apply (owns_capacity _ _ _ _ Hown)|].
  split; [apply (iterate_owns _ _ _ _ Hown)|].
  intros k Hk.
  pose proof (read_index_owns w' _ _ _ (Z.to_nat k) v Hown) as Hread.
  rewrite Z2Nat.id in Hread by lia. apply Hread.
  apply lookup_replicate_2. lia.
Qed.

Lemma X1_witness :
  0 <= 3 <= alloc_max /\
  exists w', DynamicArray_ctor_fill 3 5 w_seven = Ret 1%nat w' /\
             size 1 w' = Ret 3 w' /\
             capacity 1 w' = Ret 3 w' /\
             iterate 1 w' = Ret [5; 5; 5] w'.
Proof.
  assert (Hn : 0 <= 3 <= alloc_max) by (split; vm_compute; discriminate).
  split; [exact Hn|].
  destruct (X1_fill_constructor w_seven 3 5 Hn) as (w' & Hrun & Hs & Hc & Hi & _).
  exists w'. split; [exact Hrun|]. split; [exact Hs|]. split; [exact Hc|exact Hi].
Defined.

(** X2: a request the allocator refuses is refused before anything is
    touched: [reserve], a growing [resize] and the fill constructor throw
    [bad_alloc] and leave the world exactly as it was. *)
Theorem X2_refused_allocation {T : Type} (w : world T) (low : Z) (this : nat)
    (xs : list T) (cap n : Z) (v : T) :
  owns w this xs cap ->
  alloc_max < n ->
  reserve this n w = Throw bad_alloc w /\
  resize low this n v w = Throw bad_alloc w /\
  DynamicArray_ctor_fill n v w = Throw bad_alloc w.
Proof.
  intros Hown Hn. pose proof (owns_bounds _ _ _ _ Hown) as [Hb Hc].
  assert (Hre : Reallocate (T := T) this n w = Throw bad_alloc w).
  { unfold Reallocate, Realloc, bind, allocate.
    destruct (Z.ltb_spec alloc_max n); [reflexivity|lia]. }
  split; [|split].
  - unfold reserve, bind. rewrite (owns_size _ _ _ _ Hown).
    destruct (Z.ltb_spec (len xs) n); [exact Hre|lia].
  - unfold resize, bind. rewrite (owns_size _ _ _ _ Hown).
    destruct (Z.ltb_spec (len xs) n); [|lia]. rewrite Hre. reflexivity.
  - unfold DynamicArray_ctor_fill, Init_fill, bind, allocate.
    destruct (Z.ltb_spec alloc_max n); [reflexivity|lia].
Qed.

Lemma X2_witness :
  owns w_seven 0 [7] 1 /\
  alloc_max < alloc_max + 1 /\
  reserve 0 (alloc_max + 1) w_seven = Throw bad_alloc w_seven /\
  resize 0 0 (alloc_max + 1) 9 w_seven = Throw bad_alloc w_seven /\
  DynamicArray_ctor_fill (alloc_max + 1) 9 w_seven = Throw bad_alloc w_seven.
Proof.
  assert (Hn : alloc_max < alloc_max + 1) by (vm_compute; reflexivity).
  split; [exact w_seven_owns|]. split; [exact Hn|].
  exact (X2_refused_allocation w_seven 0 0 [7] 1 (alloc_max + 1) 9 w_seven_owns Hn).
Defined.

(** ** Destruction *)

(** X3: the destructor destroys every live element exactly once, from the
    last to the first, then deallocates the block with [capacity()] slots;
    it makes no other allocator call and leaves the cursors of the object
    as they were.  On the empty sentinel it only calls
    [deallocate(nullptr, 0)]. *)
Theorem X3_destructor_trace {T : Type} (w : world T) (this : nat) (xs : list T) (cap : Z) :
  owns w this xs cap ->
  exists w', destructor this w = Ret tt w' /\
             objs w' = objs w /\
             teardowns (log w') = teardowns (log w) + len xs + 1 /\
             constructions (log w') = constructions (log w) /\
             allocations (log w') = allocations (log w) /\
             (forall b, data this w = Ret (Ptr b 0) w ->
                heap w' = <[b := None]> (heap w) /\
                log w' = EvDeallocate (Ptr b 0) cap ::
                         destroy_events b 0 (length xs) ++ log w) /\
             (data this w = Ret Null w ->
                heap w' = heap w /\ log w' = EvDeallocate Null 0 :: log w).
Proof.
  intros Hown. pose proof (owns_bounds _ _ _ _ Hown) as [Hb Hc].
  unfold destructor. destruct Hown as [Hobj -> ->|b Hobj Hblk _ _].
  - eexists. split; [apply (Clear_null_exact _ _ Hobj)|].
    cbn [objs heap log teardowns constructions allocations].
    split; [reflexivity|]. split; [change (len (@nil T)) with 0; lia|].
    split; [reflexivity|]. split; [reflexivity|].
    assert (Hdata : data this w = Ret Null w).
    { unfold data, get_head, this_obj, bind. rewrite Hobj. reflexivity. }
    split; [intros b Hb'; rewrite Hdata in Hb'; discriminate|].
    intros _. split; reflexivity.
  - eexists. split; [apply (Clear_block_exact _ _ _ _ _ Hobj Hblk); lia|].
    unfold destroyed. cbn [objs heap log].
    destruct (destroy_events_counts (T := T) b 0 (length xs)) as (Ht & Hcs & Hal).
    split; [reflexivity|].
    cbn [teardowns constructions allocations].
    rewrite teardowns_app, constructions_app, allocations_app, Ht, Hcs, Hal.
    split; [unfold len; lia|]. split; [lia|]. split; [lia|].
    assert (Hdata : data this w = Ret (Ptr b 0) w).
    { unfold data, get_head, this_obj, bind. rewrite Hobj. reflexivity. }
    split.
    + intros b' Hb'. rewrite Hdata in Hb'. injection Hb' as <-. split; reflexivity.
    + intros Hnull. rewrite Hdata in Hnull. discriminate.
Qed.

Lemma X3_witness :
  owns w_spare 0 [7; 8] 4 /\
  exists w', destructor 0 w_spare = Ret tt w' /\
             heap w' = [None] /\
             log w' = [EvDeallocate (Ptr 0 0) 4; EvDestroy (Ptr 0 0); EvDestroy (Ptr 0 1)].
Proof.
  split; [exact w_spare_owns|].
  destruct (X3_destructor_trace w_spare 0 [7; 8] 4 w_spare_owns)
    as (w' & Hrun & _ & _ & _ & _ & Hblock & _).
  destruct (Hblock 0%nat eq_refl) as [Hheap Hlog].
  exists w'. split; [exact Hrun|]. split; [exact Hheap|exact Hlog].
Defined.

(** X4: [clear()] leaves a container that is empty, that can be filled
    again, and whose destructor then releases nothing: the cursors were
    reset, so the block is not freed twice. *)
Theorem X4_clear_then_reuse {T : Type} (w : world T) (this : nat) (xs : list T)
    (cap : Z) (v : T) :
  owns w this xs cap ->
  exists w1, clear this w = Ret tt w1 /\
             owns w1 this [] 0 /\
             empty this w1 = Ret true w1 /\
             (forall b, data this w = Ret (Ptr b 0) w -> heap w1 !! b = Some None) /\
             (exists w2, destructor this w1 = Ret tt w2 /\ heap w2 = heap w1) /\
             (exists w2, push_back this v w1 = Ret tt w2 /\
                         iterate this w2 = Ret [v] w2 /\
                         capacity this w2 = Ret 1 w2).
Proof.
  intros Hown. destruct (owns_obj _ _ _ _ Hown) as [d Hd].
  destruct (returns_inv _ _ _ (Clear_returns w this xs cap Hown))
    as ([] & wc & Hclear & Hoc & Hfreed).
  assert (Hdc : objs wc !! this = Some d) by (rewrite Hoc; exact Hd).
  set (w1 := mkWorld (<[this := null_array]> (objs wc)) (heap wc) (log wc)).
  assert (Hrun : clear this w = Ret tt w1).
  { apply returns_world. unfold returns, clear. apply wpg_bind.
    unfold wpg at 1. rewrite Hclear.
    eapply wpg_bind, wpg_set_head; [exact Hdc|].
    eapply wpg_bind, wpg_set_tail; [apply (objs_upd_eq _ _ _ _ Hdc)|cbn [head tailCap]].
    eapply wpg_set_tailCap; [eapply objs_upd_eq, objs_upd_eq, Hdc|cbn [head tail]].
    unfold upd, w1. cbn [objs heap log]. rewrite !list_insert_insert_eq. reflexivity. }
  assert (Hnull : objs w1 !! this = Some null_array).
  { apply list_lookup_insert_eq. eapply lookup_lt_Some, Hdc. }
  assert (Hown1 : owns w1 this [] 0) by (apply owns_null; auto).
  exists w1. split; [exact Hrun|]. split; [exact Hown1|]. split.
  { unfold empty, bind. rewrite (owns_size _ _ _ _ Hown1). reflexivity. }
  split.
  { intros b Hdata. apply (Hfreed b d Hd).
    revert Hdata. unfold data, get_head, this_obj, bind. rewrite Hd.
    intros [= ->]. reflexivity. }
  split.
  { eexists. split; [apply (Clear_null_exact _ _ Hnull)|reflexivity]. }
  destruct (returns_inv _ _ _ (PushBack_returns w1 this [] 0 v Hown1
              ltac:(intros _; vm_compute; discriminate)))
    as ([] & w2 & Hpush & Hown2 & _).
  exists w2. split; [exact Hpush|].
  split; [apply (iterate_owns _ _ _ _ Hown2)|apply (owns_capacity _ _ _ _ Hown2)].
Qed.

Lemma X4_witness :
  owns w_spare 0 [7; 8] 4 /\
  exists w1, clear 0 w_spare = Ret tt w1 /\
             size 0 w1 = Ret 0 w1 /\
             heap w1 !! 0%nat = Some None /\
             exists w2, push_back 0 9 w1 = Ret tt w2 /\ iterate 0 w2 = Ret [9] w2.
Proof.
  split; [exact w_spare_owns|].
  destruct (X4_clear_then_reuse w_spare 0 [7; 8] 4 9 w_spare_owns)
    as (w1 & Hrun & Hown1 & _ & Hfreed & _ & w2 & Hpush & Hiter & _).
  exists w1. split; [exact Hrun|]. split; [exact (owns_size _ _ _ _ Hown1)|].
  split; [exact (Hfreed 0%nat eq_refl)|].
  exists w2. split; [exact Hpush|exact Hiter].
Defined.

(** ** Element access *)

Section AccessFacts.

Context {T : Type}.

Local Abbreviation M := (M T).
Local Abbreviation world := (world T).

Lemma data_owns_block (w : world) this b t c :
  objs w !! this = Some (mkDynamicArray (Ptr b 0) t c) ->
  data this w = Ret (Ptr b 0) w.
Proof.
  intros Hobj. unfold data, get_head, this_obj, bind. rewrite Hobj. reflexivity.
Qed.

Lemma back_owns (w : world) this (xs : list T) x cap :
  owns w this (xs ++ [x]) cap ->
  exists b, back this w = Ret (Ptr b (len xs)) w /\
            objs w !! this = Some (mkDynamicArray (Ptr b 0) (Ptr b (len xs + 1)) (Ptr b cap)) /\
            heap w !! b = Some (Some (cells (xs ++ [x]) cap)).
Proof.
  intros Hown. pose proof (owns_bounds _ _ _ _ Hown) as [Hb Hc].
  destruct Hown as [_ Hnil _|b Hobj Hblk _ _]; [destruct xs; discriminate|].
  rewrite len_snoc in Hobj. exists b. split; [|split; assumption].
  unfold back, get_tail, this_obj, bind. rewrite Hobj.
  cbn [tail ret padd ptr_add lift]. do 3 f_equal. lia.
Qed.

(** Reading at any index from [size()] on through [operator[]] has no
    defined result. *)
Lemma read_index_beyond (w : world) this (xs : list T) cap i :
  owns w this xs cap -> len xs <= i -> read_index this i w = Undefined.
Proof.
  intros Hown Hi. pose proof (len_nonneg xs) as Hl.
  destruct Hown as [Hobj -> ->|b Hobj Hblk Hcap _].
  - unfold read_index, operator_index, get_head, this_obj, bind. rewrite Hobj.
    unfold null_array, padd. cbn [head ret ptr_add].
    destruct (Z.eqb i 0); reflexivity.
  - unfold read_index, bind. erewrite operator_index_eq; [|exact Hobj|reflexivity].
    cbn [head]. apply (load_cells_beyond w b xs cap _ Hblk Hcap). lia.
Qed.

Lemma read_at_owns (w : world) this (xs : list T) cap i :
  owns w this xs cap ->
  read_at this i w =
  if Z.ltb (len xs) i then Throw out_of_range w else read_index this i w.
Proof.
  intros Hown. unfold read_at, read_index, bind at 1.
  rewrite (at_owns _ _ _ _ _ Hown).
  destruct (Z.ltb (len xs) i); reflexivity.
Qed.

End AccessFacts.

(** X5: [pop_back()] on a non-empty container destroys exactly the element
    [back()] refers to and makes no other allocator call; the remaining
    elements, the capacity and [data()] are as before, and no other object
    changes. *)
Theorem X5_pop_back_last_element {T : Type} (w : world T) (this : nat)
    (xs : list T) (x : T) (cap : Z) :
  owns w this (xs ++ [x]) cap ->
  exists w' p, pop_back this w = Ret tt w' /\
               back this w = Ret p w /\
               log w' = EvDestroy p :: log w /\
               owns w' this xs cap /\
               iterate this w' = Ret xs w' /\
               (forall q, data this w = Ret q w -> data this w' = Ret q w') /\
               (forall other, other <> this -> objs w' !! other = objs w !! other).
Proof.
  intros Hown. pose proof (owns_bounds _ _ _ _ Hown) as [Hb Hc].
  rewrite len_snoc in Hb.
  destruct (back_owns _ _ _ _ _ Hown) as (b & Hback & Hobj & Hblk).
  eexists. exists (Ptr b (len xs)).
  split; [apply (pop_back_exact _ _ _ _ _ _ Hobj Hblk); lia|].
  split; [exact Hback|]. cbn [log]. split; [reflexivity|].
  set (w' := mkWorld _ _ _).
  assert (Hobj' : objs w' !! this = Some (mkDynamicArray (Ptr b 0) (Ptr b (len xs)) (Ptr b cap))).
  { apply list_lookup_insert_eq. eapply lookup_lt_Some, Hobj. }
  assert (Hown' : owns w' this xs cap).
  { apply (owns_block _ _ _ _ b); [exact Hobj'| |lia|exact Hc].
    apply list_lookup_insert_eq. eapply lookup_lt_Some, Hblk. }
  split; [exact Hown'|]. split; [apply (iterate_owns _ _ _ _ Hown')|]. split.
  - intros q Hq. rewrite (data_owns_block _ _ _ _ _ Hobj) in Hq. injection Hq as <-.
    apply (data_owns_block _ _ _ _ _ Hobj').
  - intros other Hne. apply list_lookup_insert_ne. congruence.
Qed.

Lemma X5_witness :
  owns w_spare 0 ([7] ++ [8]) 4 /\
  exists w', pop_back 0 w_spare = Ret tt w' /\
             log w' = [EvDestroy (Ptr 0 1)] /\
             iterate 0 w' = Ret [7] w'.
Proof.
  split; [exact w_spare_owns|].
  destruct (X5_pop_back_last_element w_spare 0 [7] 8 4 w_spare_owns)
    as (w' & p & Hrun & Hback & Hlog & _ & Hiter & _).
  injection Hback as <-.
  exists w'. split; [exact Hrun|]. split; [exact Hlog|exact Hiter].
Defined.

(** X6: nothing guards the empty container: [pop_back()], reading
    [front()], reading [back()] and reading [operator[](0)] have no defined
    result when [size()] is zero, with or without spare capacity. *)
Theorem X6_empty_container_access {T : Type} (w : world T) (this : nat) (cap : Z) :
  owns w this [] cap ->
  pop_back this w = Undefined /\
  read_front this w = Undefined /\
  read_back this w = Undefined /\
  read_index this 0 w = Undefined.
Proof.
  intros Hown.
  assert (Hidx : read_index this 0 w = Undefined).
  { apply (read_index_beyond w this [] cap 0 Hown). reflexivity. }
  split; [|split; [|split; [|exact Hidx]]].
  - destruct Hown as [Hobj _ _|b Hobj Hblk _ _];
      unfold pop_back, get_tail, this_obj, bind; rewrite Hobj; reflexivity.
  - destruct Hown as [Hobj _ _|b Hobj Hblk Hcap _];
      unfold read_front, front, get_head, this_obj, bind; rewrite Hobj;
      cbn [head ret]; [reflexivity|].
    apply (load_cells_beyond w b [] cap 0 Hblk Hcap). reflexivity.
  - destruct Hown as [Hobj _ _|b Hobj Hblk _ _];
      unfold read_back, back, get_tail, this_obj, bind; rewrite Hobj; reflexivity.
Qed.

Lemma X6_witness :
  owns w_null 0 [] 0 /\
  pop_back 0 w_null = Undefined /\
  read_front 0 w_null = Undefined /\
  read_back 0 w_null = Undefined /\
  read_index 0 0 w_null = Undefined.
Proof.
  split; [exact w_null_owns|].
  exact (X6_empty_container_access w_null 0 0 w_null_owns).
Defined.

(** X7: [push_back(v)] followed by [pop_back()] gives back the elements
    there were; in between [back()] is [v].  The capacity [push_back]
    settled on stays. *)
Theorem X7_push_then_pop {T : Type} (w : world T) (this : nat) (xs : list T)
    (cap : Z) (v : T) :
  owns w this xs cap ->
  (len xs = cap -> grown cap <= alloc_max) ->
  exists w1 w2, push_back this v w = Ret tt w1 /\
                read_back this w1 = Ret v w1 /\
                size this w1 = Ret (len xs + 1) w1 /\
                pop_back this w1 = Ret tt w2 /\
                iterate this w2 = Ret xs w2 /\
                size this w2 = Ret (len xs) w2 /\
                capacity this w2 = Ret (capacity_after_push xs cap) w2.
Proof.
  intros Hown Hg.
  destruct (returns_inv _ _ _ (PushBack_returns w this xs cap v Hown Hg))
    as ([] & w1 & Hpush & Hown1 & _).
  destruct (returns_inv _ _ _ (pop_back_returns w1 this xs v _ Hown1))
    as ([] & w2 & Hpop & Hown2).
  exists w1, w2. split; [exact Hpush|].
  split; [apply (read_back_owns _ _ _ _ _ Hown1)|].
  split; [rewrite (owns_size _ _ _ _ Hown1), len_snoc; reflexivity|].
  split; [exact Hpop|].
  split; [apply (iterate_owns _ _ _ _ Hown2)|].
  split; [apply (owns_size _ _ _ _ Hown2)|apply (owns_capacity _ _ _ _ Hown2)].
Qed.

Lemma X7_witness :
  owns w_seven 0 [7] 1 /\
  (len [7] = 1 -> grown 1 <= alloc_max) /\
  exists w1 w2, push_back 0 8 w_seven = Ret tt w1 /\
                read_back 0 w1 = Ret 8 w1 /\
                pop_back 0 w1 = Ret tt w2 /\
                iterate 0 w2 = Ret [7] w2 /\
                capacity 0 w2 = Ret 2 w2.
Proof.
  assert (Hg : len [7] = 1 -> grown 1 <= alloc_max)
    by (intros _; vm_compute; discriminate).
  split; [exact w_seven_owns|]. split; [exact Hg|].
  destruct (X7_push_then_pop w_seven 0 [7] 1 8 w_seven_owns Hg)
    as (w1 & w2 & Hpush & Hback & _ & Hpop & Hiter & _ & Hcap).
  exists w1, w2. split; [exact Hpush|]. split; [exact Hback|].
  split; [exact Hpop|]. split; [exact Hiter|exact Hcap].
Defined.

(** X8: on a non-empty container [front()] refers to the first element and
    [back()] to the last: the elements [operator[]] gives at [0] and at
    [size() - 1]. *)
Theorem X8_front_and_back {T : Type} (w : world T) (this : nat) (xs : list T)
    (cap : Z) (x y : T) :
  owns w this xs cap ->
  xs !! 0%nat = Some x -> list.last xs = Some y ->
  read_front this w = Ret x w /\
  read_index this 0 w = Ret x w /\
  read_back this w = Ret y w /\
  read_index this (len xs - 1) w = Ret y w.
Proof.
  intros Hown Hx Hy.
  split; [apply (read_front_owns _ _ _ _ _ Hown Hx)|].
  split; [apply (read_index_owns _ _ _ _ 0 _ Hown Hx)|].
  destruct (exists_last (l := xs)) as (ys & y' & ->); [intros ->; discriminate|].
  rewrite last_snoc in Hy. injection Hy as ->.
  split; [apply (read_back_owns _ _ _ _ _ Hown)|].
  rewrite len_snoc. replace (len ys + 1 - 1) with (Z.of_nat (length ys)) by (unfold len; lia).
  apply (read_index_owns _ _ _ _ _ _ Hown). apply list_lookup_middle. reflexivity.
Qed.

Lemma X8_witness :
  owns w_spare 0 [7; 8] 4 /\
  read_front 0 w_spare = Ret 7 w_spare /\
  read_back 0 w_spare = Ret 8 w_spare.
Proof.
  split; [exact w_spare_owns|].
  destruct (X8_front_and_back w_spare 0 [7; 8] 4 7 8 w_spare_owns eq_refl eq_refl)
    as (Hf & _ & Hb & _).
  split; [exact Hf|exact Hb].
Defined.

(** X9: indexing.  Below [size()], [operator[]] and [at] read the same
    element.  From [size()] on, reading through [operator[]] has no defined
    result, spare capacity or not; [at] throws [out_of_range] and changes
    nothing for an index above [size()], but at [size()] itself it hands
    out a reference that cannot be read. *)
Theorem X9_indexing {T : Type} (w : world T) (this : nat) (xs : list T) (cap i : Z) :
  owns w this xs cap ->
  0 <= i ->
  (i < len xs -> exists x, xs !! Z.to_nat i = Some x /\
                           read_index this i w = Ret x w /\
                           read_at this i w = Ret x w) /\
  (len xs <= i -> read_index this i w = Undefined) /\
  (i = len xs -> read_at this i w = Undefined) /\
  (len xs < i -> read_at this i w = Throw out_of_range w).
Proof.
  intros Hown Hi. rewrite (read_at_owns _ _ _ _ _ Hown).
  split; [|split; [|split]].
  - intros Hlt. destruct (lookup_lt_is_Some_2 xs (Z.to_nat i)) as [x Hx];
      [unfold len in Hlt; lia|].
    exists x. split; [exact Hx|].
    pose proof (read_index_owns _ _ _ _ _ _ Hown Hx) as Hread.
    rewrite Z2Nat.id in Hread by exact Hi.
    destruct (Z.ltb_spec (len xs) i); [lia|]. split; exact Hread.
  - apply (read_index_beyond _ _ _ _ _ Hown).
  - intros ->. rewrite Z.ltb_irrefl.
    apply (read_index_beyond _ _ _ _ _ Hown). reflexivity.
  - intros Hgt. destruct (Z.ltb_spec (len xs) i); [reflexivity|lia].
Qed.

Lemma X9_witness :
  owns w_spare 0 [7; 8] 4 /\
  read_at 0 1 w_spare = Ret 8 w_spare /\
  read_index 0 2 w_spare = Undefined /\
  read_at 0 2 w_spare = Undefined /\
  read_at 0 3 w_spare = Throw out_of_range w_spare.
Proof.
  split; [exact w_spare_owns|].
  destruct (X9_indexing w_spare 0 [7; 8] 4 1 w_spare_owns ltac:(lia)) as (H1 & _).
  destruct (X9_indexing w_spare 0 [7; 8] 4 2 w_spare_owns ltac:(lia)) as (_ & H2 & H3 & _).
  destruct (X9_indexing w_spare 0 [7; 8] 4 3 w_spare_owns ltac:(lia)) as (_ & _ & _ & H4).
  destruct (H1 ltac:(unfold len; cbn; lia)) as (x & Hx & _ & Hat).
  injection Hx as <-.
  split; [exact Hat|]. split; [apply H2; unfold len; cbn; lia|].
  split; [apply H3; reflexivity|apply H4; unfold len; cbn; lia].
Defined.

(** X10: [release()] returns [data()] and resets the three cursors without
    any allocator call: the block stays allocated with its elements, which
    can still be read through the returned pointer, and the destructor of
    the released container frees nothing. *)
Theorem X10_release_hands_over_the_block {T : Type} (w : world T) (this : nat)
    (xs : list T) (cap : Z) :
  owns w this xs cap ->
  exists p w', release this w = Ret p w' /\
               data this w = Ret p w /\
               heap w' = heap w /\ log w' = log w /\
               owns w' this [] 0 /\
               (forall other, other <> this -> objs w' !! other = objs w !! other) /\
               (forall k x, xs !! k = Some x ->
                  (q <- padd p (Z.of_nat k) ;; load q) w' = Ret x w') /\
               (exists w'', destructor this w' = Ret tt w'' /\ heap w'' = heap w).
Proof.
  intros Hown. destruct (owns_obj _ _ _ _ Hown) as [d Hd].
  exists (head d). eexists. split; [apply (release_owns _ _ _ Hd)|].
  set (w' := mkWorld _ _ _).
  assert (Hnull : objs w' !! this = Some null_array).
  { apply list_lookup_insert_eq. eapply lookup_lt_Some, Hd. }
  split; [unfold data, get_head, this_obj, bind; rewrite Hd; reflexivity|].
  split; [reflexivity|]. split; [reflexivity|].
  split; [apply owns_null; auto|].
  split; [intros other Hne; apply list_lookup_insert_ne; congruence|].
  split.
  - intros k x Hx. destruct Hown as [_ -> _|b Hobj Hblk _ _]; [discriminate|].
    rewrite Hobj in Hd. injection Hd as <-. cbn [head].
    unfold bind, padd. cbn [ptr_add lift ret]. rewrite Z.add_0_l.
    apply (load_cells w' b xs cap k x Hblk Hx).
  - eexists. split; [apply (Clear_null_exact _ _ Hnull)|reflexivity].
Qed.

Lemma X10_witness :
  owns w_spare 0 [7; 8] 4 /\
  exists w', release 0 w_spare = Ret (Ptr 0 0) w' /\
             heap w' = heap w_spare /\
             size 0 w' = Ret 0 w' /\
             load (Ptr 0 1) w' = Ret 8 w'.
Proof.
  split; [exact w_spare_owns|].
  destruct (X10_release_hands_over_the_block w_spare 0 [7; 8] 4 w_spare_owns)
    as (p & w' & Hrun & Hdata & Hheap & _ & Hown' & _ & Hread & _).
  injection Hdata as <-.
  exists w'. split; [exact Hrun|]. split; [exact Hheap|].
  split; [exact (owns_size _ _ _ _ Hown')|].
  exact (Hread 1%nat 8 eq_refl).
Defined.

(** X11: a traversal from [begin()] to [end()] reads the elements in index
    order, one from [rbegin()] to [rend()] reads them in the opposite
    order, and [end() - begin()] is [size()]. *)
Theorem X11_traversals {T : Type} (w : world T) (this : nat) (xs : list T) (cap : Z) :
  owns w this xs cap ->
  iterate this w = Ret xs w /\
  iterate_back this w = Ret (rev xs) w /\
  (b <- begin_ this ;; e <- end_ this ;; pdiff e b) w = Ret (len xs) w /\
  (s <- size this ;; ret s) w = Ret (len xs) w.
Proof.
  intros Hown.
  split; [apply (iterate_owns _ _ _ _ Hown)|].
  split; [apply (iterate_back_owns _ _ _ _ Hown)|].
  split.
  - destruct Hown as [Hobj -> _|b Hobj _ _ _];
      unfold begin_, end_, get_head, get_tail, this_obj, bind, pdiff; rewrite Hobj;
      cbn [head tail ret]; rewrite Hobj; cbn [head tail ret ptr_diff lift null_array];
      [reflexivity|].
    rewrite Nat.eqb_refl, Z.sub_0_r. reflexivity.
  - unfold bind. rewrite (owns_size _ _ _ _ Hown). reflexivity.
Qed.

Lemma X11_witness :
  owns w_spare 0 [7; 8] 4 /\
  iterate 0 w_spare = Ret [7; 8] w_spare /\
  iterate_back 0 w_spare = Ret [8; 7] w_spare.
Proof.
  split; [exact w_spare_owns|].
  destruct (X11_traversals w_spare 0 [7; 8] 4 w_spare_owns) as (Hf & Hb & _).
  split; [exact Hf|exact Hb].
Defined.

(** ** The cost of growing *)

Section Growth.

Context {T : Type}.

Local Abbreviation M := (M T).
Local Abbreviation world := (world T).

Lemma grown_mono (a b : Z) : a <= b -> grown a <= grown b.
Proof.
  intros Hab. unfold grown.
  pose proof (Z.div_le_mono a b 2 ltac:(lia) Hab). lia.
Qed.

(** One [push_back], with the allocator calls it makes counted. *)
Lemma PushBack_counts (w : world) this (xs : list T) cap v :
  owns w this xs cap ->
  (len xs = cap -> grown cap <= alloc_max) ->
  exists w1, PushBack this v w = Ret tt w1 /\
             owns w1 this (xs ++ [v]) (capacity_after_push xs cap) /\
             constructions (log w1) =
               constructions (log w) + (if Z.eqb (len xs) cap then len xs + 1 else 1) /\
             allocations (log w1) =
               allocations (log w) + (if Z.eqb (len xs) cap then 1 else 0) /\
             teardowns (log w1) = teardowns (log w) /\
             (forall other, other <> this -> objs w1 !! other = objs w !! other).
Proof.
  intros Hown Hg.
  destruct (returns_inv _ _ _ (PushBack_returns w this xs cap v Hown Hg))
    as ([] & w1 & Hpush & Hown1 & Hothers & _).
  exists w1. split; [exact Hpush|]. split; [exact Hown1|].
  destruct (Z.eqb_spec (len xs) cap) as [Heq|Hne].
  - subst cap. rewrite (PushBack_full_exact w this xs v Hown (Hg eq_refl)) in Hpush.
    injection Hpush as <-. cbn [log constructions allocations teardowns].
    destruct (copy_events_counts (length (heap w)) xs) as (Hc & Ha & Ht).
    rewrite constructions_app, allocations_app, teardowns_app, Hc, Ha, Ht.
    cbn [constructions allocations teardowns].
    split; [lia|]. split; [lia|]. split; [lia|exact Hothers].
  - pose proof (owns_bounds _ _ _ _ Hown) as [Hb Hc].
    destruct Hown as [_ -> ->|b Hobj Hblk _ _]; [destruct Hne; reflexivity|].
    rewrite (PushBack_room_exact w this b xs cap v Hobj Hblk ltac:(lia)) in Hpush.
    injection Hpush as <-. cbn [log constructions allocations teardowns].
    split; [lia|]. split; [lia|]. split; [lia|exact Hothers].
Qed.

(** A run of [push_back]s: the constructions made are paid for by the
    capacity gained, two slots of capacity for each construction beyond
    one per element. *)
Lemma push_all_cost (this : nat) (vs : list T) : forall (w : world) (xs : list T) cap,
  owns w this xs cap ->
  2 * (len xs + len vs) <= alloc_max ->
  exists w' cap', push_all this vs w = Ret tt w' /\
                  owns w' this (xs ++ vs) cap' /\
                  constructions (log w') + 2 * cap <=
                    constructions (log w) + len vs + 2 * cap' /\
                  (cap <= grown (len xs) -> cap' <= grown (len xs + len vs)) /\
                  allocations (log w') <= allocations (log w) + len vs /\
                  teardowns (log w') = teardowns (log w).
Proof.
  induction vs as [|v vs IH]; intros w xs cap Hown Hbound.
  - exists w, cap. cbn [push_all]. rewrite app_nil_r. change (len (@nil T)) with 0.
    split; [reflexivity|]. split; [exact Hown|]. split; [lia|].
    split; [rewrite Z.add_0_r; auto|]. split; [lia|reflexivity].
  - pose proof (owns_bounds _ _ _ _ Hown) as [Hb Hc].
    assert (Hlen : len (v :: vs) = len vs + 1) by (unfold len; cbn [length]; lia).
    pose proof (len_nonneg vs) as Hvs.
    destruct (PushBack_counts w this xs cap v Hown) as (w1 & Hpush & Hown1 & Hc1 & Ha1 & Ht1 & _).
    { intros Heq. pose proof (grown_le_double cap ltac:(lia)). lia. }
    destruct (IH w1 (xs ++ [v]) _ Hown1) as (w' & cap' & Hrun & Hown' & Hc' & Hinv & Ha' & Ht').
    { rewrite len_snoc. lia. }
    exists w', cap'. cbn [push_all]. unfold bind, push_back. rewrite Hpush.
    split; [exact Hrun|].
    split; [rewrite <- app_assoc in Hown'; exact Hown'|].
    rewrite len_snoc in Hinv. rewrite Hlen, Hc1 in *. rewrite Ha1 in Ha'.
    unfold capacity_after_push in *.
    replace (len xs + (len vs + 1)) with (len xs + 1 + len vs) by lia.
    destruct (Z.eqb_spec (len xs) cap) as [Heq|Hne].
    + unfold grown in Hc'. 
      pose proof (Z_div_mod_eq_full cap 2) as Hdm.
      pose proof (Z.mod_pos_bound cap 2 ltac:(lia)) as Hm.
      split; [lia|]. split; [|split; [lia|congruence]].
      intros _. apply Hinv. rewrite Heq. apply grown_mono. lia.
    + split; [lia|]. split; [|split; [lia|congruence]].
      intros Hle. apply Hinv. etransitivity; [exact Hle|apply grown_mono; lia].
Qed.

(** [push_back]s that fit in the capacity there is: the block is the same
    afterwards, filled in place. *)
Lemma push_all_room (this : nat) (b : nat) (cap : Z) (vs : list T) : forall (w : world) (xs : list T),
  objs w !! this = Some (mkDynamicArray (Ptr b 0) (Ptr b (len xs)) (Ptr b cap)) ->
  heap w !! b = Some (Some (cells xs cap)) ->
  len xs + len vs <= cap <= alloc_max ->
  exists w', push_all this vs w = Ret tt w' /\
             objs w' = <[this := mkDynamicArray (Ptr b 0) (Ptr b (len xs + len vs)) (Ptr b cap)]>
                         (objs w) /\
             heap w' = <[b := Some (cells (xs ++ vs) cap)]> (heap w) /\
             constructions (log w') = constructions (log w) + len vs /\
             allocations (log w') = allocations (log w) /\
             teardowns (log w') = teardowns (log w).
Proof.
  induction vs as [|v vs IH]; intros w xs Hobj Hblk Hcap.
  - exists w. cbn [push_all]. rewrite app_nil_r. change (len (@nil T)) with 0.
    rewrite !Z.add_0_r, !list_insert_id by assumption.
    repeat split; reflexivity.
  - assert (Hlen : len (v :: vs) = len vs + 1) by (unfold len; cbn [length]; lia).
    pose proof (len_nonneg vs) as Hvs. rewrite Hlen in *.
    pose proof (PushBack_room_exact w this b xs cap v Hobj Hblk ltac:(lia)) as Hpush.
    set (w1 := mkWorld _ _ _) in Hpush.
    destruct (IH w1 (xs ++ [v])) as (w' & Hrun & Ho & Hh & Hc' & Ha' & Ht').
    { rewrite len_snoc. apply list_lookup_insert_eq. eapply lookup_lt_Some, Hobj. }
    { apply list_lookup_insert_eq. eapply lookup_lt_Some, Hblk. }
    { rewrite len_snoc. lia. }
    exists w'. cbn [push_all]. unfold bind, push_back. rewrite Hpush.
    split; [exact Hrun|].
    rewrite Ho, Hh, Hc', Ha', Ht'. unfold w1. cbn [objs heap log constructions allocations teardowns].
    rewrite !list_insert_insert_eq, len_snoc, <- app_assoc.
    replace (len xs + 1 + len vs) with (len xs + (len vs + 1)) by lia.
    repeat split; try reflexivity. lia.
Qed.

End Growth.

(** X12: [push_back]s that fit in the capacity there is never reallocate:
    [data()] and the capacity are as before, so pointers to the elements
    stay good; no block is allocated, one element is constructed per call,
    nothing is destroyed, and no other object changes. *)
Theorem X12_push_back_within_capacity {T : Type} (w : world T) (this : nat)
    (xs vs : list T) (cap : Z) :
  owns w this xs cap ->
  len xs + len vs <= cap ->
  exists w', push_all this vs w = Ret tt w' /\
             owns w' this (xs ++ vs) cap /\
             (forall p, data this w = Ret p w -> data this w' = Ret p w') /\
             length (heap w') = length (heap w) /\
             allocations (log w') = allocations (log w) /\
             constructions (log w') = constructions (log w) + len vs /\
             teardowns (log w') = teardowns (log w) /\
             (forall other, other <> this -> objs w' !! other = objs w !! other).
Proof.
  intros Hown Hfit. pose proof (owns_bounds _ _ _ _ Hown) as [Hb Hc].
  pose proof (len_nonneg vs) as Hvs.
  destruct Hown as [Hobj -> ->|b Hobj Hblk _ _].
  - assert (vs = []) as -> by (destruct vs; [reflexivity|unfold len in *; cbn in *; lia]).
    exists w. cbn [push_all app]. split; [reflexivity|].
    split; [apply owns_null; auto|]. split; [auto|].
    change (len (@nil T)) with 0. repeat split; try reflexivity. lia.
  - destruct (push_all_room this b cap vs w xs Hobj Hblk ltac:(lia))
      as (w' & Hrun & Ho & Hh & Hc' & Ha' & Ht').
    exists w'. split; [exact Hrun|].
    assert (Hobj' : objs w' !! this =
              Some (mkDynamicArray (Ptr b 0) (Ptr b (len xs + len vs)) (Ptr b cap))).
    { rewrite Ho. apply list_lookup_insert_eq. eapply lookup_lt_Some, Hobj. }
    split.
    { apply (owns_block _ _ _ _ b); [rewrite len_app; exact Hobj'| |rewrite len_app; lia|lia].
      rewrite Hh. apply list_lookup_insert_eq. eapply lookup_lt_Some, Hblk. }
    split.
    { intros p Hp. rewrite (data_owns_block _ _ _ _ _ Hobj) in Hp. injection Hp as <-.
      apply (data_owns_block _ _ _ _ _ Hobj'). }
    split; [rewrite Hh; apply length_insert|].
    split; [exact Ha'|]. split; [exact Hc'|]. split; [exact Ht'|].
    intros other Hne. rewrite Ho. apply list_lookup_insert_ne. congruence.
Qed.

Lemma X12_witness :
  owns w_spare 0 [7; 8] 4 /\
  len [7; 8] + len [1; 2] <= 4 /\
  exists w', push_all 0 [1; 2] w_spare = Ret tt w' /\
             iterate 0 w' = Ret [7; 8; 1; 2] w' /\
             data 0 w' = Ret (Ptr 0 0) w' /\
             allocations (log w') = 0.
Proof.
  assert (Hfit : len [7; 8] + len [1; 2] <= 4) by (vm_compute; discriminate).
  split; [exact w_spare_owns|]. split; [exact Hfit|].
  destruct (X12_push_back_within_capacity w_spare 0 [7; 8] [1; 2] 4 w_spare_owns Hfit)
    as (w' & Hrun & Hown' & Hdata & _ & Ha & _).
  exists w'. split; [exact Hrun|]. split; [exact (iterate_owns _ _ _ _ Hown')|].
  split; [exact (Hdata _ eq_refl)|exact Ha].
Defined.

(** X13: growth is amortised.  [N] calls of [push_back] on an empty
    container construct at most [4 N + 2] elements in all, copies made
    while reallocating included, and allocate at most [N] blocks.  They
    never destroy an element or deallocate a block: every block that was
    outgrown stays allocated. *)
Theorem X13_push_back_amortised {T : Type} (w : world T) (this : nat) (vs : list T) :
  owns w this [] 0 ->
  2 * len vs <= alloc_max ->
  exists w', push_all this vs w = Ret tt w' /\
             iterate this w' = Ret vs w' /\
             constructions (log w') <= constructions (log w) + 4 * len vs + 2 /\
             allocations (log w') <= allocations (log w) + len vs /\
             teardowns (log w') = teardowns (log w).
Proof.
  intros Hown Hbound.
  destruct (push_all_cost this vs w [] 0 Hown Hbound)
    as (w' & cap' & Hrun & Hown' & Hc & Hinv & Ha & Ht).
  cbn [app] in Hown'. change (len (@nil T)) with 0 in Hinv.
  exists w'. split; [exact Hrun|]. split; [apply (iterate_owns _ _ _ _ Hown')|].
  split; [|split; [exact Ha|exact Ht]].
  pose proof (len_nonneg vs) as Hvs.
  assert (Hcap : cap' <= grown (len vs)).
  { rewrite <- (Z.add_0_l (len vs)). apply Hinv. vm_compute. discriminate. }
  unfold grown in Hcap.
  pose proof (Z_div_mod_eq_full (len vs) 2) as Hdm.
  pose proof (Z.mod_pos_bound (len vs) 2 ltac:(lia)) as Hm.
  lia.
Qed.

Lemma X13_witness :
  owns w_null 0 [] 0 /\
  2 * len [1; 2; 3; 4; 5] <= alloc_max /\
  exists w', push_all 0 [1; 2; 3; 4; 5] w_null = Ret tt w' /\
             iterate 0 w' = Ret [1; 2; 3; 4; 5] w' /\
             constructions (log w') <= 22 /\
             teardowns (log w') = 0.
Proof.
  assert (Hbound : 2 * len [1; 2; 3; 4; 5] <= alloc_max) by (vm_compute; discriminate).
  split; [exact w_null_owns|]. split; [exact Hbound|].
  destruct (X13_push_back_amortised w_null 0 [1; 2; 3; 4; 5] w_null_owns Hbound)
    as (w' & Hrun & Hiter & Hc & _ & Ht).
  exists w'. split; [exact Hrun|]. split; [exact Hiter|]. split; [exact Hc|exact Ht].
Defined.

(** X14: [reserve(n)] with [n] above [size()] allocates one block of [n]
    slots and copy-constructs the elements into it in index order, and
    that is all it does: the elements of the old block are not destroyed
    and the old block is not deallocated, it stays in the heap as it
    was. *)
Theorem X14_reserve_keeps_the_old_block {T : Type} (w : world T) (this : nat)
    (xs : list T) (cap n : Z) :
  owns w this xs cap ->
  len xs < n <= alloc_max ->
  exists w', reserve this n w = Ret tt w' /\
             owns w' this xs n /\
             data this w' = Ret (Ptr (length (heap w)) 0) w' /\
             log w' = copy_events (length (heap w)) xs ++
                      EvAllocate n (Ptr (length (heap w)) 0) :: log w /\
             teardowns (log w') = teardowns (log w) /\
             constructions (log w') = constructions (log w) + len xs /\
             (forall b blk, heap w !! b = Some blk -> heap w' !! b = Some blk) /\
             (forall other, other <> this -> objs w' !! other = objs w !! other).
Proof.
  intros Hown Hn. destruct (owns_obj _ _ _ _ Hown) as [d Hd].
  exists (reallocated w this xs n). split.
  { unfold reserve, bind. rewrite (owns_size _ _ _ _ Hown).
    destruct (Z.ltb_spec (len xs) n); [|lia].
    apply (Realloc_exact _ _ _ _ _ Hown). lia. }
  split; [apply (reallocated_owns _ _ _ _ _ Hd); lia|].
  split.
  { unfold data, get_head, this_obj, bind, reallocated. cbn [objs].
    rewrite list_lookup_insert_eq by (eapply lookup_lt_Some, Hd). reflexivity. }
  unfold reallocated. cbn [log heap objs]. split; [reflexivity|].
  destruct (copy_events_counts (length (heap w)) xs) as (Hc & Ha & Ht).
  rewrite teardowns_app, constructions_app, Hc, Ht. cbn [teardowns constructions].
  split; [lia|]. split; [lia|]. split.
  - intros b blk Hb. apply lookup_app_l_Some, Hb.
  - intros other Hne. apply list_lookup_insert_ne. congruence.
Qed.

Lemma X14_witness :
  owns w_seven 0 [7] 1 /\
  len [7] < 3 <= alloc_max /\
  exists w', reserve 0 3 w_seven = Ret tt w' /\
             capacity 0 w' = Ret 3 w' /\
             heap w' !! 0%nat = Some (Some [Some 7]) /\
             teardowns (log w') = 0.
Proof.
  assert (Hn : len [7] < 3 <= alloc_max) by (split; vm_compute; congruence).
  split; [exact w_seven_owns|]. split; [exact Hn|].
  destruct (X14_reserve_keeps_the_old_block w_seven 0 [7] 1 3 w_seven_owns Hn)
    as (w' & Hrun & Hown' & _ & _ & Ht & _ & Hold & _).
  exists w'. split; [exact Hrun|]. split; [exact (owns_capacity _ _ _ _ Hown')|].
  split; [exact (Hold 0%nat _ eq_refl)|exact Ht].
Defined.

(** ** Copies, moves and the blocks they leave behind *)

Lemma w_two_owns_0 : owns w_two 0 [7; 8] 4.
Proof.
  apply (owns_block _ _ _ _ 0%nat); [reflexivity|reflexivity| |];
    unfold len, alloc_max, PTRDIFF_MAX; cbn; lia.
Defined.

Lemma w_two_owns_1 : owns w_two 1 [5] 1.
Proof.
  apply (owns_block _ _ _ _ 1%nat); [reflexivity|reflexivity| |];
    unfold len, alloc_max, PTRDIFF_MAX; cbn; lia.
Defined.

Section Blocks.

Context {T : Type}.

Local Abbreviation M := (M T).
Local Abbreviation world := (world T).

(** The block a container's [data()] points to is the block it owns. *)
Lemma owns_data_block (w : world) this (xs : list T) cap b :
  owns w this xs cap -> data this w = Ret (Ptr b 0) w ->
  objs w !! this = Some (mkDynamicArray (Ptr b 0) (Ptr b (len xs)) (Ptr b cap)) /\
  heap w !! b = Some (Some (cells xs cap)).
Proof.
  intros [Hobj _ _|b' Hobj Hblk _ _] Hdata;
    revert Hdata; unfold data, get_head, this_obj, bind; rewrite Hobj;
    cbn [head ret null_array]; [discriminate|].
  intros [= <-]. split; [reflexivity|exact Hblk].
Qed.

Lemma owns_data_null (w : world) this (xs : list T) cap :
  owns w this xs cap -> data this w = Ret Null w ->
  objs w !! this = Some null_array /\ xs = [] /\ cap = 0.
Proof.
  intros [Hobj -> ->|b' Hobj Hblk _ _] Hdata; [auto|].
  revert Hdata. unfold data, get_head, this_obj, bind. rewrite Hobj.
  cbn [head ret]. discriminate.
Qed.

(** Whatever cursors an object has, making it the target of a move gives
    it what the source owned. *)
Lemma owns_moved (w : world) this other (d0 : DynamicArray) (xs : list T) cap :
  this <> other -> objs w !! this = Some d0 -> owns w other xs cap ->
  exists w', operator_assign_move this other w = Ret tt w' /\
             heap w' = heap w /\ log w' = log w /\
             objs w' !! this = objs w !! other /\
             objs w' !! other = Some null_array /\
             owns w' this xs cap.
Proof.
  intros Hne Hd0 Hown. destruct (owns_obj _ _ _ _ Hown) as [d Hd].
  eexists. split; [apply (operator_assign_move_eq _ _ _ _ _ Hd0 Hd)|].
  cbn [objs heap log].
  assert (Hthis : <[other := null_array]> (<[this := d]> (objs w)) !! this = Some d).
  { rewrite list_lookup_insert_ne by congruence.
    apply list_lookup_insert_eq. eapply lookup_lt_Some, Hd0. }
  split; [reflexivity|]. split; [reflexivity|].
  split; [rewrite Hd; exact Hthis|].
  split.
  { apply list_lookup_insert_eq. rewrite length_insert. eapply lookup_lt_Some, Hd. }
  destruct Hown as [Hobj -> ->|b Hobj Hblk H1 H2].
  - apply owns_null; [|reflexivity|reflexivity]. cbn [objs]. congruence.
  - apply (owns_block _ _ _ _ b); [cbn [objs]; congruence|exact Hblk|exact H1|exact H2].
Qed.

End Blocks.

(** X15: assignment never looks at what the destination held.  After
    [a = b] and after [a = std::move(b)] the block [a] owned is still
    allocated with its elements in it, no element of it destroyed, while
    [a] points elsewhere: the copy points to a fresh block of [b.size()]
    slots, the move to the block of [b]. *)
Theorem X15_assignment_abandons_the_old_block {T : Type} (w : world T)
    (this other : nat) (ys xs : list T) (c cap : Z) (b : nat) :
  this <> other ->
  owns w this ys c ->
  data this w = Ret (Ptr b 0) w ->
  owns w other xs cap ->
  (exists w', operator_assign_copy this other w = Ret tt w' /\
              owns w' this xs (len xs) /\
              owns w' other xs cap /\
              heap w' !! b = Some (Some (cells ys c)) /\
              data this w' = Ret (Ptr (length (heap w)) 0) w' /\
              b <> length (heap w)) /\
  (exists w', operator_assign_move this other w = Ret tt w' /\
              owns w' this xs cap /\
              owns w' other [] 0 /\
              heap w' = heap w /\ log w' = log w /\
              heap w' !! b = Some (Some (cells ys c)) /\
              (forall p, data other w = Ret p w -> data this w' = Ret p w')).
Proof.
  intros Hne Hthis Hdata Hother.
  destruct (owns_data_block _ _ _ _ _ Hthis Hdata) as [Hobj Hblk].
  split.
  - destruct (returns_inv _ _ _
                (operator_assign_copy_distinct w this other _ xs cap Hne Hobj Hother))
      as ([] & w' & Hrun & Ho & Hh & Hown1 & Hown2).
    exists w'. split; [exact Hrun|]. split; [exact Hown1|]. split; [exact Hown2|].
    split; [rewrite Hh; apply lookup_app_l_Some, Hblk|].
    split.
    + unfold data, get_head, this_obj, bind. rewrite Ho.
      rewrite list_lookup_insert_eq by (eapply lookup_lt_Some, Hobj). reflexivity.
    + apply lookup_lt_Some in Hblk. lia.
  - destruct (owns_moved w this other _ xs cap Hne Hobj Hother)
      as (w' & Hrun & Hh & Hl & Ho1 & Ho2 & Hown').
    exists w'. split; [exact Hrun|]. split; [exact Hown'|].
    split; [apply owns_null; auto|]. split; [exact Hh|]. split; [exact Hl|].
    split; [rewrite Hh; exact Hblk|].
    intros p. unfold data, get_head, this_obj, bind. rewrite Ho1.
    destruct (objs w !! other) as [d|]; [|discriminate].
    cbn [ret]. intros [= <-]. reflexivity.
Qed.

Lemma X15_witness :
  (0 <> 1)%nat /\
  owns w_two 0 [7; 8] 4 /\
  data 0 w_two = Ret (Ptr 0 0) w_two /\
  owns w_two 1 [5] 1 /\
  (exists w', operator_assign_copy 0 1 w_two = Ret tt w' /\
              iterate 0 w' = Ret [5] w' /\
              heap w' !! 0%nat = Some (Some [Some 7; Some 8; None; None])) /\
  (exists w', operator_assign_move 0 1 w_two = Ret tt w' /\
              iterate 0 w' = Ret [5] w' /\
              heap w' !! 0%nat = Some (Some [Some 7; Some 8; None; None])).
Proof.
  assert (Hne : (0 <> 1)%nat) by discriminate.
  split; [exact Hne|]. split; [exact w_two_owns_0|]. split; [reflexivity|].
  split; [exact w_two_owns_1|].
  destruct (X15_assignment_abandons_the_old_block w_two 0 1 [7; 8] [5] 4 1 0
              Hne w_two_owns_0 eq_refl w_two_owns_1)
    as ((w1 & Hrun1 & Hown1 & _ & Hold1 & _) & (w2 & Hrun2 & Hown2 & _ & _ & _ & Hold2 & _)).
  split.
  - exists w1. split; [exact Hrun1|]. split; [exact (iterate_owns _ _ _ _ Hown1)|exact Hold1].
  - exists w2. split; [exact Hrun2|]. split; [exact (iterate_owns _ _ _ _ Hown2)|exact Hold2].
Defined.

Section Apart.

Context {T : Type}.

Local Abbreviation M := (M T).
Local Abbreviation world := (world T).

(** [push_back] writes to the block of its container, or to a fresh one,
    and to no other. *)
Lemma PushBack_elsewhere (w w1 : world) this (xs : list T) cap v b' blk :
  owns w this xs cap ->
  (len xs = cap -> grown cap <= alloc_max) ->
  PushBack this v w = Ret tt w1 ->
  heap w !! b' = Some blk ->
  data this w <> Ret (Ptr b' 0) w ->
  heap w1 !! b' = Some blk.
Proof.
  intros Hown Hg Hpush Hb' Hdata.
  pose proof (owns_bounds _ _ _ _ Hown) as [Hb Hc].
  destruct (Z.eq_dec (len xs) cap) as [Heq|Hne].
  - subst cap. rewrite (PushBack_full_exact w this xs v Hown (Hg eq_refl)) in Hpush.
    injection Hpush as <-. cbn [heap]. apply lookup_app_l_Some, Hb'.
  - destruct Hown as [_ -> ->|b Hobj Hblk _ _]; [destruct Hne; reflexivity|].
    rewrite (PushBack_room_exact w this b xs cap v Hobj Hblk ltac:(lia)) in Hpush.
    injection Hpush as <-. cbn [heap].
    rewrite list_lookup_insert_ne; [exact Hb'|].
    intros <-. apply Hdata, (data_owns_block _ _ _ _ _ Hobj).
Qed.

(** Two containers with different blocks: [push_back] on one leaves the
    other as it is. *)
Lemma PushBack_apart (w : world) this other (xs ys : list T) cap c v :
  this <> other ->
  owns w this xs cap -> owns w other ys c ->
  (forall b, data this w = Ret (Ptr b 0) w -> data other w <> Ret (Ptr b 0) w) ->
  (len xs = cap -> grown cap <= alloc_max) ->
  exists w1, PushBack this v w = Ret tt w1 /\
             owns w1 this (xs ++ [v]) (capacity_after_push xs cap) /\
             owns w1 other ys c.
Proof.
  intros Hne Hown Hother Hapart Hg.
  destruct (PushBack_counts w this xs cap v Hown Hg)
    as (w1 & Hpush & Hown1 & _ & _ & _ & Hothers).
  exists w1. split; [exact Hpush|]. split; [exact Hown1|].
  assert (Ho : objs w1 !! other = objs w !! other) by (apply Hothers; congruence).
  destruct Hother as [Hobj -> ->|bo Hobj Hblk H1 H2].
  - apply owns_null; [congruence|reflexivity|reflexivity].
  - apply (owns_block _ _ _ _ bo); [congruence| |exact H1|exact H2].
    apply (PushBack_elsewhere w w1 this xs cap v bo _ Hown Hg Hpush Hblk).
    intros Hdata. apply (Hapart bo Hdata), (data_owns_block _ _ _ _ _ Hobj).
Qed.

End Apart.

(** X16: a copy made by assignment shares nothing with its source.  After
    [a = b], both hold the elements of [b]; a [push_back] on [a] leaves
    [b] as it was, and a [push_back] on [b] leaves [a] as it was. *)
Theorem X16_copy_assignment_is_independent {T : Type} (w : world T)
    (this other : nat) (d : DynamicArray) (xs : list T) (cap : Z) (v : T) :
  this <> other ->
  objs w !! this = Some d ->
  owns w other xs cap ->
  2 * cap + 1 <= alloc_max ->
  exists w1, operator_assign_copy this other w = Ret tt w1 /\
             iterate this w1 = Ret xs w1 /\
             iterate other w1 = Ret xs w1 /\
             (exists w2, push_back this v w1 = Ret tt w2 /\
                         iterate this w2 = Ret (xs ++ [v]) w2 /\
                         iterate other w2 = Ret xs w2) /\
             (exists w2, push_back other v w1 = Ret tt w2 /\
                         iterate other w2 = Ret (xs ++ [v]) w2 /\
                         iterate this w2 = Ret xs w2).
Proof.
  intros Hne Hd Hother Hfit.
  pose proof (owns_bounds _ _ _ _ Hother) as [Hb Hc].
  destruct (returns_inv _ _ _
              (operator_assign_copy_distinct w this other d xs cap Hne Hd Hother))
    as ([] & w1 & Hrun & Ho & Hh & Hown1 & Hown2).
  assert (Hdata1 : data this w1 = Ret (Ptr (length (heap w)) 0) w1).
  { unfold data, get_head, this_obj, bind. rewrite Ho.
    rewrite list_lookup_insert_eq by (eapply lookup_lt_Some, Hd). reflexivity. }
  assert (Hfresh : data other w1 <> Ret (Ptr (length (heap w)) 0) w1).
  { intros Hdata.
    assert (Hdata0 : data other w = Ret (Ptr (length (heap w)) 0) w).
    { revert Hdata. unfold data, get_head, this_obj, bind. rewrite Ho.
      rewrite list_lookup_insert_ne by congruence.
      destruct (objs w !! other) as [d'|]; [|discriminate].
      cbn [ret]. intros [= ->]. reflexivity. }
    destruct (owns_data_block _ _ _ _ _ Hother Hdata0) as [_ Hblk].
    apply lookup_lt_Some in Hblk. lia. }
  exists w1. split; [exact Hrun|].
  split; [apply (iterate_owns _ _ _ _ Hown1)|].
  split; [apply (iterate_owns _ _ _ _ Hown2)|].
  split.
  - destruct (PushBack_apart w1 this other xs xs (len xs) cap v Hne Hown1 Hown2)
      as (w2 & Hpush & Hthis & Hoth).
    { intros b Hdata. rewrite Hdata1 in Hdata. injection Hdata as <-. exact Hfresh. }
    { intros _. pose proof (grown_le_double (len xs) ltac:(lia)). lia. }
    exists w2. split; [exact Hpush|].
    split; [apply (iterate_owns _ _ _ _ Hthis)|apply (iterate_owns _ _ _ _ Hoth)].
  - destruct (PushBack_apart w1 other this xs xs cap (len xs) v ltac:(congruence) Hown2 Hown1)
      as (w2 & Hpush & Hoth & Hthis).
    { intros b Hdata Hdata'. rewrite Hdata1 in Hdata'. injection Hdata' as <-.
      exact (Hfresh Hdata). }
    { intros _. pose proof (grown_le_double cap ltac:(lia)). lia. }
    exists w2. split; [exact Hpush|].
    split; [apply (iterate_owns _ _ _ _ Hoth)|apply (iterate_owns _ _ _ _ Hthis)].
Qed.

Lemma X16_witness :
  (0 <> 1)%nat /\
  objs w_two !! 0%nat = Some (mkDynamicArray (Ptr 0 0) (Ptr 0 2) (Ptr 0 4)) /\
  owns w_two 1 [5] 1 /\
  2 * 1 + 1 <= alloc_max /\
  exists w1, operator_assign_copy 0 1 w_two = Ret tt w1 /\
             (exists w2, push_back 0 9 w1 = Ret tt w2 /\
                         iterate 0 w2 = Ret [5; 9] w2 /\
                         iterate 1 w2 = Ret [5] w2).
Proof.
  assert (Hne : (0 <> 1)%nat) by discriminate.
  assert (Hfit : 2 * 1 + 1 <= alloc_max) by (vm_compute; discriminate).
  split; [exact Hne|]. split; [reflexivity|]. split; [exact w_two_owns_1|].
  split; [exact Hfit|].
  destruct (X16_copy_assignment_is_independent w_two 0 1 _ [5] 1 9
              Hne eq_refl w_two_owns_1 Hfit)
    as (w1 & Hrun & _ & _ & Hpush & _).
  exists w1. split; [exact Hrun|exact Hpush].
Defined.

(** X17: a copy constructed from a container with spare capacity cannot be
    used.  Its block has [size()] slots while its [capacity()] is the
    capacity of the source, so [push_back] constructs past the end of the
    block, and the destructor and [clear()] deallocate with a slot count
    the block was not allocated with: none of the three has a defined
    result. *)
Theorem X17_copy_with_spare_capacity {T : Type} (w : world T) (other : nat)
    (xs : list T) (cap : Z) (v : T) :
  owns w other xs cap ->
  len xs < cap ->
  exists w', DynamicArray_ctor_copy other w = Ret (length (objs w)) w' /\
             size (length (objs w)) w' = Ret (len xs) w' /\
             capacity (length (objs w)) w' = Ret cap w' /\
             push_back (length (objs w)) v w' = Undefined /\
             destructor (length (objs w)) w' = Undefined /\
             clear (length (objs w)) w' = Undefined.
Proof.
  intros Hown Hspare. pose proof (owns_bounds _ _ _ _ Hown) as [Hb Hc].
  destruct (returns_inv _ _ _ (DynamicArray_ctor_copy_returns w other xs cap Hown))
    as (this & w' & Hrun & -> & Ho & Hh & _).
  set (this := length (objs w)). set (b := length (heap w)) in *.
  assert (Hobj : objs w' !! this =
                 Some (mkDynamicArray (Ptr b 0) (Ptr b (len xs)) (Ptr b cap))).
  { rewrite Ho. apply list_lookup_middle. reflexivity. }
  assert (Hblk : heap w' !! b = Some (Some (cells xs (len xs)))).
  { rewrite Hh. apply list_lookup_middle. reflexivity. }
  assert (Hsize : size this w' = Ret (len xs) w').
  { rewrite size_cursors, Hobj. cbn [tail head ptr_diff].
    rewrite Nat.eqb_refl, Z.sub_0_r, wrap_small by (apply alloc_max_size_t; lia).
    reflexivity. }
  assert (Hcap : capacity this w' = Ret cap w').
  { rewrite capacity_cursors, Hobj. cbn [tailCap head ptr_diff].
    rewrite Nat.eqb_refl, Z.sub_0_r, wrap_small by (apply alloc_max_size_t; lia).
    reflexivity. }
  assert (Hclear : Clear this w' = Undefined).
  { apply undefined_intro. unfold Clear.
    apply wpg_bind. unfold wpg at 1. rewrite Hsize.
    unfold len at 2. rewrite Nat2Z.id.
    apply wpg_bind.
    eapply destroy_loop_exact; [exact Hobj|exact Hblk|lia|lia|].
    rewrite Nat.sub_diag, take_0.
    set (w1 := mkWorld (objs w') _ _).
    assert (Hobj1 : objs w1 !! this =
                    Some (mkDynamicArray (Ptr b 0) (Ptr b (len xs)) (Ptr b cap)))
      by exact Hobj.
    assert (Hblk1 : heap w1 !! b = Some (Some (cells [] (len xs)))).
    { apply list_lookup_insert_eq. eapply lookup_lt_Some, Hblk. }
    apply wpg_bind. eapply wpg_get_head; [exact Hobj1|cbn [head]].
    apply wpg_bind. unfold wpg at 1. rewrite capacity_cursors, Hobj1.
    cbn [tailCap head ptr_diff].
    rewrite Nat.eqb_refl, Z.sub_0_r, wrap_small by (apply alloc_max_size_t; lia).
    unfold wpg, deallocate. rewrite Hblk1.
    rewrite length_cells by (change (len (@nil T)) with 0; lia).
    rewrite Z2Nat.id by lia.
    destruct (Z.eqb_spec (len xs) cap); [lia|]. rewrite andb_false_r. exact I. }
  exists w'. split; [exact Hrun|]. split; [exact Hsize|]. split; [exact Hcap|].
  split; [|split; [exact Hclear|]].
  - apply undefined_intro. unfold push_back, PushBack.
    apply wpg_bind. unfold wpg at 1. rewrite Hsize.
    apply wpg_bind. unfold wpg at 1. rewrite Hcap.
    destruct (Z.eqb_spec (len xs) cap); [lia|].
    apply wpg_bind, wpg_ret.
    apply wpg_bind. eapply wpg_get_tail; [exact Hobj|cbn [tail]].
    apply wpg_bind, wpg_construct_partial.
    intros s Hs. exfalso. revert Hs.
    rewrite (slot_at_block _ _ _ _ Hblk) by lia.
    rewrite (proj2 (lookup_ge_None _ _)); [discriminate|].
    rewrite length_cells by lia. lia.
  - unfold clear, bind. rewrite Hclear. reflexivity.
Qed.

Lemma X17_witness :
  owns w_spare 0 [7; 8] 4 /\
  len [7; 8] < 4 /\
  exists w', DynamicArray_ctor_copy 0 w_spare = Ret 1%nat w' /\
             capacity 1 w' = Ret 4 w' /\
             push_back 1 9 w' = Undefined /\
             destructor 1 w' = Undefined.
Proof.
  assert (Hspare : len [7; 8] < 4) by (vm_compute; reflexivity).
  split; [exact w_spare_owns|]. split; [exact Hspare|].
  destruct (X17_copy_with_spare_capacity w_spare 0 [7; 8] 4 9 w_spare_owns Hspare)
    as (w' & Hrun & _ & Hcap & Hpush & Hdtor & _).
  exists w'. split; [exact Hrun|]. split; [exact Hcap|]. split; [exact Hpush|exact Hdtor].
Defined.

(** X18: moving out of a container and then destroying both objects frees
    the block once: the destructor of the new object destroys the elements
    and deallocates the block, the destructor of the moved-from object
    only passes a null pointer to the allocator. *)
Theorem X18_move_then_destroy_both {T : Type} (w : world T) (a : nat)
    (xs : list T) (cap : Z) :
  owns w a xs cap ->
  exists c w1 w2 w3,
    DynamicArray_ctor_move a w = Ret c w1 /\
    destructor c w1 = Ret tt w2 /\
    destructor a w2 = Ret tt w3 /\
    teardowns (log w3) = teardowns (log w) + len xs + 2 /\
    (forall b, data a w = Ret (Ptr b 0) w ->
       heap w3 = <[b := None]> (heap w) /\
       log w3 = EvDeallocate Null 0 :: EvDeallocate (Ptr b 0) cap ::
                destroy_events b 0 (length xs) ++ log w) /\
    (data a w = Ret Null w -> heap w3 = heap w).
Proof.
  intros Hown. pose proof (owns_bounds _ _ _ _ Hown) as [Hb Hc].
  destruct (owns_obj _ _ _ _ Hown) as [d Hd].
  assert (Hlt : (a < length (objs w))%nat) by (eapply lookup_lt_Some, Hd).
  set (w1 := mkWorld (<[a := null_array]> (objs w ++ [d])) (heap w) (log w)).
  exists (length (objs w)), w1.
  assert (Hc1 : objs w1 !! length (objs w) = Some d).
  { cbn [w1 objs]. rewrite list_lookup_insert_ne by lia.
    apply list_lookup_middle. reflexivity. }
  assert (Ha1 : objs w1 !! a = Some null_array).
  { apply list_lookup_insert_eq. rewrite length_app. lia. }
  destruct Hown as [Hobj -> ->|b Hobj Hblk _ _].
  - rewrite Hobj in Hd. injection Hd as <-.
    do 2 eexists. split; [apply (DynamicArray_ctor_move_eq _ _ _ Hobj)|].
    split; [apply (Clear_null_exact _ _ Hc1)|].
    split; [apply Clear_null_exact; exact Ha1|].
    cbn [log heap teardowns w1]. change (len (@nil T)) with 0.
    split; [lia|]. split; [|reflexivity].
    intros b Hdata. revert Hdata. unfold data, get_head, this_obj, bind.
    rewrite Hobj. discriminate.
  - rewrite Hobj in Hd. injection Hd as <-.
    do 2 eexists. split; [apply (DynamicArray_ctor_move_eq _ _ _ Hobj)|].
    split; [apply (Clear_block_exact w1 _ b xs cap Hc1 Hblk); lia|].
    split; [apply Clear_null_exact; exact Ha1|].
    unfold destroyed. cbn [log heap teardowns w1].
    destruct (destroy_events_counts (T := T) b 0 (length xs)) as (Ht & _).
    rewrite teardowns_app, Ht.
    split; [unfold len; lia|]. split.
    + intros b' Hdata. rewrite (data_owns_block _ _ _ _ _ Hobj) in Hdata.
      injection Hdata as <-. split; reflexivity.
    + rewrite (data_owns_block _ _ _ _ _ Hobj). discriminate.
Qed.

Lemma X18_witness :
  owns w_spare 0 [7; 8] 4 /\
  exists c w1 w2 w3,
    DynamicArray_ctor_move 0 w_spare = Ret c w1 /\
    destructor c w1 = Ret tt w2 /\
    destructor 0 w2 = Ret tt w3 /\
    heap w3 = [None] /\
    teardowns (log w3) = 4.
Proof.
  split; [exact w_spare_owns|].
  destruct (X18_move_then_destroy_both w_spare 0 [7; 8] 4 w_spare_owns)
    as (c & w1 & w2 & w3 & Hmove & Hd1 & Hd2 & Ht & Hblock & _).
  destruct (Hblock 0%nat eq_refl) as [Hheap _].
  exists c, w1, w2, w3. split; [exact Hmove|]. split; [exact Hd1|].
  split; [exact Hd2|]. split; [exact Hheap|exact Ht].
Defined.

(** ** Sizes *)





(** X21: the default constructor makes an empty container without calling
    the allocator: size and capacity 0, [data()] null, heap and allocator
    log as before, every existing container untouched.  [empty()] answers
    whether a container holds no element. *)
Theorem X21_default_construction {T : Type} (w : world T) (other : nat)
    (xs : list T) (cap : Z) :
  owns w other xs cap ->
  empty other w = Ret (bool_decide (xs = [])) w /\
  exists w', DynamicArray_ctor w = Ret (length (objs w)) w' /\
             empty (length (objs w)) w' = Ret true w' /\
             size (length (objs w)) w' = Ret 0 w' /\
             capacity (length (objs w)) w' = Ret 0 w' /\
             data (length (objs w)) w' = Ret Null w' /\
             heap w' = heap w /\ log w' = log w /\
             owns w' other xs cap.
Proof.
  intros Hown. split.
  - unfold empty, bind. rewrite (owns_size _ _ _ _ Hown). cbn [ret]. f_equal.
    destruct xs; reflexivity.
  - destruct (returns_inv _ _ _ (DynamicArray_ctor_owns w))
      as (this & w' & Hrun & -> & Hown' & Hh & Hl & Ho).
    exists w'. split; [exact Hrun|].
    split; [unfold empty, bind; rewrite (owns_size _ _ _ _ Hown'); reflexivity|].
    split; [apply (owns_size _ _ _ _ Hown')|].
    split; [apply (owns_capacity _ _ _ _ Hown')|].
    split.
    { unfold data, get_head, this_obj, bind. rewrite Ho.
      rewrite list_lookup_middle by reflexivity. reflexivity. }
    split; [exact Hh|]. split; [exact Hl|].
    eapply owns_frame; [exact Hown| |].
    + rewrite Ho. destruct (owns_obj _ _ _ _ Hown) as [d Hd].
      rewrite Hd. apply lookup_app_l_Some, Hd.
    + intros b blk Hb. rewrite Hh. exact Hb.
Qed.

Lemma X21_witness :
  owns w_seven 0 [7] 1 /\
  empty 0 w_seven = Ret false w_seven /\
  exists w', DynamicArray_ctor w_seven = Ret 1%nat w' /\
             empty 1 w' = Ret true w' /\
             log w' = [].
Proof.
  split; [exact w_seven_owns|].
  destruct (X21_default_construction w_seven 0 [7] 1 w_seven_owns)
    as (Hempty & w' & Hrun & He & _ & _ & _ & _ & Hl & _).
  split; [exact Hempty|].
  exists w'. split; [exact Hrun|]. split; [exact He|exact Hl].
Defined.

(** X22: copy construction from a container without spare capacity gives
    a container of its own: it holds the same elements in a fresh block,
    and destroying the copy frees that block only, the source and its
    elements stay as they were. *)
Theorem X22_copy_of_a_full_container {T : Type} (w : world T) (other : nat)
    (xs : list T) :
  owns w other xs (len xs) ->
  exists w1 w2, DynamicArray_ctor_copy other w = Ret (length (objs w)) w1 /\
                owns w1 (length (objs w)) xs (len xs) /\
                owns w1 other xs (len xs) /\
                iterate (length (objs w)) w1 = Ret xs w1 /\
                data (length (objs w)) w1 = Ret (Ptr (length (heap w)) 0) w1 /\
                destructor (length (objs w)) w1 = Ret tt w2 /\
                heap w2 !! length (heap w) = Some None /\
                owns w2 other xs (len xs) /\
                iterate other w2 = Ret xs w2.
Proof.
  intros Hown. pose proof (owns_bounds _ _ _ _ Hown) as [Hb Hc].
  destruct (owns_obj _ _ _ _ Hown) as [d Hd].
  destruct (returns_inv _ _ _ (DynamicArray_ctor_copy_returns w other xs _ Hown))
    as (this & w1 & Hrun & -> & Ho & Hh & Hown1).
  set (this := length (objs w)) in *. set (b := length (heap w)) in *.
  assert (Hobj : objs w1 !! this =
                 Some (mkDynamicArray (Ptr b 0) (Ptr b (len xs)) (Ptr b (len xs)))).
  { rewrite Ho. apply list_lookup_middle. reflexivity. }
  assert (Hblk : heap w1 !! b = Some (Some (cells xs (len xs)))).
  { rewrite Hh. apply list_lookup_middle. reflexivity. }
  assert (Hcopy : owns w1 this xs (len xs)).
  { apply (owns_block _ _ _ _ b); [exact Hobj|exact Hblk|lia|exact Hc]. }
  exists w1, (destroyed w1 b xs (len xs)).
  split; [exact Hrun|]. split; [exact Hcopy|]. split; [exact Hown1|].
  split; [apply (iterate_owns _ _ _ _ Hcopy)|].
  split; [apply (data_owns_block _ _ _ _ _ Hobj)|].
  split; [apply (Clear_block_exact w1 this b xs (len xs) Hobj Hblk); lia|].
  split.
  { unfold destroyed. cbn [heap]. apply list_lookup_insert_eq.
    eapply lookup_lt_Some, Hblk. }
  assert (Hsrc : owns (destroyed w1 b xs (len xs)) other xs (len xs)).
  { assert (Hobjs : objs (destroyed w1 b xs (len xs)) !! other = objs w !! other).
    { unfold destroyed. cbn [objs]. rewrite Ho, Hd. apply lookup_app_l_Some, Hd. }
    destruct Hown as [Hnull Hxs _|bo Hobjo Hblko H1 H2].
    - apply owns_null; [congruence|exact Hxs|rewrite Hxs; reflexivity].
    - apply (owns_block _ _ _ _ bo); [congruence| |exact H1|exact H2].
      unfold destroyed. cbn [heap].
      assert (bo <> b) by (apply lookup_lt_Some in Hblko; unfold b; lia).
      rewrite list_lookup_insert_ne by congruence.
      rewrite Hh. apply lookup_app_l_Some, Hblko. }
  split; [exact Hsrc|apply (iterate_owns _ _ _ _ Hsrc)].
Qed.

Lemma X22_witness :
  owns w_seven 0 [7] (len [7]) /\
  exists w1 w2, DynamicArray_ctor_copy 0 w_seven = Ret 1%nat w1 /\
                iterate 1 w1 = Ret [7] w1 /\
                destructor 1 w1 = Ret tt w2 /\
                heap w2 !! 1%nat = Some None /\
                iterate 0 w2 = Ret [7] w2.
Proof.
  split; [exact w_seven_owns|].
  destruct (X22_copy_of_a_full_container w_seven 0 [7] w_seven_owns)
    as (w1 & w2 & Hrun & _ & _ & Hiter & _ & Hdtor & Hfreed & _ & Hsrc).
  exists w1, w2. split; [exact Hrun|]. split; [exact Hiter|].
  split; [exact Hdtor|]. split; [exact Hfreed|exact Hsrc].
Defined.
